(** * cmpsh: a mini shell with pipe support (src/requirement/req.c)

    A shallow embedding of the shell of [req.c]: the C string helpers it
    calls ([strncmp], [strtok], [fgets]), its own helpers [trim] and
    [parse_args], and [main], whose system calls ([pipe], [fork], [dup2],
    [close], [execvp], [wait], [exit]) act on an explicit process state.

    Conventions.
    - A C string is the list of its characters before the terminating NUL.
    - [int] values ([i], [num_cmds], descriptors, [prev_fd] with its [-1]
      sentinel) are [Z]; none of them can overflow (at most [MAX_CMDS]
      stages, descriptors are small).
    - A descriptor table is a finite map from descriptor numbers to open
      files; [pipe] hands out the lowest free numbers, as POSIX requires.
    - What the program cannot decide itself (whether [pipe], [fork] or
      [execvp] fail, which child [wait] reaps, what the library holds in
      the buffers of [stdout] and [stdin] when [fork] is called) is read
      from a [world].
    - The input of [main] is the sequence of characters its calls of
      [fgets] return. *)

From Stdlib Require Import ZArith Ascii String List Lia Permutation.
From stdpp Require Import base gmap list.
Import ListNotations.

Open Scope Z_scope.

(** ** Constants of the source *)

Definition MAX_CMDS : nat := 10.
Definition MAX_ARGS : nat := 20.
Definition MAX_LINE : nat := 1024.

Definition STDIN_FILENO : Z := 0.
Definition STDOUT_FILENO : Z := 1.

(** ** C strings *)

Module CString.

Definition cstring := list ascii.

Definition NUL : ascii := Ascii.zero.
Definition LF : ascii := ascii_of_nat 10.
Definition SP : ascii := " "%char.
Definition BAR : ascii := "|"%char.

(** A string literal of the source. *)
Definition lit (s : string) : cstring := list_ascii_of_string s.

(** The string a [char] buffer holds: its content up to the first NUL. *)
Fixpoint c_str (buf : list ascii) : cstring :=
  match buf with
  | [] => []
  | c :: buf' => if Ascii.eqb c NUL then [] else c :: c_str buf'
  end.

(** The character a pointer into a string points at: NUL at the end. *)
Definition deref (s : cstring) : ascii := hd NUL s.

Definition uchar (c : ascii) : Z := Z.of_nat (nat_of_ascii c).

(** [strncmp(s1, s2, n)]: compares at most [n] characters, stopping after
    a NUL; the sign of the result is that of the first difference. *)
Fixpoint strncmp (s1 s2 : cstring) (n : nat) : Z :=
  match n with
  | O => 0
  | S n' =>
      let c1 := deref s1 in
      let c2 := deref s2 in
      if negb (Ascii.eqb c1 c2) then uchar c1 - uchar c2
      else if Ascii.eqb c1 NUL then 0
      else strncmp (tl s1) (tl s2) n'
  end.

Definition strchr_in (set : cstring) (c : ascii) : bool :=
  existsb (Ascii.eqb c) set.

(** [strspn(s, accept)]: length of the initial run of characters of [s]
    that are in [accept]. *)
Fixpoint strspn (s accept : cstring) : nat :=
  match s with
  | c :: s' => if strchr_in accept c then S (strspn s' accept) else O
  | [] => O
  end.

(** [strcspn(s, reject)]: length of the initial run of characters of [s]
    that are not in [reject]. *)
Fixpoint strcspn (s reject : cstring) : nat :=
  match s with
  | c :: s' => if strchr_in reject c then O else S (strcspn s' reject)
  | [] => O
  end.

(** [strtok]. The library keeps a saved pointer between calls; here a
    call takes the string it scans (the argument of a first call, the
    saved pointer of a call with NULL) and returns the token, if any,
    with the new saved pointer. It skips leading delimiters; with nothing
    left it returns NULL; otherwise the token runs to the next delimiter,
    which is overwritten with NUL, and the saved pointer is just past
    it (or at the terminator when the token ends the string). *)
Definition strtok (s delim : cstring) : option cstring * cstring :=
  let s1 := drop (strspn s delim) s in
  match s1 with
  | [] => (None, [])
  | _ :: _ =>
      let n := strcspn s1 delim in
      (Some (take n s1), drop (S n) s1)
  end.

(** [fgets(buf, size, stream)]: reads at most [size - 1] characters,
    stopping after a newline. Returns the characters stored and the rest
    of the stream; NULL at end of input when nothing was read. *)
Fixpoint fgets_chars (n : nat) (stream : list ascii) : list ascii * list ascii :=
  match n, stream with
  | S n', c :: stream' =>
      if Ascii.eqb c LF then ([c], stream')
      else let '(l, r) := fgets_chars n' stream' in (c :: l, r)
  | _, _ => ([], stream)
  end.

Definition fgets (size : nat) (stream : list ascii) : option (list ascii * list ascii) :=
  match stream with
  | [] => None
  | _ :: _ => Some (fgets_chars (size - 1) stream)
  end.

End CString.
Import CString.

(** ** The helpers of req.c *)

(** [trim]: the loop [while ( *str == ' ' ) str++;] *)
Fixpoint skip_spaces (str : cstring) : cstring :=
  match str with
  | c :: str' => if Ascii.eqb c SP then skip_spaces str' else str
  | [] => []
  end.

(** The loop [while (end > str && ( *end == ' ' || *end == '\n' )) *end-- = '\0';]
    with [end_] the offset of [end] from [str]: storing NUL at that offset
    cuts the string there. *)
Fixpoint trim_end (str : cstring) (end_ : nat) : cstring :=
  match end_ with
  | O => str
  | S end' =>
      let c := nth end_ str NUL in
      if Ascii.eqb c SP || Ascii.eqb c LF
      then trim_end (take end_ str) end'
      else str
  end.

(** [char* end = str + strlen(str) - 1;] For the empty string [end] is
    before [str] and the loop does not run, as for offset 0. *)
Definition trim (str : cstring) : cstring :=
  let str := skip_spaces str in
  trim_end str (length str - 1)%nat.

(** [parse_args]: the loop [while (token && i < MAX_ARGS - 1)], [cap] being
    the room left, [MAX_ARGS - 1 - i]. Returns [args[0..i-1]]; the array
    then holds NULL at index [i]. *)
Fixpoint parse_args_loop (cap : nat) (token : option cstring) (save : cstring)
  : list cstring :=
  match token, cap with
  | Some tok, S cap' =>
      let '(token', save') := strtok save (lit " ") in
      tok :: parse_args_loop cap' token' save'
  | _, _ => []
  end.

Definition parse_args (cmd : cstring) : list cstring :=
  let '(token, save) := strtok cmd (lit " ") in
  parse_args_loop (MAX_ARGS - 1) token save.


(** [main], "Split on pipes": the loop [while (token && num_cmds < MAX_CMDS)]
    with [cap = MAX_CMDS - num_cmds]. [trim] only stores NULs inside the
    token it is given, so the saved pointer of [strtok] is not disturbed. *)
Fixpoint split_loop (cap : nat) (token : option cstring) (save : cstring)
  : list cstring :=
  match token, cap with
  | Some tok, S cap' =>
      let '(token', save') := strtok save (lit "|") in
      trim tok :: split_loop cap' token' save'
  | _, _ => []
  end.

Definition split_pipes (input : cstring) : list cstring :=
  let '(token, save) := strtok input (lit "|") in
  split_loop MAX_CMDS token save.

(** Every token [strtok] would return for [s], without a capacity: used to
    say what the two bounded loops leave out. *)
Fixpoint all_tokens (fuel : nat) (s delim : cstring) : list cstring :=
  match fuel with
  | O => []
  | S fuel' =>
      match strtok s delim with
      | (Some tok, save) => tok :: all_tokens fuel' save delim
      | (None, _) => []
      end
  end.

Definition tokens (s delim : cstring) : list cstring :=
  all_tokens (S (length s)) s delim.

(** ** Processes and descriptors *)

(** What a descriptor refers to: something the shell was started with, or
    an end of the [k]-th pipe the shell created. *)
Inductive file :=
| Inherited (fd : nat)
| PipeRead (k : nat)
| PipeWrite (k : nat).

(** What the shell process does, in order. *)
Inductive event :=
| EPrintf (s : string)
| EPerror (s : string)
| EPipe (k : nat) (rd wr : Z)
| EFork (pid : nat)
| EClose (fd : Z)
| EWait (ret : Z).

(** How the code a child runs after [fork] ends: [execvp] replaces the
    process image, or it returns and the child reports and exits; with no
    program to name ([args[0]] is NULL) the call has no defined behaviour,
    and nothing is said of what follows it (where the library reads the
    name first, the child is killed by a signal). *)
Inductive child_end :=
| ImageReplaced
| ChildExit (err : string) (status : Z)
| NoProgram.

(** What the library holds for the two streams of the shell, [stdout] and
    [stdin]; a child starts with a copy of both. *)
Record buffers := {
  out_held : list ascii;    (* printed and not yet written to descriptor 1 *)
  in_ahead : nat            (* characters read from descriptor 0 that no
                               [fgets] has returned yet *)
}.

Record worker := {
  w_pid : nat;
  w_stage : Z;                     (* the loop index [i] it was forked at *)
  w_inherited : gmap nat file;     (* its descriptors when [fork] returns *)
  w_fds : gmap nat file;           (* its descriptors when it calls [execvp] *)
  w_args : list cstring;           (* [args], up to the NULL *)
  w_end : child_end;
  w_flush : option (file * list ascii);
                                   (* what its [exit] writes of the copy of
                                      the buffer of [stdout], and to what *)
  w_seek : option nat              (* how far back its [exit] moves the
                                      offset of the file at descriptor 0 *)
}.

(** The environment's answers. The last three are about the library's
    buffers, by the number of prompts printed so far: how many of the
    characters printed are still held when the line after the prompt has
    been read (none when the shell talks to a terminal, where reading
    writes the prompt out; all of them, until the buffer is full, when the
    input comes from a pipe or a file), how many characters the library
    has read beyond that line (none on a terminal, the rest of the block
    on a file), and whether the offset of an inherited descriptor can be
    moved (a regular file). *)
Record world := {
  pipe_fails : nat -> bool;               (* by number of pipes made so far *)
  fork_fails : nat -> bool;               (* by number of children made so far *)
  exec_fails : nat -> list cstring -> bool;   (* by pid and [args] *)
  wait_pick : nat -> nat;                 (* by number of [wait] calls so far:
                                             which child terminates next *)
  stdout_held : nat -> nat;
  stdin_ahead : nat -> nat;
  seekable : nat -> bool
}.

(** The shell process and what it has created. *)
Record state := {
  stdin : list ascii;         (* what is still to be read *)
  fds : gmap nat file;        (* the shell's descriptor table *)
  n_pipes : nat;
  n_forks : nat;
  n_waits : nat;
  children : list nat;        (* children not yet waited for *)
  workers : list worker;      (* every child created, oldest first *)
  log : list event            (* oldest first *)
}.

Definition set_stdin (s : list ascii) (st : state) : state :=
  {| stdin := s; fds := fds st; n_pipes := n_pipes st; n_forks := n_forks st;
     n_waits := n_waits st; children := children st; workers := workers st;
     log := log st |}.

Definition set_fds (t : gmap nat file) (st : state) : state :=
  {| stdin := stdin st; fds := t; n_pipes := n_pipes st; n_forks := n_forks st;
     n_waits := n_waits st; children := children st; workers := workers st;
     log := log st |}.

Definition emit (e : event) (st : state) : state :=
  {| stdin := stdin st; fds := fds st; n_pipes := n_pipes st; n_forks := n_forks st;
     n_waits := n_waits st; children := children st; workers := workers st;
     log := log st ++ [e] |}.

(** The lowest descriptor number not in use: among [0 .. size t] one is
    free. *)
Fixpoint lowest_from (t : gmap nat file) (fuel n : nat) : nat :=
  match fuel with
  | O => n
  | S fuel' =>
      match t !! n with
      | None => n
      | Some _ => lowest_from t fuel' (S n)
      end
  end.

Definition lowest_free (t : gmap nat file) : nat := lowest_from t (size t) 0.

Definition fd_lookup (t : gmap nat file) (fd : Z) : option file :=
  if fd <? 0 then None else t !! Z.to_nat fd.

(** [dup2(oldfd, newfd)]; a bad [oldfd] changes nothing. *)
Definition sys_dup2 (t : gmap nat file) (oldfd newfd : Z) : gmap nat file :=
  match fd_lookup t oldfd with
  | Some f => if newfd <? 0 then t else <[Z.to_nat newfd := f]> t
  | None => t
  end.

(** [close(fd)]; a bad [fd] changes nothing. *)
Definition sys_close (t : gmap nat file) (fd : Z) : gmap nat file :=
  if fd <? 0 then t else delete (Z.to_nat fd) t.

(** [pipe(pipefd)] in the shell: on success the new pipe's read and write
    ends take the two lowest free descriptors. *)
Definition do_pipe (w : world) (st : state) : option (Z * Z) * state :=
  if pipe_fails w (n_pipes st) then (None, st)
  else
    let k := n_pipes st in
    let rd := lowest_free (fds st) in
    let t1 := <[rd := PipeRead k]> (fds st) in
    let wr := lowest_free t1 in
    let t2 := <[wr := PipeWrite k]> t1 in
    (Some (Z.of_nat rd, Z.of_nat wr),
     emit (EPipe k (Z.of_nat rd) (Z.of_nat wr))
       {| stdin := stdin st; fds := t2; n_pipes := S k; n_forks := n_forks st;
          n_waits := n_waits st; children := children st; workers := workers st;
          log := log st |}).

(** [close(fd)] in the shell. *)
Definition do_close (fd : Z) (st : state) : state :=
  emit (EClose fd) (set_fds (sys_close (fds st) fd) st).

(** The text of the [printf] calls among the events. *)
Definition printed (evs : list event) : list ascii :=
  flat_map (fun e => match e with EPrintf s => lit s | _ => [] end) evs.

Definition prompts (evs : list event) : nat :=
  length (omap (fun e => match e with EPrintf s => Some s | _ => None end) evs).

(** What the library holds for the shell: the last characters printed,
    and a beginning of the input still to be read. *)
Definition shell_buffers (w : world) (st : state) : buffers :=
  let text := printed (log st) in
  let n := prompts (log st) in
  {| out_held := drop (length text - stdout_held w n) text;
     in_ahead := Nat.min (stdin_ahead w n) (length (stdin st)) |}.

(** [execvp(args[0], args)] and the two lines after it. *)
Definition verdict (w : world) (pid : nat) (args : list cstring) : child_end :=
  match args with
  | [] => NoProgram
  | _ :: _ => if exec_fails w pid args then ChildExit "execvp" 1 else ImageReplaced
  end.

(** [exit] in a child: the library writes what the copy of the buffer of
    [stdout] holds to descriptor 1, and, where the copy of the buffer of
    [stdin] holds characters not yet returned, moves the offset of the
    file at descriptor 0 back by their number, if that file lets it (a
    pipe does not). The offset is that of the shell's descriptor too. *)
Definition exit_flush (t : gmap nat file) (b : buffers) : option (file * list ascii) :=
  match out_held b, t !! 1%nat with
  | _ :: _, Some f => Some (f, out_held b)
  | _, _ => None
  end.

Definition exit_seek (w : world) (t : gmap nat file) (b : buffers) : option nat :=
  match t !! 0%nat with
  | Some (Inherited fd) =>
      if seekable w fd && (0 <? in_ahead b)%nat then Some (in_ahead b) else None
  | _ => None
  end.

(** The branch [pid == 0] of [main]: what the child does with the copy of
    the shell's descriptors [t], buffers [b] and variables it starts
    with. *)
Definition child (w : world) (pid : nat) (i num_cmds prev_fd : Z) (pipefd : Z * Z)
    (t : gmap nat file) (b : buffers) (cmd : cstring) : worker :=
  let t1 :=
    if negb (prev_fd =? -1)
    then sys_close (sys_dup2 t prev_fd STDIN_FILENO) prev_fd
    else t in
  let t2 :=
    if i <? num_cmds - 1
    then sys_close (sys_close (sys_dup2 t1 (snd pipefd) STDOUT_FILENO) (fst pipefd))
           (snd pipefd)
    else t1 in
  let args := parse_args cmd in
  let e := verdict w pid args in
  let exits := match e with ChildExit _ _ => true | _ => false end in
  {| w_pid := pid; w_stage := i; w_inherited := t; w_fds := t2; w_args := args;
     w_end := e;
     w_flush := if exits then exit_flush t2 b else None;
     w_seek := if exits then exit_seek w t2 b else None |}.

(** A successful [fork] as the shell sees it: one more child, [ch]. *)
Definition add_child (ch : worker) (st : state) : state :=
  emit (EFork (w_pid ch))
    {| stdin := stdin st; fds := fds st; n_pipes := n_pipes st;
       n_forks := S (n_forks st); n_waits := n_waits st;
       children := children st ++ [w_pid ch]; workers := workers st ++ [ch];
       log := log st |}.

(** [wait(NULL)]: with no child it fails at once; otherwise it returns when
    a child has terminated, the one the world picks, whatever its status. *)
Definition do_wait (w : world) (st : state) : state :=
  match children st with
  | [] =>
      emit (EWait (-1))
        {| stdin := stdin st; fds := fds st; n_pipes := n_pipes st;
           n_forks := n_forks st; n_waits := S (n_waits st);
           children := []; workers := workers st; log := log st |}
  | _ :: _ =>
      let j := (wait_pick w (n_waits st) mod length (children st))%nat in
      let pid := nth j (children st) O in
      emit (EWait (Z.of_nat pid))
        {| stdin := stdin st; fds := fds st; n_pipes := n_pipes st;
           n_forks := n_forks st; n_waits := S (n_waits st);
           children := delete j (children st); workers := workers st;
           log := log st |}
  end.

(** ** main *)

(** How a part of [main] ends: it falls through, or [exit] was called. *)
Inductive flow :=
| Next
| Exit (status : Z).

(** How [main] ends. *)
Inductive termination :=
| Return (v : Z)
| ExitCall (status : Z).

(** The loop [for (int i = 0; i < num_cmds; ++i)] that builds the pipeline,
    as the shell runs it; [cmds] is the array [cmds] from index [i] on, so
    the test [i < num_cmds] is whether it is empty. *)
Fixpoint spawn_loop (w : world) (cmds : list cstring) (i num_cmds prev_fd : Z)
    (pipefd : Z * Z) (st : state) : flow * state :=
  match cmds with
  | [] => (Next, st)
  | cmd :: cmds' =>
      let '(pipe_failed, pipefd, st) :=
        if i <? num_cmds - 1 then
          match do_pipe w st with
          | (Some fresh, st') => (false, fresh, st')
          | (None, st') => (true, pipefd, st')
          end
        else (false, pipefd, st) in
      if pipe_failed then (Exit 1, emit (EPerror "pipe") st)
      else if fork_fails w (n_forks st) then (Exit 1, emit (EPerror "fork") st)
      else
        let pid := S (n_forks st) in
        let st :=
          add_child (child w pid i num_cmds prev_fd pipefd (fds st)
                       (shell_buffers w st) cmd) st in
        let st := if negb (prev_fd =? -1) then do_close prev_fd st else st in
        if i <? num_cmds - 1
        then spawn_loop w cmds' (i + 1) num_cmds (fst pipefd) pipefd
               (do_close (snd pipefd) st)
        else spawn_loop w cmds' (i + 1) num_cmds prev_fd pipefd st
  end.

(** [for (int i = 0; i < num_cmds; ++i) wait(NULL);] *)
Fixpoint wait_loop (w : world) (n : nat) (st : state) : state :=
  match n with
  | O => st
  | S n' => wait_loop w n' (do_wait w st)
  end.

(** [int pipefd[2];] is not initialised; it is read only after a [pipe]
    call has filled it. *)
Definition pipefd_unset : Z * Z := (0, 0).

(** One turn of [while (1)] from "Split on pipes" on, for the line
    [input]. *)
Definition run_line (w : world) (input : cstring) (st : state) : flow * state :=
  let cmds := split_pipes input in
  let num_cmds := Z.of_nat (length cmds) in
  match spawn_loop w cmds 0 num_cmds (-1) pipefd_unset st with
  | (Exit status, st') => (Exit status, st')
  | (Next, st') => (Next, wait_loop w (length cmds) st')
  end.

(** [while (1)]: each turn that does not stop consumes input, so [fuel]
    above the length of the input is never used up ([main_loop_total]).
    [stdin st] is what the calls of [fgets] to come return, one after the
    other. On a terminal or a pipe that is the input as it was given;
    where descriptor 0 is a regular file whose offset a child has moved
    back ([w_seek]), characters are returned a second time, and they are
    in this sequence a second time. *)
Fixpoint main_loop (w : world) (fuel : nat) (st : state)
  : option (termination * state) :=
  match fuel with
  | O => None
  | S fuel' =>
      let st := emit (EPrintf "cmpsh> ") st in
      match fgets MAX_LINE (stdin st) with
      | None => Some (Return 0, st)
      | Some (buf, rest) =>
          let st := set_stdin rest st in
          let input := c_str buf in
          if strncmp input (lit "exit") 4 =? 0 then Some (Return 0, st)
          else
            match run_line w input st with
            | (Exit status, st') => Some (ExitCall status, st')
            | (Next, st') => main_loop w fuel' st'
            end
      end
  end.

(** The shell as started from a terminal or a script: the three standard
    descriptors open, no children. *)
Definition initial_state (input : list ascii) : state :=
  {| stdin := input;
     fds := {[ 0%nat := Inherited 0; 1%nat := Inherited 1; 2%nat := Inherited 2 ]};
     n_pipes := 0; n_forks := 0; n_waits := 0;
     children := []; workers := []; log := [] |}.

Definition main (w : world) (input : list ascii) : option (termination * state) :=
  main_loop w (S (length input)) (initial_state input).

(** A world in which nothing fails and children end in the order they were
    made. *)
Definition calm : world :=
  {| pipe_fails := fun _ => false; fork_fails := fun _ => false;
     exec_fails := fun _ _ => false; wait_pick := fun _ => O;
     stdout_held := fun _ => O; stdin_ahead := fun _ => O;
     seekable := fun _ => false |}.

(** A world where [execvp] fails in the child with the given pid only. *)
Definition exec_fails_for (pid : nat) : nat -> list cstring -> bool :=
  fun p _ => Nat.eqb p pid.

(** A world where the [n]-th [fork] fails. *)
Definition fork_fails_at (n : nat) : world :=
  {| pipe_fails := fun _ => false; fork_fails := Nat.eqb n;
     exec_fails := fun _ _ => false; wait_pick := fun _ => O;
     stdout_held := fun _ => O; stdin_ahead := fun _ => O;
     seekable := fun _ => false |}.

(** A world where the [n]-th [pipe] fails. *)
Definition pipe_fails_at (n : nat) : world :=
  {| pipe_fails := Nat.eqb n; fork_fails := fun _ => false;
     exec_fails := fun _ _ => false; wait_pick := fun _ => O;
     stdout_held := fun _ => O; stdin_ahead := fun _ => O;
     seekable := fun _ => false |}.

(** A shell that runs a script: its input is a regular file, which the
    library reads a block ahead, and the prompts it prints are held
    until it ends. *)
Definition script : world :=
  {| pipe_fails := fun _ => false; fork_fails := fun _ => false;
     exec_fails := fun _ _ => false; wait_pick := fun _ => O;
     stdout_held := fun n => (7 * n)%nat; stdin_ahead := fun _ => 4096%nat;
     seekable := fun _ => true |}.

(** ** Notions used to state the properties *)

(** The events of a completed pipeline construction, given the descriptor
    pairs [pipe] returned: per stage, the pipe towards the next stage (if
    any), the fork, the close of the previous read end (if any), the close
    of the new write end (if any). *)
Definition close_prev (prev_fd : Z) : list event :=
  if negb (prev_fd =? -1) then [EClose prev_fd] else [].

Fixpoint schedule (pipes : list (nat * nat)) (k pid : nat) (prev_fd : Z) : list event :=
  match pipes with
  | [] => EFork pid :: close_prev prev_fd
  | (rd, wr) :: pipes' =>
      EPipe k (Z.of_nat rd) (Z.of_nat wr) :: EFork pid :: close_prev prev_fd ++
      EClose (Z.of_nat wr) :: schedule pipes' (S k) (S pid) (Z.of_nat rd)
  end.

(** The descriptors of stage [i] of [N] when it calls [execvp], [T0] being
    the shell's table before the pipeline and [k] the number of the pipe
    between stages [i] and [i + 1]. *)
Definition stage_fds (T0 : gmap nat file) (N i : Z) (k : nat) : gmap nat file :=
  let t := if 0 <? i then <[0%nat := PipeRead (k - 1)]> T0 else T0 in
  if i <? N - 1 then <[1%nat := PipeWrite k]> t else t.

Fixpoint stage_workers (w : world) (T0 : gmap nat file) (N : Z)
    (cmds : list cstring) (i : Z) (k pid : nat) (ws : list worker) : Prop :=
  match cmds, ws with
  | [], [] => True
  | cmd :: cmds', wk :: ws' =>
      (w_pid wk = pid /\ w_stage wk = i /\ w_args wk = parse_args cmd /\
       (is_Some (T0 !! (0%nat)) -> is_Some (T0 !! (1%nat)) ->
        w_fds wk = stage_fds T0 N i k) /\
       w_end wk = verdict w pid (parse_args cmd)) /\
      stage_workers w T0 N cmds' (i + 1) (S k) (S pid) ws'
  | _, _ => False
  end.

(** The shell's table at the head of the construction loop: the table [T0]
    from before the pipeline, plus, after the first stage, the read end of
    the previous pipe under [prev_fd]. *)
Definition upstream (T0 : gmap nat file) (i prev_fd : Z) (np : nat)
    (t : gmap nat file) : Prop :=
  (i = 0 /\ prev_fd = -1 /\ t = T0) \/
  (0 < i /\ exists p : nat, prev_fd = Z.of_nat p /\ T0 !! p = None /\
            (1 <= np)%nat /\ t = <[p := PipeRead (np - 1)]> T0).

(** The children forked and the results of [wait] in a run of events. *)
Definition forked (evs : list event) : list nat :=
  omap (fun e => match e with EFork pid => Some pid | _ => None end) evs.

Definition waited (evs : list event) : list Z :=
  omap (fun e => match e with EWait r => Some r | _ => None end) evs.

Definition made_pipes (evs : list event) : list nat :=
  omap (fun e => match e with EPipe k _ _ => Some k | _ => None end) evs.

Definition reported (evs : list event) : list string :=
  omap (fun e => match e with EPerror msg => Some msg | _ => None end) evs.

(** [st'] comes from [st] by the events [evs], none of them a [wait]: the
    children forked in [evs] are added to those not yet waited for, and no
    input is read. *)
Definition grown (st st' : state) (evs : list event) : Prop :=
  log st' = log st ++ evs /\ waited evs = [] /\
  children st' = children st ++ forked evs /\
  n_waits st' = n_waits st /\ stdin st' = stdin st.

(** The states in which the shell is at the head of [while (1)] in a run
    on [input]: at the start, and after every line that neither stopped
    the loop nor ended in [exit]. *)
Inductive loop_head (w : world) (input : list ascii) : state -> Prop :=
| head_start : loop_head w input (initial_state input)
| head_next st buf rest st' :
    loop_head w input st ->
    fgets MAX_LINE (stdin st) = Some (buf, rest) ->
    strncmp (c_str buf) (lit "exit") 4 <> 0 ->
    run_line w (c_str buf) (set_stdin rest (emit (EPrintf "cmpsh> ") st)) = (Next, st') ->
    loop_head w input st'.

(** The same world with other answers for [execvp]. *)
Definition with_exec (w : world) (e : nat -> list cstring -> bool) : world :=
  {| pipe_fails := pipe_fails w; fork_fails := fork_fails w;
     exec_fails := e; wait_pick := wait_pick w;
     stdout_held := stdout_held w; stdin_ahead := stdin_ahead w;
     seekable := seekable w |}.

(** Whether one of the calls a pipeline of [n] stages makes fails: the
    [n - 1] calls of [pipe] from the [np]-th on, the [n] calls of [fork]
    from the [nf]-th on. *)
Definition trouble (w : world) (np nf n : nat) : bool :=
  existsb (pipe_fails w) (seq np (n - 1)) || existsb (fork_fails w) (seq nf n).

(** Every pipe end in the shell's table belongs to a pipe made so far. *)
Definition pipes_known (st : state) : Prop :=
  forall fd k,
    fds st !! fd = Some (PipeRead k) \/ fds st !! fd = Some (PipeWrite k) ->
    (k < n_pipes st)%nat.

(** ** Notions used for the further properties *)

(** The characters [trim] removes at the end of a string. *)
Definition is_ws (c : ascii) : bool := Ascii.eqb c SP || Ascii.eqb c LF.

(** Whether a character is one of the delimiters; [Forall (delimiter d)]
    is a run of delimiters, [Forall (plain d)] a string without any. *)
Definition delimiter (delim : cstring) (c : ascii) : Prop := strchr_in delim c = true.
Definition plain (delim : cstring) (c : ascii) : Prop := strchr_in delim c = false.

(** A word as [strtok] returns it whole: not empty, without a delimiter. *)
Definition word_of (delim : cstring) (w : cstring) : Prop :=
  w <> [] /\ Forall (plain delim) w.

(** A string without its delimiters. *)
Definition keep_plain (delim : cstring) (s : cstring) : cstring :=
  List.filter (fun c => negb (strchr_in delim c)) s.

(** A word of a command line: not empty, without space, pipe character
    or newline. *)
Definition typed_word (w : cstring) : Prop := word_of (lit " |" ++ [LF]) w.

(** Words with [sep] between them, as typed on a command line. *)
Fixpoint join (sep : cstring) (words : list cstring) : cstring :=
  match words with
  | [] => []
  | [w] => w
  | w :: words' => w ++ sep ++ join sep words'
  end.

(** The shell between two lines, as a whole run leaves it: no child
    unreaped, as many [wait] calls made as children forked, the children
    numbered in the order they were made, and every worker having called
    [execvp] with descriptors 0, 1 and 2 open and no other. *)
Definition settled (st : state) : Prop :=
  children st = [] /\ n_waits st = n_forks st /\
  map w_pid (workers st) = seq 1 (n_forks st) /\
  Forall (fun wk => forall fd, is_Some (w_fds wk !! fd) <-> (fd < 3)%nat) (workers st).

(** The line typed for a pipeline: the words of a stage with a space
    between them, the stages with " | " between them, and the newline. *)
Definition command_line (stages : list (list cstring)) : cstring :=
  join (lit " | ") (map (join (lit " ")) stages) ++ [LF].

(** What [exit] does in a worker forked with the buffers [b]: nothing
    unless the worker reaches it. *)
Definition leaves_with (w : world) (b : buffers) (wk : worker) : Prop :=
  match w_end wk with
  | ChildExit _ _ =>
      w_flush wk = exit_flush (w_fds wk) b /\ w_seek wk = exit_seek w (w_fds wk) b
  | _ => w_flush wk = None /\ w_seek wk = None
  end.

(** * A semaphore that orders two processes (src/examples/semaphores.c)

    After [fork] the program is two processes that share one System V
    semaphore. Each is a sequence of calls; a run is an interleaving of the
    two, given as the list of which process is let run next (a process that
    is blocked or has ended does nothing when it is chosen). An event is a
    call of [printf] or [perror]: with a terminal the text appears at the
    call, otherwise when the process ends. *)

Module Semaphores.

Inductive who := Parent | Child.

Inductive event :=
| Printf (p : who) (text : string)
| Perror (p : who) (msg : string).

(** Where a process is in its branch of [main]. *)
Inductive child_at := AtPrintA | AtUp | AtPrintB | ChildReturned | ChildExited.
Inductive parent_at := AtDown | AtPrintC | AtRemove | ParentReturned | ParentExited.

(** What can fail for reasons outside the program. *)
Record world := {
  semget_fails : bool;
  setval_fails : bool;
  fork_fails : bool;
  semop_fails : who -> bool;   (* a signal, no memory: by calling process *)
  rmid_fails : bool
}.

Definition SEMVMX : Z := 32767.

(** [semop(semid, &op, 1)] with [op = {0, sem_op, 0}] on a set whose
    semaphore 0 has the value [sem], [None] when the set has been removed:
    it fails on a removed set, waits while the value would go below zero
    (no IPC_NOWAIT), and fails when it would go above SEMVMX. *)
Inductive semop_result := SemDone (v : nat) | SemBlocks | SemError.

Definition semop (spoilt : bool) (sem : option nat) (sem_op : Z) : semop_result :=
  match sem with
  | None => SemError
  | Some v =>
      if spoilt then SemError
      else if Z.of_nat v + sem_op <? 0 then SemBlocks
      else if SEMVMX <? Z.of_nat v + sem_op then SemError
      else SemDone (Z.to_nat (Z.of_nat v + sem_op))
  end.

(** How a call of [down] or [up] ends for the process [p] that makes it. *)
Inductive call :=
| Returns (sem : option nat)
| Blocks
| Exits (msg : string) (status : Z).

Definition down (w : world) (p : who) (sem : option nat) : call :=
  match semop (semop_fails w p) sem (-1) with
  | SemError => Exits "down failed" 1
  | SemBlocks => Blocks
  | SemDone v => Returns (Some v)
  end.

Definition up (w : world) (p : who) (sem : option nat) : call :=
  match semop (semop_fails w p) sem 1 with
  | SemError => Exits "up failed" 1
  | SemBlocks => Blocks
  | SemDone v => Returns (Some v)
  end.

Definition nl : string := String (ascii_of_nat 10) EmptyString.
Definition text_A : string := "Child: A" ++ nl.
Definition text_B : string := "Child: B" ++ nl.
Definition text_C : string := "Parent: C" ++ nl.

(** The two processes and the semaphore they share. *)
Record state := {
  sem : option nat;
  parent : parent_at;
  child : child_at;
  out : list event
}.

(** The branch [pid == 0] of [main], one call at a time. *)
Definition child_step (w : world) (s : state) : option state :=
  match child s with
  | AtPrintA =>
      Some {| sem := sem s; parent := parent s; child := AtUp;
              out := out s ++ [Printf Child text_A] |}
  | AtUp =>
      match up w Child (sem s) with
      | Returns v =>
          Some {| sem := v; parent := parent s; child := AtPrintB; out := out s |}
      | Blocks => None
      | Exits msg _ =>
          Some {| sem := sem s; parent := parent s; child := ChildExited;
                  out := out s ++ [Perror Child msg] |}
      end
  | AtPrintB =>
      Some {| sem := sem s; parent := parent s; child := ChildReturned;
              out := out s ++ [Printf Child text_B] |}
  | ChildReturned | ChildExited => None
  end.

(** The other branch of [main]. [semctl(semid, 0, IPC_RMID)] removes the
    set; it fails on a set already removed. *)
Definition parent_step (w : world) (s : state) : option state :=
  match parent s with
  | AtDown =>
      match down w Parent (sem s) with
      | Returns v =>
          Some {| sem := v; parent := AtPrintC; child := child s; out := out s |}
      | Blocks => None
      | Exits msg _ =>
          Some {| sem := sem s; parent := ParentExited; child := child s;
                  out := out s ++ [Perror Parent msg] |}
      end
  | AtPrintC =>
      Some {| sem := sem s; parent := AtRemove; child := child s;
              out := out s ++ [Printf Parent text_C] |}
  | AtRemove =>
      match sem s with
      | Some _ =>
          if rmid_fails w
          then Some {| sem := sem s; parent := ParentExited; child := child s;
                       out := out s ++ [Perror Parent "Cleaning up (semctl) failed"] |}
          else Some {| sem := None; parent := ParentReturned; child := child s;
                       out := out s |}
      | None =>
          Some {| sem := None; parent := ParentExited; child := child s;
                  out := out s ++ [Perror Parent "Cleaning up (semctl) failed"] |}
      end
  | ParentReturned | ParentExited => None
  end.

Definition step (w : world) (p : who) (s : state) : option state :=
  match p with
  | Parent => parent_step w s
  | Child => child_step w s
  end.

Fixpoint run (w : world) (sched : list who) (s : state) : state :=
  match sched with
  | [] => s
  | p :: sched' =>
      run w sched' (match step w p s with Some s' => s' | None => s end)
  end.

(** After [semget], [semctl(SETVAL)] with value 0 and [fork]. *)
Definition forked : state :=
  {| sem := Some O; parent := AtDown; child := AtPrintA; out := [] |}.

(** [main]: it ends before there are two processes when one of the first
    three calls fails, with [perror] and [exit(1)]. *)
Inductive result :=
| StartFailed (msg : string) (status : Z)
| Ran (s : state).

Definition main (w : world) (sched : list who) : result :=
  if semget_fails w then StartFailed "semget failed" 1
  else if setval_fails w then StartFailed "semctl failed" 1
  else if fork_fails w then StartFailed "fork failed" 1
  else Ran (run w sched forked).

(** A world in which no call fails for a reason outside the program. *)
Definition sound (w : world) : Prop :=
  semop_fails w Parent = false /\ semop_fails w Child = false /\ rmid_fails w = false.

Definition quiet : world :=
  {| semget_fails := false; setval_fails := false; fork_fails := false;
     semop_fails := fun _ => false; rmid_fails := false |}.

(** What holds of the two processes however they are interleaved and
    whatever fails. *)
Record coupled (w : world) (s : state) : Prop := {
  printed_A : child s <> AtPrintA -> In (Printf Child text_A) (out s);
  raised : forall v, sem s = Some (S v) -> child s = AtPrintB \/ child s = ChildReturned;
  passed : parent s = AtPrintC \/ parent s = AtRemove \/ parent s = ParentReturned ->
           child s = AtPrintB \/ child s = ChildReturned;
  C_after_A : forall pre post, out s = pre ++ Printf Parent text_C :: post ->
              In (Printf Child text_A) pre;
  removed : sem s = None -> parent s = ParentReturned;
  binary : forall v, sem s = Some v -> (v <= 1)%nat;
  up_works : semop_fails w Child = false -> child s <> ChildExited
}.

(** The states of a run in which nothing fails for a reason outside the
    program: semaphore value, place of the parent, place of the child, and
    what has been printed. *)
Definition ev_A : event := Printf Child text_A.
Definition ev_B : event := Printf Child text_B.
Definition ev_C : event := Printf Parent text_C.

Definition at_ (v : option nat) (p : parent_at) (c : child_at) (o : list event) : state :=
  {| sem := v; parent := p; child := c; out := o |}.

Definition sound_states : list state :=
  [ at_ (Some 0%nat) AtDown AtPrintA [];
    at_ (Some 0%nat) AtDown AtUp [ev_A];
    at_ (Some 1%nat) AtDown AtPrintB [ev_A];
    at_ (Some 1%nat) AtDown ChildReturned [ev_A; ev_B];
    at_ (Some 0%nat) AtPrintC AtPrintB [ev_A];
    at_ (Some 0%nat) AtPrintC ChildReturned [ev_A; ev_B];
    at_ (Some 0%nat) AtRemove AtPrintB [ev_A; ev_C];
    at_ (Some 0%nat) AtRemove ChildReturned [ev_A; ev_B; ev_C];
    at_ (Some 0%nat) AtRemove ChildReturned [ev_A; ev_C; ev_B];
    at_ None ParentReturned AtPrintB [ev_A; ev_C];
    at_ None ParentReturned ChildReturned [ev_A; ev_B; ev_C];
    at_ None ParentReturned ChildReturned [ev_A; ev_C; ev_B] ].

(** Both processes have returned from [main]. *)
Definition finished (s : state) : Prop :=
  parent s = ParentReturned /\ child s = ChildReturned.

(** The child is given the processor until it has made its three calls,
    then the parent. *)
Definition child_then_parent : list who :=
  [Child; Child; Child; Parent; Parent; Parent].

(** A world in which only the child's [semop] fails. *)
Definition up_fails : world :=
  {| semget_fails := false; setval_fails := false; fork_fails := false;
     semop_fails := fun p => match p with Child => true | Parent => false end;
     rmid_fails := false |}.

(** What holds while the parent waits for a child whose [up] failed. *)
Definition waiting (s : state) : Prop :=
  parent s = AtDown /\ sem s = Some 0%nat /\ ~ In ev_C (out s) /\
  (child s = AtPrintA \/ child s = AtUp \/ child s = ChildExited).

End Semaphores.

(** * A message from child to parent (src/examples/message_queus.c)

    After [fork] the program is two processes that share one System V
    message queue, modelled like the two of the semaphore example. The
    queue is the list of the messages in it, oldest first. It is the queue
    of a key made by [ftok], so that it may exist, and hold messages,
    before the program runs; during the run no other process uses it. A
    [char] array is the list of its bytes. *)

Module MessageQueue.

Inductive who := Parent | Child.

(** [sizeof(msg.mtext)] *)
Definition MTEXT : nat := 70.

(** A message on the queue: its type and the bytes of its text. *)
Record message := { mtype : Z; mtext : list ascii }.

Inductive event :=
| Printf (p : who) (text : cstring)
| Perror (p : who) (msg : string).

(** What the program cannot decide itself: which calls fail, what the
    queue of the key holds when [msgget] returns it (nothing when the call
    created it; [IPC_CREAT] without [IPC_EXCL] also returns a queue that
    exists), whether a queue has room for [MTEXT] more bytes, and what
    the two [msg.mtext] arrays hold before they are written. *)
Record world := {
  ftok_fails : bool;
  msgget_fails : bool;
  fork_fails : bool;
  msgsnd_fails : bool;
  msgrcv_fails : bool;
  rmid_fails : bool;
  queue0 : list message;
  full : list message -> bool;
  child_stack : list ascii;
  parent_stack : list ascii
}.

(** [strcpy(dest, src)] into an array: the characters of [src] and a NUL,
    the bytes after them being left as they were. *)
Definition strcpy (dest : list ascii) (src : cstring) : list ascii :=
  src ++ NUL :: drop (S (length src)) dest.

(** [msgsnd(msqid, &msg, msgsz, 0)]: fails on a removed queue, waits
    while the queue is full (no IPC_NOWAIT), else puts the type and the
    first [msgsz] bytes of the text at the end of the queue. *)
Inductive snd_result := Sent (q : list message) | SndBlocks | SndError.

Definition msgsnd (w : world) (queue : option (list message))
    (type : Z) (text : list ascii) (msgsz : nat) : snd_result :=
  match queue with
  | None => SndError
  | Some q =>
      if msgsnd_fails w then SndError
      else if full w q then SndBlocks
      else Sent (q ++ [{| mtype := type; mtext := take msgsz text |}])
  end.

(** The first message of type [t] and the queue without it. *)
Fixpoint first_of_type (t : Z) (q : list message) : option (message * list message) :=
  match q with
  | [] => None
  | m :: q' =>
      if mtype m =? t then Some (m, q')
      else match first_of_type t q' with
           | Some (m', q'') => Some (m', m :: q'')
           | None => None
           end
  end.

(** [msgrcv(msqid, &msg, msgsz, msgtyp, 0)] with [msgtyp > 0]: fails on a
    removed queue, waits while the queue has no message of that type, and
    fails, leaving the message, when its text is longer than [msgsz] (no
    MSG_NOERROR); else it takes the message off the queue and returns its
    text. *)
Inductive rcv_result :=
| Received (text : list ascii) (q : list message)
| RcvBlocks
| RcvError.

Definition msgrcv (w : world) (queue : option (list message))
    (msgsz : nat) (msgtyp : Z) : rcv_result :=
  match queue with
  | None => RcvError
  | Some q =>
      if msgrcv_fails w then RcvError
      else match first_of_type msgtyp q with
           | None => RcvBlocks
           | Some (m, q') =>
               if (msgsz <? length (mtext m))%nat then RcvError
               else Received (mtext m) q'
           end
  end.

(** An array after [text] has been copied to its beginning. *)
Definition stored (text array : list ascii) : list ascii :=
  text ++ drop (length text) array.

(** [printf(format, array)] where [format] is [prefix], [%s] and a
    newline: defined when the array holds a NUL. *)
Definition terminated (array : list ascii) : bool :=
  existsb (Ascii.eqb NUL) array.

Definition printf_s (p : who) (prefix : string) (array : list ascii) : option event :=
  if terminated array then Some (Printf p (lit prefix ++ c_str array ++ [LF]))
  else None.

(** Where a process is in its branch of [main]; [Lost] after a [printf]
    that read past its array. *)
Inductive child_at := AtSend | AtPrintSent | ChildReturned | ChildExited | ChildLost.
Inductive parent_at :=
| AtReceive
| AtPrintReceived (array : list ascii)
| AtRemove
| ParentReturned
| ParentExited
| ParentLost.

(** The queue ([None] once removed) and the two processes. *)
Record state := {
  queue : option (list message);
  parent : parent_at;
  child : child_at;
  out : list event
}.

(** [msg.mtext] of the child after [strcpy]. *)
Definition child_text (w : world) : list ascii :=
  strcpy (child_stack w) (lit "Hello from child!").

(** The branch [pid == 0] of [main], one call at a time. *)
Definition child_step (w : world) (s : state) : option state :=
  match child s with
  | AtSend =>
      match msgsnd w (queue s) 1 (child_text w) MTEXT with
      | Sent q =>
          Some {| queue := Some q; parent := parent s; child := AtPrintSent;
                  out := out s |}
      | SndBlocks => None
      | SndError =>
          Some {| queue := queue s; parent := parent s; child := ChildExited;
                  out := out s ++ [Perror Child "msgsnd failed"] |}
      end
  | AtPrintSent =>
      match printf_s Child "Child sent: " (child_text w) with
      | Some e =>
          Some {| queue := queue s; parent := parent s; child := ChildReturned;
                  out := out s ++ [e] |}
      | None =>
          Some {| queue := queue s; parent := parent s; child := ChildLost;
                  out := out s |}
      end
  | ChildReturned | ChildExited | ChildLost => None
  end.

(** The other branch. [msgctl(msqid, IPC_RMID, NULL)] removes the queue
    with the messages still in it; it fails on a queue already removed. *)
Definition parent_step (w : world) (s : state) : option state :=
  match parent s with
  | AtReceive =>
      match msgrcv w (queue s) MTEXT 1 with
      | Received text q =>
          Some {| queue := Some q;
                  parent := AtPrintReceived (stored text (parent_stack w));
                  child := child s; out := out s |}
      | RcvBlocks => None
      | RcvError =>
          Some {| queue := queue s; parent := ParentExited; child := child s;
                  out := out s ++ [Perror Parent "msgrcv failed"] |}
      end
  | AtPrintReceived array =>
      match printf_s Parent "Parent received: " array with
      | Some e =>
          Some {| queue := queue s; parent := AtRemove; child := child s;
                  out := out s ++ [e] |}
      | None =>
          Some {| queue := queue s; parent := ParentLost; child := child s;
                  out := out s |}
      end
  | AtRemove =>
      match queue s with
      | Some _ =>
          if rmid_fails w
          then Some {| queue := queue s; parent := ParentExited; child := child s;
                       out := out s ++ [Perror Parent "Cleaning up (msgctl) failed"] |}
          else Some {| queue := None; parent := ParentReturned; child := child s;
                       out := out s |}
      | None =>
          Some {| queue := None; parent := ParentExited; child := child s;
                  out := out s ++ [Perror Parent "Cleaning up (msgctl) failed"] |}
      end
  | ParentReturned | ParentExited | ParentLost => None
  end.

Definition step (w : world) (p : who) (s : state) : option state :=
  match p with
  | Parent => parent_step w s
  | Child => child_step w s
  end.

Fixpoint run (w : world) (sched : list who) (s : state) : state :=
  match sched with
  | [] => s
  | p :: sched' =>
      run w sched' (match step w p s with Some s' => s' | None => s end)
  end.

(** After [ftok], [msgget] and [fork]. *)
Definition forked (w : world) : state :=
  {| queue := Some (queue0 w); parent := AtReceive; child := AtSend; out := [] |}.

Inductive result :=
| StartFailed (msg : string) (status : Z)
| Ran (s : state).

Definition main (w : world) (sched : list who) : result :=
  if ftok_fails w then StartFailed "ftok failed" 1
  else if msgget_fails w then StartFailed "msgget failed" 1
  else if fork_fails w then StartFailed "fork failed" 1
  else Ran (run w sched (forked w)).

(** ** Notions used to state the properties *)

(** The message the child sends. *)
Definition child_message (w : world) : message :=
  {| mtype := 1; mtext := take MTEXT (child_text w) |}.

(** The message the parent is given: the first of type 1 among those the
    queue held and the child's. *)
Definition first_message (w : world) : message :=
  match first_of_type 1 (queue0 w ++ [child_message w]) with
  | Some (m, _) => m
  | None => child_message w
  end.

Definition received_line (w : world) : cstring :=
  lit "Parent received: "
    ++ c_str (stored (mtext (first_message w)) (parent_stack w)) ++ [LF].

(** The queue held no message of type 1 (a new queue holds none). *)
Definition fresh (w : world) : Prop :=
  Forall (fun m => mtype m <> 1) (queue0 w).

(** No call fails for a reason outside the program, and the queue has
    room for the child's message. *)
Definition sound (w : world) : Prop :=
  msgsnd_fails w = false /\ msgrcv_fails w = false /\ rmid_fails w = false /\
  full w (queue0 w) = false.

Definition finished (s : state) : Prop :=
  parent s = ParentReturned /\ child s = ChildReturned.

Definition child_then_parent : list who :=
  [Child; Child; Parent; Parent; Parent].

Definition sent_line : event :=
  Printf Child (lit "Child sent: Hello from child!" ++ [LF]).
Definition hello_line : event :=
  Printf Parent (lit "Parent received: Hello from child!" ++ [LF]).

(** What holds of the two processes however they are interleaved and
    whatever fails. *)
Record coupled (w : world) (s : state) : Prop := {
  receiving :
    parent s = AtReceive ->
    queue s = Some (queue0 w) \/ queue s = Some (queue0 w ++ [child_message w]);
  unsent :
    parent s = AtReceive -> child s = AtSend \/ child s = ChildExited ->
    queue s = Some (queue0 w);
  holding :
    forall array, parent s = AtPrintReceived array ->
    array = stored (mtext (first_message w)) (parent_stack w);
  printed :
    forall t, In (Printf Parent t) (out s) -> t = received_line w;
  removed : queue s = None -> parent s = ParentReturned;
  parent_lost :
    parent s = ParentLost ->
    terminated (stored (mtext (first_message w)) (parent_stack w)) = false;
  child_found : child s <> ChildLost
}.

(** What holds as long as the child has sent nothing, when the queue
    held no message of type 1. *)
Definition silent (w : world) (s : state) : Prop :=
  child s = AtSend \/ child s = ChildExited ->
  (parent s = AtReceive \/ parent s = ParentExited) /\
  queue s = Some (queue0 w) /\
  forall t, ~ In (Printf Parent t) (out s).

(** The states of a run in which nothing fails for a reason outside the
    program, on a queue that held no message of type 1. *)
Definition at_ (q : option (list message)) (p : parent_at) (c : child_at)
    (o : list event) : state :=
  {| queue := q; parent := p; child := c; out := o |}.

Definition sound_states (w : world) : list state :=
  let q0 := queue0 w in
  let q1 := queue0 w ++ [child_message w] in
  let got := AtPrintReceived (stored (mtext (child_message w)) (parent_stack w)) in
  [ at_ (Some q0) AtReceive AtSend [];
    at_ (Some q1) AtReceive AtPrintSent [];
    at_ (Some q1) AtReceive ChildReturned [sent_line];
    at_ (Some q0) got AtPrintSent [];
    at_ (Some q0) got ChildReturned [sent_line];
    at_ (Some q0) AtRemove AtPrintSent [hello_line];
    at_ (Some q0) AtRemove ChildReturned [sent_line; hello_line];
    at_ (Some q0) AtRemove ChildReturned [hello_line; sent_line];
    at_ None ParentReturned AtPrintSent [hello_line];
    at_ None ParentReturned ChildReturned [sent_line; hello_line];
    at_ None ParentReturned ChildReturned [hello_line; sent_line] ].

(** A world in which no call fails, with a new queue. *)
Definition quiet : world :=
  {| ftok_fails := false; msgget_fails := false; fork_fails := false;
     msgsnd_fails := false; msgrcv_fails := false; rmid_fails := false;
     queue0 := []; full := fun _ => false;
     child_stack := repeat "x"%char MTEXT;
     parent_stack := repeat "y"%char MTEXT |}.

(** The same with a queue left by an earlier run. *)
Definition leftover : world :=
  {| ftok_fails := false; msgget_fails := false; fork_fails := false;
     msgsnd_fails := false; msgrcv_fails := false; rmid_fails := false;
     queue0 := [ {| mtype := 2; mtext := lit "other" |};
                 {| mtype := 1; mtext := lit "old" ++ [NUL] |} ];
     full := fun _ => false;
     child_stack := repeat "x"%char MTEXT;
     parent_stack := repeat "y"%char MTEXT |}.

End MessageQueue.

Example split_ex1 :
  split_pipes (lit "echo hello | tr a-z A-Z" ++ [LF]) = [lit "echo hello"; lit "tr a-z A-Z"].
Proof. reflexivity. Qed.

Example split_ex2 :
  split_pipes (lit "ls | | wc" ++ [LF]) = [lit "ls"; []; lit "wc"].
Proof. reflexivity. Qed.

Example split_ex3 : split_pipes [LF] = [[LF]].
Proof. reflexivity. Qed.

Example trim_ex1 : trim (lit "  ls -l  " ++ [LF]) = lit "ls -l".
Proof. reflexivity. Qed.

Example trim_ex2 : trim (lit "   " ++ [LF]) = [LF].
Proof. reflexivity. Qed.

Example trim_ex3 : trim (lit "x" ++ [LF; LF]) = lit "x".
Proof. reflexivity. Qed.

Example strtok_ex1 :
  strtok (lit "||a|b") (lit "|") = (Some (lit "a"), lit "b").
Proof. reflexivity. Qed.

Example fgets_ex1 :
  fgets MAX_LINE (lit "ls" ++ [LF] ++ lit "wc") = Some (lit "ls" ++ [LF], lit "wc").
Proof. reflexivity. Qed.

Example parse_ex1 : parse_args (lit "tr  a-z A-Z") = [lit "tr"; lit "a-z"; lit "A-Z"].
Proof. reflexivity. Qed.

(** ** The tokenizer *)

Section Tokenizer.

Lemma strtok_shorter s delim tok save :
  strtok s delim = (Some tok, save) -> (length save < length s)%nat.
Proof.
  unfold strtok. intros H.
  destruct (drop (strspn s delim) s) as [|c s1] eqn:E; [discriminate|].
  injection H as _ <-.
  assert (length (c :: s1) <= length s)%nat as Hle.
  { rewrite <- E, length_drop. lia. }
  rewrite length_drop. simpl in *. lia.
Qed.

Lemma strspn_all s delim :
  Forall (fun c => strchr_in delim c = true) s -> strspn s delim = length s.
Proof.
  induction 1 as [|c s Hc _ IH]; simpl; [reflexivity|].
  rewrite Hc, IH. reflexivity.
Qed.

Lemma strspn_drop s delim c s1 :
  drop (strspn s delim) s = c :: s1 -> strchr_in delim c = false.
Proof.
  induction s as [|a s IH]; simpl; [discriminate|].
  destruct (strchr_in delim a) eqn:Ha; simpl.
  - exact IH.
  - intros [= <- _]. exact Ha.
Qed.

(** [strtok] finds no token exactly when the string has delimiters
    only. *)
Lemma strtok_none s delim :
  fst (strtok s delim) = None <-> Forall (fun c => strchr_in delim c = true) s.
Proof.
  unfold strtok. split.
  - induction s as [|a s IH]; simpl; [constructor|].
    destruct (strchr_in delim a) eqn:Ha; simpl.
    + intros H. constructor; [exact Ha | exact (IH H)].
    + discriminate.
  - intros H. rewrite (strspn_all _ _ H), drop_all. reflexivity.
Qed.

Lemma all_tokens_fuel delim fuel1 : forall fuel2 s,
  (length s < fuel1)%nat -> (length s < fuel2)%nat ->
  all_tokens fuel1 s delim = all_tokens fuel2 s delim.
Proof.
  induction fuel1 as [|f1 IH]; intros [|f2] s H1 H2; try lia.
  simpl. destruct (strtok s delim) as [[tok|] save] eqn:E; [|reflexivity].
  apply strtok_shorter in E. f_equal. apply IH; lia.
Qed.

Lemma tokens_unfold s delim :
  tokens s delim =
  match strtok s delim with
  | (Some tok, save) => tok :: tokens save delim
  | (None, _) => []
  end.
Proof.
  unfold tokens at 1. simpl.
  destruct (strtok s delim) as [[tok|] save] eqn:E; [|reflexivity].
  apply strtok_shorter in E. f_equal. apply all_tokens_fuel; lia.
Qed.

Lemma split_loop_tokens cap : forall s,
  (let '(token, save) := strtok s (lit "|") in split_loop cap token save)
  = map trim (take cap (tokens s (lit "|"))).
Proof.
  induction cap as [|cap IH]; intros s; rewrite tokens_unfold.
  - destruct (strtok s (lit "|")) as [[tok|] save]; reflexivity.
  - destruct (strtok s (lit "|")) as [[tok|] save]; [|reflexivity].
    cbn [split_loop take map]. specialize (IH save).
    destruct (strtok save (lit "|")) as [token' save']. rewrite IH. reflexivity.
Qed.

Lemma parse_loop_tokens cap : forall s,
  (let '(token, save) := strtok s (lit " ") in parse_args_loop cap token save)
  = take cap (tokens s (lit " ")).
Proof.
  induction cap as [|cap IH]; intros s; rewrite tokens_unfold.
  - destruct (strtok s (lit " ")) as [[tok|] save]; reflexivity.
  - destruct (strtok s (lit " ")) as [[tok|] save]; [|reflexivity].
    cbn [parse_args_loop take]. specialize (IH save).
    destruct (strtok save (lit " ")) as [token' save']. rewrite IH. reflexivity.
Qed.

(** The two bounded loops keep the first tokens and drop the rest. *)
Lemma split_pipes_tokens input :
  split_pipes input = map trim (take MAX_CMDS (tokens input (lit "|"))).
Proof. exact (split_loop_tokens MAX_CMDS input). Qed.

Lemma parse_args_tokens cmd :
  parse_args cmd = take (MAX_ARGS - 1) (tokens cmd (lit " ")).
Proof. exact (parse_loop_tokens (MAX_ARGS - 1) cmd). Qed.

Lemma split_pipes_length input :
  length (split_pipes input) = (length (tokens input (lit "|")) `min` MAX_CMDS)%nat.
Proof. rewrite split_pipes_tokens, length_map, length_take. lia. Qed.


Lemma skip_spaces_all s : Forall (fun c => c = SP) s -> skip_spaces s = [].
Proof. induction 1 as [|c s -> _ IH]; simpl; [reflexivity | exact IH]. Qed.


Lemma parse_args_nil : parse_args [] = [].
Proof. reflexivity. Qed.

End Tokenizer.

(** ** Descriptor tables *)

Section Descriptors.

Implicit Types t : gmap nat file.

Lemma lowest_from_free t fuel : forall n,
  (forall m, (m < n)%nat -> is_Some (t !! m)) ->
  (size t <= n + fuel)%nat ->
  t !! lowest_from t fuel n = None.
Proof.
  induction fuel as [|fuel IH]; intros n Hocc Hsz; simpl.
  - destruct (t !! n) eqn:E; [|reflexivity]. exfalso.
    assert ((set_seq 0 (S n) : gset nat) ⊆ dom t) as Hsub.
    { intros m Hm. apply elem_of_set_seq in Hm. apply elem_of_dom.
      destruct (decide (m = n)) as [->|Hne]; [eauto|]. apply Hocc. lia. }
    apply subseteq_size in Hsub. rewrite size_set_seq, size_dom in Hsub. lia.
  - destruct (t !! n) eqn:E; [|exact E]. apply IH; [|lia].
    intros m Hm. destruct (decide (m = n)) as [->|Hne]; [eauto|]. apply Hocc. lia.
Qed.

(** [pipe] never hands out a descriptor that is in use. *)
Lemma lowest_free_free t : t !! lowest_free t = None.
Proof. apply lowest_from_free; [intros m Hm; lia | lia]. Qed.

Lemma sys_close_nat t (n : nat) : sys_close t (Z.of_nat n) = delete n t.
Proof.
  unfold sys_close. destruct (Z.ltb_spec (Z.of_nat n) 0); [lia|].
  rewrite Nat2Z.id. reflexivity.
Qed.

Lemma sys_dup2_nat t (old new : nat) f :
  t !! old = Some f -> sys_dup2 t (Z.of_nat old) (Z.of_nat new) = <[new := f]> t.
Proof.
  intros H. unfold sys_dup2, fd_lookup.
  destruct (Z.ltb_spec (Z.of_nat old) 0); [lia|].
  rewrite Nat2Z.id, H.
  destruct (Z.ltb_spec (Z.of_nat new) 0); [lia|].
  rewrite Nat2Z.id. reflexivity.
Qed.

Lemma not_unset (n : nat) : negb (Z.of_nat n =? -1) = true.
Proof. destruct (Z.eqb_spec (Z.of_nat n) (-1)); [lia | reflexivity]. Qed.

End Descriptors.

(** What a successful [pipe] does to the shell. *)
Lemma do_pipe_some w st pipefd st' :
  do_pipe w st = (Some pipefd, st') ->
  exists rd wr : nat,
    pipefd = (Z.of_nat rd, Z.of_nat wr) /\
    fds st !! rd = None /\ fds st !! wr = None /\ rd <> wr /\
    fds st' = <[wr := PipeWrite (n_pipes st)]> (<[rd := PipeRead (n_pipes st)]> (fds st)) /\
    n_pipes st' = S (n_pipes st) /\
    n_forks st' = n_forks st /\ n_waits st' = n_waits st /\ stdin st' = stdin st /\
    children st' = children st /\ workers st' = workers st /\
    log st' = log st ++ [EPipe (n_pipes st) (Z.of_nat rd) (Z.of_nat wr)] /\
    pipe_fails w (n_pipes st) = false.
Proof.
  unfold do_pipe. destruct (pipe_fails w (n_pipes st)); [discriminate|].
  intros [= <- <-].
  set (rd := lowest_free (fds st)).
  set (wr := lowest_free (<[rd := PipeRead (n_pipes st)]> (fds st))).
  exists rd, wr.
  pose proof (lowest_free_free (fds st)) as Hrd. fold rd in Hrd.
  pose proof (lowest_free_free (<[rd := PipeRead (n_pipes st)]> (fds st))) as Hwr.
  fold wr in Hwr.
  assert (rd <> wr) as Hne.
  { intros Heq. rewrite <- Heq, lookup_insert_eq in Hwr. discriminate. }
  rewrite lookup_insert_ne in Hwr by exact Hne.
  simpl. repeat split; assumption || reflexivity.
Qed.

Lemma do_pipe_none w st st' :
  do_pipe w st = (None, st') -> st' = st /\ pipe_fails w (n_pipes st) = true.
Proof.
  unfold do_pipe. destruct (pipe_fails w (n_pipes st)); [|discriminate].
  intros [= <-]. split; reflexivity.
Qed.

(** ** Building a pipeline *)

Ltac same_table :=
  apply map_eq; intros ?;
  repeat (rewrite lookup_insert || rewrite lookup_delete);
  repeat case_decide; subst; simplify_eq; try congruence; try reflexivity.

Lemma child_pid w pid i N prev pf t b cmd :
  w_pid (child w pid i N prev pf t b cmd) = pid.
Proof. reflexivity. Qed.

Ltac fields :=
  cbn [do_close add_child emit set_fds set_stdin
       fds log n_pipes n_forks n_waits stdin children workers
       schedule close_prev];
  unfold close_prev; rewrite ?child_pid.

Section Builder.

Variable w : world.

(** The descriptors a stage ends up with: the shell's own, with 0 and 1
    replaced as the stage's place in the pipeline asks, and none of the
    pipe descriptors it inherited. *)
Lemma child_fds pid i N prev pf (T0 tu t : gmap nat file) (np : nat) b cmd :
  is_Some (T0 !! (0%nat)) -> is_Some (T0 !! (1%nat)) ->
  upstream T0 i prev np tu ->
  (if i <? N - 1
   then exists rd wr : nat,
       pf = (Z.of_nat rd, Z.of_nat wr) /\ tu !! rd = None /\ tu !! wr = None /\
       rd <> wr /\ t = <[wr := PipeWrite np]> (<[rd := PipeRead np]> tu)
   else t = tu) ->
  w_fds (child w pid i N prev pf t b cmd) = stage_fds T0 N i np.
Proof.
  intros [f0 H0] [f1 H1] Hup Ht. unfold child, stage_fds. cbn [w_fds].
  destruct Hup as [(-> & -> & ->) | (Hi & p & -> & Hp & Hnp & ->)].
  - change (negb (-1 =? -1)) with false. change (0 <? 0) with false. cbv iota.
    destruct (0 <? N - 1).
    + destruct Ht as (rd & wr & -> & Hrd & Hwr & Hne & ->). cbn [fst snd].
      unfold STDOUT_FILENO. change 1 with (Z.of_nat 1).
      rewrite (sys_dup2_nat _ wr 1%nat (PipeWrite np)) by apply lookup_insert_eq.
      rewrite !sys_close_nat. same_table.
    + subst t. reflexivity.
  - rewrite not_unset. apply Z.ltb_lt in Hi. rewrite Hi.
    destruct (i <? N - 1).
    + destruct Ht as (rd & wr & -> & Hrd & Hwr & Hne & ->). cbn [fst snd].
      unfold STDIN_FILENO, STDOUT_FILENO.
      change 1 with (Z.of_nat 1). change 0 with (Z.of_nat 0).
      assert (p <> rd) as Hprd.
      { intros ->. rewrite lookup_insert_eq in Hrd. discriminate. }
      assert (p <> wr) as Hpwr.
      { intros ->. rewrite lookup_insert_eq in Hwr. discriminate. }
      rewrite lookup_insert_ne in Hrd, Hwr by assumption.
      rewrite (sys_dup2_nat _ p 0%nat (PipeRead (np - 1))).
      2:{ rewrite !lookup_insert_ne by congruence. apply lookup_insert_eq. }
      rewrite !sys_close_nat.
      rewrite (sys_dup2_nat _ wr 1%nat (PipeWrite np)).
      2:{ rewrite lookup_delete_ne, lookup_insert_ne by congruence.
          apply lookup_insert_eq. }
      same_table.
    + subst t. unfold STDIN_FILENO. change 0 with (Z.of_nat 0).
      rewrite (sys_dup2_nat _ p 0%nat (PipeRead (np - 1))) by apply lookup_insert_eq.
      rewrite sys_close_nat. same_table.
Qed.

Lemma spawn_loop_cons cmd cmds' i N prev pf st :
  spawn_loop w (cmd :: cmds') i N prev pf st =
  let '(pipe_failed, pipefd, st) :=
    if i <? N - 1 then
      match do_pipe w st with
      | (Some fresh, st') => (false, fresh, st')
      | (None, st') => (true, pf, st')
      end
    else (false, pf, st) in
  if pipe_failed then (Exit 1, emit (EPerror "pipe") st)
  else if fork_fails w (n_forks st) then (Exit 1, emit (EPerror "fork") st)
  else
    let pid := S (n_forks st) in
    let st :=
      add_child (child w pid i N prev pipefd (fds st) (shell_buffers w st) cmd) st in
    let st := if negb (prev =? -1) then do_close prev st else st in
    if i <? N - 1
    then spawn_loop w cmds' (i + 1) N (fst pipefd) pipefd (do_close (snd pipefd) st)
    else spawn_loop w cmds' (i + 1) N prev pipefd st.
Proof. reflexivity. Qed.

(** A construction loop that runs to its end. *)
Lemma spawn_loop_next T0 N : forall cmds' cmd i prev pf st st',
  N = i + Z.of_nat (S (length cmds')) ->
  upstream T0 i prev (n_pipes st) (fds st) ->
  spawn_loop w (cmd :: cmds') i N prev pf st = (Next, st') ->
  exists pipes ws,
    length pipes = length cmds' /\
    fds st' = T0 /\
    n_pipes st' = (n_pipes st + length cmds')%nat /\
    n_forks st' = (n_forks st + S (length cmds'))%nat /\
    n_waits st' = n_waits st /\ stdin st' = stdin st /\
    children st' = children st ++ seq (S (n_forks st)) (S (length cmds')) /\
    workers st' = workers st ++ ws /\ length ws = S (length cmds') /\
    log st' = log st ++ schedule pipes (n_pipes st) (S (n_forks st)) prev /\
    stage_workers w T0 N (cmd :: cmds') i (n_pipes st) (S (n_forks st)) ws.
Proof.
  induction cmds' as [|c2 cs IH]; intros cmd i prev pf st st' HN Hup H.
  - cbn [spawn_loop] in H.
    assert ((i <? N - 1) = false) as Hlast by (apply Z.ltb_ge; simpl in HN; lia).
    rewrite Hlast in H.
    destruct (fork_fails w (n_forks st)) eqn:Hfork; [discriminate|].
    exists [], [child w (S (n_forks st)) i N prev pf (fds st) (shell_buffers w st) cmd].
    assert (fds st' = T0 /\ log st' = log st ++ schedule [] (n_pipes st) (S (n_forks st)) prev /\
            n_pipes st' = n_pipes st /\ n_forks st' = S (n_forks st) /\
            n_waits st' = n_waits st /\ stdin st' = stdin st /\
            children st' = children st ++ [S (n_forks st)] /\
            workers st' = workers st ++
              [child w (S (n_forks st)) i N prev pf (fds st) (shell_buffers w st) cmd])
      as (? & ? & ? & ? & ? & ? & ? & ?).
    { destruct Hup as [(-> & -> & Ht) | (Hi & p & -> & Hp & Hnp & Ht)].
      - change (negb (-1 =? -1)) with false in H. cbv iota in H.
        injection H as <-. fields.
        repeat split; assumption || reflexivity.
      - rewrite not_unset in H. injection H as <-. fields.
        rewrite not_unset, sys_close_nat, Ht, delete_insert_eq, delete_id by exact Hp.
        rewrite <- !app_assoc. repeat split; reflexivity. }
    repeat split; try assumption; try lia.
    intros Hs0 Hs1.
    apply (child_fds _ _ _ _ _ T0 (fds st)); try assumption.
    rewrite Hlast. reflexivity.
  - rewrite spawn_loop_cons in H.
    assert ((i <? N - 1) = true) as Hmid by (apply Z.ltb_lt; simpl in HN; lia).
    rewrite Hmid in H.
    destruct (do_pipe w st) as [[fresh|] st1] eqn:Hpipe; [|discriminate].
    apply do_pipe_some in Hpipe.
    destruct Hpipe as (rd & wr & -> & Hrd & Hwr & Hne & Hfds1 & Hnp1 & Hnf1 & Hnw1 &
                       Hin1 & Hch1 & Hwk1 & Hlog1 & _).
    destruct (fork_fails w (n_forks st1)) eqn:Hfork; [discriminate|].
    cbv zeta in H. cbn [fst snd] in H.
    set (ch := child w (S (n_forks st1)) i N prev (Z.of_nat rd, Z.of_nat wr) (fds st1)
                 (shell_buffers w st1) cmd) in *.
    set (st2 := do_close (Z.of_nat wr)
                  (if negb (prev =? -1) then do_close prev (add_child ch st1)
                   else add_child ch st1)) in *.
    assert (fds st2 = <[rd := PipeRead (n_pipes st)]> T0 /\ T0 !! rd = None /\
            log st2 = log st ++ EPipe (n_pipes st) (Z.of_nat rd) (Z.of_nat wr)
                        :: EFork (S (n_forks st)) :: close_prev prev ++ [EClose (Z.of_nat wr)] /\
            n_pipes st2 = S (n_pipes st) /\ n_forks st2 = S (n_forks st) /\
            n_waits st2 = n_waits st /\ stdin st2 = stdin st /\
            children st2 = children st ++ [S (n_forks st)] /\
            workers st2 = workers st ++ [ch])
      as (Hfds2 & Hrd0 & Hlog2 & Hnp2 & Hnf2 & Hnw2 & Hin2 & Hch2 & Hwk2).
    { subst st2. destruct Hup as [(-> & -> & Ht) | (Hi & p & -> & Hp & Hnp & Ht)].
      - change (negb (-1 =? -1)) with false. cbv iota. fields.
        change (negb (-1 =? -1)) with false. cbv iota.
        change (w_pid ch) with (S (n_forks st1)).
        rewrite sys_close_nat, Hfds1, Hlog1, Hnp1, Hnf1, Hnw1, Hin1, Hch1, Hwk1.
        rewrite delete_insert_eq, delete_id, Ht
          by (rewrite lookup_insert_ne by congruence; exact Hwr).
        rewrite Ht in Hrd. rewrite <- !app_assoc.
        repeat split; assumption || reflexivity.
      - rewrite not_unset. fields. rewrite not_unset.
        change (w_pid ch) with (S (n_forks st1)).
        rewrite !sys_close_nat, Hfds1, Hlog1, Hnp1, Hnf1, Hnw1, Hin1, Hch1, Hwk1.
        rewrite Ht in Hrd, Hwr |- *.
        assert (p <> rd) as Hprd.
        { intros ->. rewrite lookup_insert_eq in Hrd. discriminate. }
        assert (p <> wr) as Hpwr.
        { intros ->. rewrite lookup_insert_eq in Hwr. discriminate. }
        rewrite lookup_insert_ne in Hrd, Hwr by assumption.
        rewrite <- !app_assoc.
        repeat split; try assumption; try reflexivity.
        same_table. }
    destruct (IH c2 (i + 1) (Z.of_nat rd) (Z.of_nat rd, Z.of_nat wr) st2 st')
      as (pipes & ws & Hlen & Hfds' & Hnp' & Hnf' & Hnw' & Hin' & Hch' & Hwk' & Hlws &
          Hlog' & Hws').
    { simpl in HN |- *. lia. }
    { right. split; [destruct Hup as [(-> & _)|(? & _)]; lia|].
      exists rd. rewrite Hnp2. repeat split; try assumption; try lia.
      rewrite Hfds2. f_equal. f_equal. lia. }
    { exact H. }
    exists ((rd, wr) :: pipes), (ch :: ws).
    rewrite Hfds', Hnp', Hnf', Hnw', Hin', Hch', Hwk', Hlog'.
    rewrite Hnp2, Hnf2, Hnw2, Hin2, Hch2, Hwk2, Hlog2.
    cbn [schedule length].
    split; [lia|]. split; [reflexivity|]. split; [lia|]. split; [lia|].
    split; [reflexivity|]. split; [reflexivity|].
    split; [rewrite <- app_assoc; reflexivity|].
    split; [rewrite <- app_assoc; reflexivity|].
    split; [simpl; lia|].
    split.
    { rewrite <- !app_assoc. cbn [app]. rewrite <- app_assoc. reflexivity. }
    cbn [stage_workers]. split.
    + split; [change (w_pid ch) with (S (n_forks st1)); congruence|].
      split; [reflexivity|]. split; [reflexivity|].
      split.
      * intros Hs0 Hs1.
        apply (child_fds _ _ _ _ _ T0 (fds st)); try assumption.
        rewrite Hmid. exists rd, wr. repeat split; assumption.
      * subst ch. unfold child. cbn [w_end]. rewrite Hnf1. reflexivity.
    + rewrite Hnp2, Hnf2 in Hws'. exact Hws'.
Qed.

(** The loop runs to its end unless a [pipe] or [fork] it calls fails;
    then it ends in [exit(1)]. *)
Lemma spawn_loop_flow N : forall cmds i prev pf st,
  N = i + Z.of_nat (length cmds) ->
  fst (spawn_loop w cmds i N prev pf st) =
  if trouble w (n_pipes st) (n_forks st) (length cmds) then Exit 1 else Next.
Proof.
  induction cmds as [|cmd cmds' IH]; intros i prev pf st HN; [reflexivity|].
  rewrite spawn_loop_cons. unfold trouble. cbn [length] in *.
  destruct cmds' as [|c2 cs].
  - assert ((i <? N - 1) = false) as -> by (apply Z.ltb_ge; simpl in HN; lia).
    cbn [Nat.sub seq existsb orb].
    destruct (fork_fails w (n_forks st)); reflexivity.
  - assert ((i <? N - 1) = true) as -> by (apply Z.ltb_lt; simpl in HN; lia).
    replace (S (length (c2 :: cs)) - 1)%nat with (S (length cs)) by (simpl; lia).
    cbn [seq existsb].
    destruct (do_pipe w st) as [[fresh|] st1] eqn:Hpipe.
    + apply do_pipe_some in Hpipe.
      destruct Hpipe as (rd & wr & -> & _ & _ & _ & _ & Hnp1 & Hnf1 & Hrest).
      do 5 destruct Hrest as [_ Hrest]. rewrite Hrest. cbn [orb fst snd].
      rewrite <- Hnf1.
      destruct (fork_fails w (n_forks st1)); [rewrite orb_true_r; reflexivity|].
      cbv zeta. rewrite IH by (simpl in HN |- *; lia).
      unfold trouble.
      replace (length (c2 :: cs) - 1)%nat with (length cs) by (simpl; lia).
      destruct (negb (prev =? -1)); fields; rewrite Hnp1; reflexivity.
    + apply do_pipe_none in Hpipe. destruct Hpipe as [-> ->]. reflexivity.
Qed.

Lemma grown_refl st : grown st st [].
Proof. unfold grown. rewrite !app_nil_r. repeat split; reflexivity. Qed.

Lemma grown_trans st1 st2 st3 e1 e2 :
  grown st1 st2 e1 -> grown st2 st3 e2 -> grown st1 st3 (e1 ++ e2).
Proof.
  intros (Hl1 & Hw1 & Hc1 & Hn1 & Hi1) (Hl2 & Hw2 & Hc2 & Hn2 & Hi2).
  unfold grown, forked, waited in *. rewrite !omap_app, Hw1, Hw2.
  rewrite Hl2, Hl1, Hc2, Hc1, Hn2, Hn1, Hi2, Hi1, <- !app_assoc.
  repeat split; reflexivity.
Qed.

Lemma grown_pipe st pipefd st1 :
  do_pipe w st = (Some pipefd, st1) ->
  grown st st1 [EPipe (n_pipes st) (fst pipefd) (snd pipefd)].
Proof.
  intros H. apply do_pipe_some in H.
  destruct H as (rd & wr & -> & _ & _ & _ & _ & _ & _ & Hnw & Hin & Hch & _ & Hlog & _).
  unfold grown. cbn [fst snd forked waited omap].
  rewrite Hlog, Hch, Hnw, Hin, app_nil_r. repeat split; reflexivity.
Qed.

Lemma grown_child ch st : grown st (add_child ch st) [EFork (w_pid ch)].
Proof. unfold grown. repeat split; reflexivity. Qed.

Lemma grown_close fd st : grown st (do_close fd st) [EClose fd].
Proof. unfold grown. fields. cbn. rewrite app_nil_r. repeat split; reflexivity. Qed.

Lemma grown_perror msg st : grown st (emit (EPerror msg) st) [EPerror msg].
Proof. unfold grown. fields. cbn. rewrite app_nil_r. repeat split; reflexivity. Qed.

Lemma grown_close_prev prev st :
  grown st (if negb (prev =? -1) then do_close prev st else st) (close_prev prev).
Proof.
  unfold close_prev. destruct (negb (prev =? -1));
    [apply grown_close | apply grown_refl].
Qed.

Lemma forked_close_prev prev : forked (close_prev prev) = [].
Proof. unfold close_prev. destruct (negb (prev =? -1)); reflexivity. Qed.

(** In a [schedule] the read end of a pipe is closed after the fork of
    the next stage. *)
Lemma close_prev_fd (rd : nat) : close_prev (Z.of_nat rd) = [EClose (Z.of_nat rd)].
Proof. unfold close_prev. rewrite not_unset. reflexivity. Qed.

(** When the loop ends in [exit], it is [exit(1)] right after [perror]:
    nothing was waited for, and the children made so far, fewer than
    there are stages, are left. *)
Lemma spawn_loop_exit N : forall cmds i prev pf st status st',
  spawn_loop w cmds i N prev pf st = (Exit status, st') ->
  status = 1 /\
  exists evs msg,
    grown st st' (evs ++ [EPerror msg]) /\
    (msg = "pipe"%string \/ msg = "fork"%string) /\
    (length (forked evs) < length cmds)%nat.
Proof.
  induction cmds as [|cmd cmds' IH]; intros i prev pf st status st' H;
    [discriminate|].
  rewrite spawn_loop_cons in H.
  destruct (i <? N - 1) eqn:Hi.
  - destruct (do_pipe w st) as [[fresh|] st1] eqn:Hpipe.
    + apply grown_pipe in Hpipe.
      destruct (fork_fails w (n_forks st1)).
      * injection H as <- <-. split; [reflexivity|].
        eexists _, "fork"%string. split.
        { exact (grown_trans _ _ _ _ _ Hpipe (grown_perror _ _)). }
        split; [right; reflexivity | simpl; lia].
      * cbv zeta in H. apply IH in H.
        destruct H as (-> & evs & msg & Hg & Hmsg & Hlt).
        split; [reflexivity|].
        pose proof (grown_trans _ _ _ _ _ Hpipe
                      (grown_trans _ _ _ _ _ (grown_child _ _)
                         (grown_trans _ _ _ _ _ (grown_close_prev prev _)
                            (grown_trans _ _ _ _ _ (grown_close _ _) Hg)))) as Hall.
        rewrite !app_assoc in Hall.
        eexists _, msg. split; [exact Hall|].
        split; [exact Hmsg|].
        unfold forked in *. rewrite !omap_app. fold (forked (close_prev prev)).
        rewrite forked_close_prev. simpl. lia.
    + apply do_pipe_none in Hpipe. destruct Hpipe as [-> _].
      injection H as <- <-. split; [reflexivity|].
      exists [], "pipe"%string. split; [apply grown_perror|].
      split; [left; reflexivity | simpl; lia].
  - destruct (fork_fails w (n_forks st)).
    + injection H as <- <-. split; [reflexivity|].
      exists [], "fork"%string. split; [apply grown_perror|].
      split; [right; reflexivity | simpl; lia].
    + cbv zeta in H. apply IH in H.
      destruct H as (-> & evs & msg & Hg & Hmsg & Hlt).
      split; [reflexivity|].
      pose proof (grown_trans _ _ _ _ _ (grown_child _ _)
                    (grown_trans _ _ _ _ _ (grown_close_prev prev _) Hg)) as Hall.
      rewrite !app_assoc in Hall.
      eexists _, msg. split; [exact Hall|].
      split; [exact Hmsg|].
      unfold forked in *. rewrite !omap_app. fold (forked (close_prev prev)).
      rewrite forked_close_prev. simpl. lia.
Qed.

Lemma forked_cons e evs :
  forked (e :: evs) =
  match e with EFork pid => pid :: forked evs | _ => forked evs end.
Proof. destruct e; reflexivity. Qed.

Lemma waited_cons e evs :
  waited (e :: evs) =
  match e with EWait r => r :: waited evs | _ => waited evs end.
Proof. destruct e; reflexivity. Qed.

Lemma made_pipes_cons e evs :
  made_pipes (e :: evs) =
  match e with EPipe k _ _ => k :: made_pipes evs | _ => made_pipes evs end.
Proof. destruct e; reflexivity. Qed.

Lemma forked_app a b : forked (a ++ b) = forked a ++ forked b.
Proof. apply omap_app. Qed.

Lemma waited_app a b : waited (a ++ b) = waited a ++ waited b.
Proof. apply omap_app. Qed.

Lemma made_pipes_app a b : made_pipes (a ++ b) = made_pipes a ++ made_pipes b.
Proof. apply omap_app. Qed.

Lemma waited_close_prev prev : waited (close_prev prev) = [].
Proof. unfold close_prev. destruct (negb (prev =? -1)); reflexivity. Qed.

Lemma made_pipes_close_prev prev : made_pipes (close_prev prev) = [].
Proof. unfold close_prev. destruct (negb (prev =? -1)); reflexivity. Qed.

Lemma schedule_forked pipes : forall k pid prev,
  forked (schedule pipes k pid prev) = seq pid (S (length pipes)).
Proof.
  induction pipes as [|[rd wr] pipes IH]; intros k pid prev; cbn [schedule].
  - rewrite forked_cons, forked_close_prev. reflexivity.
  - rewrite !forked_cons, forked_app, forked_cons, IH, forked_close_prev.
    reflexivity.
Qed.

Lemma schedule_waited pipes : forall k pid prev,
  waited (schedule pipes k pid prev) = [].
Proof.
  induction pipes as [|[rd wr] pipes IH]; intros k pid prev; cbn [schedule].
  - rewrite waited_cons. apply waited_close_prev.
  - rewrite !waited_cons, waited_app, waited_cons, IH, waited_close_prev.
    reflexivity.
Qed.

Lemma schedule_made_pipes pipes : forall k pid prev,
  made_pipes (schedule pipes k pid prev) = seq k (length pipes).
Proof.
  induction pipes as [|[rd wr] pipes IH]; intros k pid prev; cbn [schedule].
  - rewrite made_pipes_cons. apply made_pipes_close_prev.
  - rewrite !made_pipes_cons, made_pipes_app, made_pipes_cons, IH,
      made_pipes_close_prev.
    reflexivity.
Qed.

Lemma reported_cons e evs :
  reported (e :: evs) =
  match e with EPerror msg => msg :: reported evs | _ => reported evs end.
Proof. destruct e; reflexivity. Qed.

Lemma reported_app a b : reported (a ++ b) = reported a ++ reported b.
Proof. apply omap_app. Qed.

Lemma reported_close_prev prev : reported (close_prev prev) = [].
Proof. unfold close_prev. destruct (negb (prev =? -1)); reflexivity. Qed.

Lemma schedule_reported pipes : forall k pid prev,
  reported (schedule pipes k pid prev) = [].
Proof.
  induction pipes as [|[rd wr] pipes IH]; intros k pid prev; cbn [schedule].
  - rewrite reported_cons. apply reported_close_prev.
  - rewrite !reported_cons, reported_app, reported_cons, IH, reported_close_prev.
    reflexivity.
Qed.

Lemma stage_workers_lookup T0 N : forall cmds i k pid ws,
  stage_workers w T0 N cmds i k pid ws ->
  length ws = length cmds /\
  forall (j : nat) wk, ws !! j = Some wk ->
    exists cmd, cmds !! j = Some cmd /\
      w_pid wk = (pid + j)%nat /\ w_stage wk = i + Z.of_nat j /\
      w_args wk = parse_args cmd /\
      (is_Some (T0 !! (0%nat)) -> is_Some (T0 !! (1%nat)) ->
       w_fds wk = stage_fds T0 N (i + Z.of_nat j) (k + j)) /\
      w_end wk = verdict w (pid + j) (parse_args cmd).
Proof.
  induction cmds as [|cmd cmds IH]; intros i k pid [|wk0 ws] H; try contradiction.
  - split; [reflexivity|]. intros j wk Hj. discriminate.
  - destruct H as [(Hpid & Hst & Hargs & Hfds & Hend) Hrest].
    apply IH in Hrest. destruct Hrest as [Hlen Hrest].
    split; [simpl; congruence|].
    intros [|j] wk Hj.
    + injection Hj as <-. exists cmd.
      rewrite Nat.add_0_r, Nat.add_0_r, Z.add_0_r.
      repeat split; assumption.
    + apply Hrest in Hj. destruct Hj as (c & Hc & Hj). exists c.
      split; [exact Hc|].
      replace (pid + S j)%nat with (S pid + j)%nat by lia.
      replace (k + S j)%nat with (S k + j)%nat by lia.
      replace (i + Z.of_nat (S j)) with (i + 1 + Z.of_nat j) by lia.
      exact Hj.
Qed.

End Builder.

(** ** The supervisor *)

Section Supervisor.

Variable w : world.

(** A whole pipeline, from the first stage. *)
Lemma build_next cmds pf st st' :
  spawn_loop w cmds 0 (Z.of_nat (length cmds)) (-1) pf st = (Next, st') ->
  exists evs ws,
    log st' = log st ++ evs /\
    (cmds = [] /\ evs = [] \/
     cmds <> [] /\ exists pipes, length pipes = (length cmds - 1)%nat /\
       evs = schedule pipes (n_pipes st) (S (n_forks st)) (-1)) /\
    forked evs = seq (S (n_forks st)) (length cmds) /\
    waited evs = [] /\
    made_pipes evs = seq (n_pipes st) (length cmds - 1) /\
    fds st' = fds st /\
    n_pipes st' = (n_pipes st + (length cmds - 1))%nat /\
    n_forks st' = (n_forks st + length cmds)%nat /\
    n_waits st' = n_waits st /\ stdin st' = stdin st /\
    children st' = children st ++ seq (S (n_forks st)) (length cmds) /\
    workers st' = workers st ++ ws /\ length ws = length cmds /\
    stage_workers w (fds st) (Z.of_nat (length cmds)) cmds 0 (n_pipes st)
      (S (n_forks st)) ws.
Proof.
  destruct cmds as [|cmd cmds'].
  - intros [= <-]. exists [], []. rewrite !app_nil_r. cbn [length].
    rewrite !Nat.add_0_r.
    split; [reflexivity|]. split; [left; split; reflexivity|].
    repeat split; reflexivity.
  - intros H.
    apply (spawn_loop_next w (fds st)) in H;
      [| simpl; lia | left; repeat split; reflexivity].
    destruct H as (pipes & ws & Hlen & Hfds & Hnp & Hnf & Hnw & Hin & Hch & Hwk &
                   Hlws & Hlog & Hws).
    exists (schedule pipes (n_pipes st) (S (n_forks st)) (-1)), ws.
    rewrite schedule_forked, schedule_waited, schedule_made_pipes, Hlen.
    cbn [length]. rewrite Nat.sub_succ, Nat.sub_0_r.
    split; [exact Hlog|]. split.
    { right. split; [discriminate|]. exists pipes. split; [exact Hlen | reflexivity]. }
    repeat split; assumption.
Qed.

(** [wait] called once per child left: every one of them is reaped. *)
Lemma wait_loop_reaps : forall n st,
  length (children st) = n ->
  exists reaped,
    reaped ≡ₚ children st /\
    children (wait_loop w n st) = [] /\
    log (wait_loop w n st) = log st ++ map (fun pid => EWait (Z.of_nat pid)) reaped /\
    n_waits (wait_loop w n st) = (n_waits st + n)%nat /\
    fds (wait_loop w n st) = fds st /\ stdin (wait_loop w n st) = stdin st /\
    n_pipes (wait_loop w n st) = n_pipes st /\ n_forks (wait_loop w n st) = n_forks st /\
    workers (wait_loop w n st) = workers st.
Proof.
  induction n as [|n IH]; intros st Hlen.
  - exists []. destruct (children st) eqn:E; [|discriminate].
    cbn [wait_loop map]. rewrite app_nil_r, Nat.add_0_r, E.
    repeat split; reflexivity.
  - cbn [wait_loop].
    destruct (children st) as [|c cs] eqn:E; [discriminate|].
    set (j := (wait_pick w (n_waits st) mod length (c :: cs))%nat).
    assert (j < length (c :: cs))%nat as Hj
      by (apply Nat.mod_upper_bound; discriminate).
    destruct (lookup_lt_is_Some_2 (c :: cs) j Hj) as [pid Hpid].
    assert (do_wait w st =
            emit (EWait (Z.of_nat pid))
              {| stdin := stdin st; fds := fds st; n_pipes := n_pipes st;
                 n_forks := n_forks st; n_waits := S (n_waits st);
                 children := delete j (c :: cs); workers := workers st;
                 log := log st |}) as ->.
    { unfold do_wait. rewrite E. fold j. rewrite nth_lookup, Hpid. reflexivity. }
    match goal with |- context [wait_loop w n ?s] => destruct (IH s) as (reaped & Hp & Hrest) end.
    { cbn [children emit]. rewrite length_delete by eauto. simpl in Hlen |- *. lia. }
    cbn [children emit log n_waits fds stdin n_pipes n_forks workers] in Hp, Hrest.
    destruct Hrest as (Hc & Hl & Hn & Hf & Hi & Hnp & Hnf & Hw).
    exists (pid :: reaped). rewrite Hc, Hl, Hn, Hf, Hi, Hnp, Hnf, Hw.
    split.
    { rewrite Hp. symmetry. apply delete_Permutation. exact Hpid. }
    cbn [map]. rewrite <- app_assoc.
    repeat split; try reflexivity. lia.
Qed.

Lemma do_wait_frame st :
  fds (do_wait w st) = fds st /\ stdin (do_wait w st) = stdin st /\
  n_pipes (do_wait w st) = n_pipes st /\ n_forks (do_wait w st) = n_forks st /\
  workers (do_wait w st) = workers st.
Proof. unfold do_wait. destruct (children st); repeat split; reflexivity. Qed.

Lemma wait_loop_frame : forall n st,
  fds (wait_loop w n st) = fds st /\ stdin (wait_loop w n st) = stdin st /\
  n_pipes (wait_loop w n st) = n_pipes st /\ n_forks (wait_loop w n st) = n_forks st /\
  workers (wait_loop w n st) = workers st.
Proof.
  induction n as [|n IH]; intros st; [repeat split; reflexivity|].
  cbn [wait_loop]. destruct (IH (do_wait w st)) as (-> & -> & -> & -> & ->).
  apply do_wait_frame.
Qed.

(** One line that does not end the shell: the workers it forks are all
    reaped before the turn ends. *)
Lemma run_line_next input st st' :
  children st = [] ->
  run_line w input st = (Next, st') ->
  exists evs reaped,
    log st' = log st ++ evs ++ map (fun pid => EWait (Z.of_nat pid)) reaped /\
    forked evs = seq (S (n_forks st)) (length (split_pipes input)) /\
    waited evs = [] /\
    reaped ≡ₚ forked evs /\
    children st' = [] /\
    n_forks st' = (n_forks st + length (split_pipes input))%nat /\
    n_waits st' = (n_waits st + length (split_pipes input))%nat /\
    fds st' = fds st /\ stdin st' = stdin st /\
    reported evs = [] /\ n_pipes st' = (n_pipes st + (length (split_pipes input) - 1))%nat.
Proof.
  intros Hnone H. unfold run_line in H.
  destruct (spawn_loop w (split_pipes input) 0 (Z.of_nat (length (split_pipes input)))
              (-1) pipefd_unset st) as [[|status] st1] eqn:Hsp; [|discriminate].
  injection H as <-.
  apply build_next in Hsp.
  destruct Hsp as (evs & ws & Hlog & Hshape & Hfk & Hwt & _ & Hfds & Hnp & Hnf & Hnw &
                   Hin & Hch & _).
  assert (reported evs = []) as Hrep.
  { destruct Hshape as [[_ ->] | [_ (pipes & _ & ->)]];
      [reflexivity | apply schedule_reported]. }
  rewrite Hnone in Hch. cbn [app] in Hch.
  destruct (wait_loop_reaps (length (split_pipes input)) st1)
    as (reaped & Hperm & Hc & Hl & Hn & Hf & Hi & Hnp' & Hnf' & _).
  { rewrite Hch. apply length_seq. }
  exists evs, reaped.
  rewrite Hl, Hlog, Hc, Hn, Hf, Hi, Hnf', Hnp', Hfds, Hin, Hnf, Hnw, Hnp, Hfk, <- app_assoc.
  rewrite Hch in Hperm.
  repeat split; try reflexivity; assumption.
Qed.

Lemma run_line_stdin input st fl st' :
  run_line w input st = (fl, st') -> stdin st' = stdin st.
Proof.
  unfold run_line.
  destruct (spawn_loop w (split_pipes input) 0 (Z.of_nat (length (split_pipes input)))
              (-1) pipefd_unset st) as [[|status] st1] eqn:Hsp; intros [= <- <-].
  - apply build_next in Hsp.
    destruct Hsp as (evs & ws & _ & _ & _ & _ & _ & _ & _ & _ & _ & Hin & _).
    destruct (wait_loop_frame (length (split_pipes input)) st1) as (_ & -> & _).
    exact Hin.
  - apply spawn_loop_exit in Hsp.
    destruct Hsp as (_ & evs & msg & (_ & _ & _ & _ & Hin) & _). exact Hin.
Qed.

Lemma fgets_chars_le n : forall s buf rest,
  fgets_chars n s = (buf, rest) -> (length rest <= length s)%nat.
Proof.
  induction n as [|n IH]; intros [|c s] buf rest; cbn [fgets_chars];
    try (intros [= <- <-]; simpl; lia).
  destruct (Ascii.eqb c LF); [intros [= <- <-]; simpl; lia|].
  destruct (fgets_chars n s) as [l r] eqn:E. intros [= <- <-].
  apply IH in E. simpl. lia.
Qed.

(** [fgets] gives NULL only at the end of the input, and otherwise
    consumes some of it. *)
Lemma fgets_none s : fgets MAX_LINE s = None <-> s = [].
Proof. destruct s; simpl; split; congruence. Qed.

Lemma fgets_chars_lt n c s buf rest :
  fgets_chars (S n) (c :: s) = (buf, rest) -> (length rest < length (c :: s))%nat.
Proof.
  cbn [fgets_chars]. destruct (Ascii.eqb c LF).
  - intros H. inversion H. subst. cbn [length]. lia.
  - destruct (fgets_chars n s) as [l r] eqn:E. intros H. inversion H. subst.
    apply fgets_chars_le in E. cbn [length]. lia.
Qed.

Lemma fgets_consumes size s buf rest :
  (1 < size)%nat -> fgets size s = Some (buf, rest) -> (length rest < length s)%nat.
Proof.
  intros Hsize. destruct size as [|[|n]]; try lia.
  destruct s as [|c s]; [discriminate|]. unfold fgets.
  replace (S (S n) - 1)%nat with (S n) by lia.
  destruct (fgets_chars (S n) (c :: s)) as [l r] eqn:E.
  intros H. inversion H. subst. exact (fgets_chars_lt _ _ _ _ _ E).
Qed.

Lemma fgets_shorter s buf rest :
  fgets MAX_LINE s = Some (buf, rest) -> (length rest < length s)%nat.
Proof. apply fgets_consumes. unfold MAX_LINE. lia. Qed.

Lemma main_loop_eof fuel st :
  stdin st = [] ->
  main_loop w (S fuel) st = Some (Return 0, emit (EPrintf "cmpsh> ") st).
Proof. intros H. cbn [main_loop emit stdin]. rewrite H. reflexivity. Qed.

Lemma main_loop_exit_line fuel st buf rest :
  fgets MAX_LINE (stdin st) = Some (buf, rest) ->
  strncmp (c_str buf) (lit "exit") 4 = 0 ->
  main_loop w (S fuel) st =
  Some (Return 0, set_stdin rest (emit (EPrintf "cmpsh> ") st)).
Proof.
  intros Hg He. cbn [main_loop]. change (stdin (emit _ st)) with (stdin st).
  rewrite Hg, He. reflexivity.
Qed.

Lemma main_loop_line fuel st buf rest :
  fgets MAX_LINE (stdin st) = Some (buf, rest) ->
  strncmp (c_str buf) (lit "exit") 4 <> 0 ->
  main_loop w (S fuel) st =
  match run_line w (c_str buf) (set_stdin rest (emit (EPrintf "cmpsh> ") st)) with
  | (Exit status, st') => Some (ExitCall status, st')
  | (Next, st') => main_loop w fuel st'
  end.
Proof.
  intros Hg He. cbn [main_loop]. change (stdin (emit _ st)) with (stdin st).
  rewrite Hg. apply Z.eqb_neq in He. rewrite He. reflexivity.
Qed.

Lemma run_line_flow input st :
  fst (run_line w input st) =
  if trouble w (n_pipes st) (n_forks st) (length (split_pipes input))
  then Exit 1 else Next.
Proof.
  unfold run_line.
  rewrite <- (spawn_loop_flow w (Z.of_nat (length (split_pipes input)))
                (split_pipes input) 0 (-1) pipefd_unset st) by lia.
  destruct (spawn_loop w (split_pipes input) 0 (Z.of_nat (length (split_pipes input)))
              (-1) pipefd_unset st) as [[|status] st1]; reflexivity.
Qed.




(** At the head of the loop the shell has no child left, and its
    descriptors are those it started with: what the properties below ask of
    the state a line starts in holds at every turn. *)
Lemma loop_head_idle input st :
  loop_head w input st ->
  children st = [] /\ pipes_known st /\ fds st = fds (initial_state input).
Proof.
  induction 1 as [|st buf rest st' _ (Hnone & Hknown & Hfds) Hg He Hr].
  - split; [reflexivity|]. split; [|reflexivity].
    intros fd k. cbn [fds initial_state].
    intros [H|H];
      repeat (rewrite lookup_insert in H; case_decide; [discriminate|]);
      rewrite lookup_singleton in H; case_decide; discriminate.
  - destruct (run_line_next (c_str buf)
                (set_stdin rest (emit (EPrintf "cmpsh> ") st)) st' Hnone Hr)
      as (evs & reaped & _ & _ & _ & _ & Hch & _ & _ & Hfds' & _ & _ & Hnp).
    cbn [fds n_pipes set_stdin emit] in Hfds', Hnp.
    split; [exact Hch|]. split; [|congruence].
    intros fd k Hk. rewrite Hfds' in Hk. apply Hknown in Hk. lia.
Qed.

(** The shell always terminates on a finite input: the fuel [main] gives
    the loop is enough. *)
Lemma main_loop_total : forall fuel st,
  (length (stdin st) < fuel)%nat -> exists r, main_loop w fuel st = Some r.
Proof.
  induction fuel as [|fuel IH]; intros st Hlt; [lia|].
  destruct (fgets MAX_LINE (stdin st)) as [[buf rest]|] eqn:Hg.
  - destruct (Z.eq_dec (strncmp (c_str buf) (lit "exit") 4) 0) as [He|He].
    + rewrite (main_loop_exit_line _ _ _ _ Hg He). eauto.
    + rewrite (main_loop_line _ _ _ _ Hg He).
      destruct (run_line w (c_str buf) (set_stdin rest (emit (EPrintf "cmpsh> ") st)))
        as [[|status] st'] eqn:Hr; [|eauto].
      apply IH. apply run_line_stdin in Hr. rewrite Hr. cbn [stdin set_stdin].
      apply fgets_shorter in Hg. lia.
  - apply fgets_none in Hg. rewrite main_loop_eof by exact Hg. eauto.
Qed.

End Supervisor.



(** ** The properties of the specification *)

(** C1. When no [pipe] or [fork] fails, the construction loop for [N]
    commands runs to its end; it has then made exactly [N - 1] pipes (those
    numbered from [n_pipes st] on), the shell's descriptor table is what it
    was before the loop, so that no descriptor of the shell refers to an end
    of one of these pipes, and the shell's events are the [schedule]: each
    write end is closed right after the fork of the stage that writes to it,
    each read end after the fork of the next stage. *)
Theorem pipeline_descriptor_hygiene w cmds pf st :
  trouble w (n_pipes st) (n_forks st) (length cmds) = false ->
  exists st' evs,
    spawn_loop w cmds 0 (Z.of_nat (length cmds)) (-1) pf st = (Next, st') /\
    log st' = log st ++ evs /\
    made_pipes evs = seq (n_pipes st) (length cmds - 1) /\
    n_pipes st' = (n_pipes st + (length cmds - 1))%nat /\
    fds st' = fds st /\
    (pipes_known st ->
     forall fd k, (n_pipes st <= k)%nat ->
       fds st' !! fd <> Some (PipeRead k) /\ fds st' !! fd <> Some (PipeWrite k)) /\
    (cmds <> [] ->
     exists pipes, length pipes = (length cmds - 1)%nat /\
       evs = schedule pipes (n_pipes st) (S (n_forks st)) (-1)).
Proof.
  intros Hcalm.
  destruct (spawn_loop w cmds 0 (Z.of_nat (length cmds)) (-1) pf st) as [fl st'] eqn:H.
  pose proof (spawn_loop_flow w (Z.of_nat (length cmds)) cmds 0 (-1) pf st) as Hfl.
  rewrite H, Hcalm in Hfl. cbn [fst] in Hfl. specialize (Hfl eq_refl). subst fl.
  pose proof (build_next w _ _ _ _ H)
    as (evs & ws & Hlog & Hshape & _ & _ & Hmade & Hfds & Hnp & _).
  exists st', evs. do 5 (split; [assumption || reflexivity|]). split.
  - intros Hknown fd k Hk. rewrite Hfds.
    split; intros Heq;
      [specialize (Hknown fd k (or_introl Heq)) | specialize (Hknown fd k (or_intror Heq))];
      lia.
  - intros Hne. destruct Hshape as [[-> _] | [_ Hp]]; [contradiction | exact Hp].
Qed.

Lemma pipeline_descriptor_hygiene_witness :
  trouble calm 0 0 3 = false /\
  exists st' evs,
    spawn_loop calm [lit "ls"; lit "sort"; lit "wc"] 0 3 (-1) pipefd_unset
      (initial_state []) = (Next, st') /\
    log st' = evs /\
    made_pipes evs = [0; 1]%nat /\
    n_pipes st' = 2%nat /\
    fds st' = fds (initial_state []).
Proof.
  split; [reflexivity|].
  destruct (pipeline_descriptor_hygiene calm [lit "ls"; lit "sort"; lit "wc"]
              pipefd_unset (initial_state []) eq_refl)
    as (st' & evs & H & Hlog & Hmade & Hnp & Hfds & _).
  exists st', evs. repeat split; assumption.
Defined.

(** C7. In a pipeline of [N] commands built without a failure, from a shell
    that has descriptors 0 and 1 open, the worker of stage [j] calls
    [execvp] with: on descriptor 0, what the shell has there when [j = 0]
    and otherwise the read end of the pipe from stage [j - 1]; on descriptor
    1, what the shell has there when [j = N - 1] and otherwise the write end
    of the pipe to stage [j + 1]; on every other descriptor what the shell
    had before the pipeline, the pipe descriptors it inherited being
    closed. *)
Theorem stage_redirection w cmds pf st :
  trouble w (n_pipes st) (n_forks st) (length cmds) = false ->
  is_Some (fds st !! (0%nat)) -> is_Some (fds st !! (1%nat)) ->
  exists st' ws,
    spawn_loop w cmds 0 (Z.of_nat (length cmds)) (-1) pf st = (Next, st') /\
    workers st' = workers st ++ ws /\ length ws = length cmds /\
    forall (j : nat) wk, ws !! j = Some wk ->
      w_stage wk = Z.of_nat j /\
      w_fds wk !! (0%nat) =
        (if decide (j = 0%nat) then fds st !! (0%nat)
         else Some (PipeRead (n_pipes st + j - 1))) /\
      w_fds wk !! (1%nat) =
        (if decide (S j = length cmds) then fds st !! (1%nat)
         else Some (PipeWrite (n_pipes st + j))) /\
      (forall fd, (2 <= fd)%nat -> w_fds wk !! fd = fds st !! fd).
Proof.
  intros Hcalm Hs0 Hs1.
  destruct (spawn_loop w cmds 0 (Z.of_nat (length cmds)) (-1) pf st) as [fl st'] eqn:H.
  pose proof (spawn_loop_flow w (Z.of_nat (length cmds)) cmds 0 (-1) pf st) as Hfl.
  rewrite H, Hcalm in Hfl. cbn [fst] in Hfl. specialize (Hfl eq_refl). subst fl.
  pose proof (build_next w _ _ _ _ H) as (evs & ws & Hrest).
  do 11 destruct Hrest as [_ Hrest]. destruct Hrest as (Hwk & Hlen & Hws).
  exists st', ws. do 3 (split; [assumption || reflexivity|]).
  apply stage_workers_lookup in Hws. destruct Hws as [_ Hws].
  intros j wk Hj.
  assert (j < length cmds)%nat as Hjlt.
  { rewrite <- Hlen. apply lookup_lt_is_Some. eauto. }
  destruct (Hws j wk Hj) as (cmd & _ & _ & Hstage & _ & Hfds & _).
  specialize (Hfds Hs0 Hs1). rewrite Hfds, Hstage. unfold stage_fds.
  split; [lia|].
  destruct (Z.ltb_spec 0 (0 + Z.of_nat j));
    destruct (Z.ltb_spec (0 + Z.of_nat j) (Z.of_nat (length cmds) - 1));
    repeat case_decide; try lia;
    (split; [|split]); try intros fd Hfd;
    repeat (rewrite lookup_insert; case_decide; try lia); try reflexivity.
Qed.

Lemma stage_redirection_witness :
  trouble calm 0 0 3 = false /\
  exists st' ws,
    spawn_loop calm [lit "ls"; lit "sort"; lit "wc"] 0 3 (-1) pipefd_unset
      (initial_state []) = (Next, st') /\
    workers st' = ws /\ length ws = 3%nat.
Proof.
  split; [reflexivity|].
  destruct (stage_redirection calm [lit "ls"; lit "sort"; lit "wc"] pipefd_unset
              (initial_state []) eq_refl
              (ex_intro _ (Inherited 0) eq_refl) (ex_intro _ (Inherited 1) eq_refl))
    as (st' & ws & H & Hwk & Hlen & _).
  exists st', ws. repeat split; assumption.
Defined.



(** C6, what the code does where the claim fails. The child whose
    [execvp] fails reports it and ends with [exit(1)], and the shell forks
    and waits for every stage as it does otherwise. But the child calls
    [exit], not [_exit]: it leaves with its copy of what the library holds
    for the shell. In a shell that runs a script this is the prompt, not
    yet written, and the input read ahead. For the line [nosuch | cat] the
    shell goes on to the next prompt and the end of the input, but the
    child's [exit] has written the prompt to its descriptor 1, which is
    the pipe that [cat] reads. For the first line of the script of
    [nosuch] and [ls], it moves the offset of the script back over the
    line [ls], which the shell has in its buffer: the file gives that line
    once more. On a terminal the library holds nothing at the [fork], and
    the failure stays in the child. *)
Theorem exec_failure_reaches_sibling :
  (exists st wk1 wk2,
     main (with_exec script (exec_fails_for 1)) (lit "nosuch | cat" ++ [LF])
       = Some (Return 0, st) /\
     workers st = [wk1; wk2] /\
     forked (log st) = [1%nat; 2%nat] /\ waited (log st) = [1; 2] /\
     children st = [] /\ prompts (log st) = 2%nat /\ stdin st = [] /\
     w_args wk1 = [lit "nosuch"] /\ w_end wk1 = ChildExit "execvp" 1 /\
     w_args wk2 = [lit "cat"] /\ w_end wk2 = ImageReplaced /\
     w_flush wk1 = Some (PipeWrite 0, lit "cmpsh> ") /\
     w_fds wk2 !! (0%nat) = Some (PipeRead 0)) /\
  (fgets MAX_LINE (lit "nosuch" ++ [LF] ++ lit "ls" ++ [LF])
     = Some (lit "nosuch" ++ [LF], lit "ls" ++ [LF]) /\
   exists st wk1,
     run_line (with_exec script (exec_fails_for 1)) (c_str (lit "nosuch" ++ [LF]))
       (set_stdin (lit "ls" ++ [LF])
          (emit (EPrintf "cmpsh> ")
             (initial_state (lit "nosuch" ++ [LF] ++ lit "ls" ++ [LF]))))
       = (Next, st) /\
     workers st = [wk1] /\ waited (log st) = [1] /\
     w_args wk1 = [lit "nosuch"] /\ w_end wk1 = ChildExit "execvp" 1 /\
     w_fds wk1 !! (0%nat) = Some (Inherited 0) /\ w_seek wk1 = Some 3%nat /\
     w_flush wk1 = Some (Inherited 1, lit "cmpsh> ") /\
     stdin st = lit "ls" ++ [LF]) /\
  (exists st wk1 wk2,
     main (with_exec calm (exec_fails_for 1)) (lit "nosuch | cat" ++ [LF])
       = Some (Return 0, st) /\
     workers st = [wk1; wk2] /\
     w_end wk1 = ChildExit "execvp" 1 /\
     w_flush wk1 = None /\ w_seek wk1 = None).
Proof.
  split; [|split].
  - do 3 eexists. split; [vm_compute; reflexivity|]. repeat split; reflexivity.
  - split; [reflexivity|].
    do 2 eexists. split; [vm_compute; reflexivity|]. repeat split; reflexivity.
  - do 3 eexists. split; [vm_compute; reflexivity|]. repeat split; reflexivity.
Qed.

(** C3, as the code has it. When a [pipe] or [fork] of a line's pipeline
    fails, the shell reports it with [perror] ("pipe" or "fork") and ends
    itself with [exit(1)]: fewer workers than commands were forked, none of
    them is waited for, and the rest of the input is never read. *)
Theorem resource_error_exits_shell w fuel st buf rest :
  fgets MAX_LINE (stdin st) = Some (buf, rest) ->
  strncmp (c_str buf) (lit "exit") 4 <> 0 ->
  trouble w (n_pipes st) (n_forks st) (length (split_pipes (c_str buf))) = true ->
  exists st' evs msg,
    main_loop w (S fuel) st = Some (ExitCall 1, st') /\
    log st' = log st ++ EPrintf "cmpsh> " :: evs ++ [EPerror msg] /\
    (msg = "pipe"%string \/ msg = "fork"%string) /\
    waited evs = [] /\ n_waits st' = n_waits st /\
    children st' = children st ++ forked evs /\
    (length (forked evs) < length (split_pipes (c_str buf)))%nat /\
    stdin st' = rest.
Proof.
  intros Hg He Htrouble.
  set (st0 := set_stdin rest (emit (EPrintf "cmpsh> ") st)).
  rewrite (main_loop_line w _ _ _ _ Hg He). fold st0. unfold run_line.
  destruct (spawn_loop w (split_pipes (c_str buf)) 0
              (Z.of_nat (length (split_pipes (c_str buf)))) (-1) pipefd_unset st0)
    as [fl st'] eqn:Hsp.
  pose proof (spawn_loop_flow w (Z.of_nat (length (split_pipes (c_str buf))))
                (split_pipes (c_str buf)) 0 (-1) pipefd_unset st0) as Hfl.
  rewrite Hsp in Hfl. cbn [fst] in Hfl.
  change (n_pipes st0) with (n_pipes st) in Hfl.
  change (n_forks st0) with (n_forks st) in Hfl.
  rewrite Htrouble in Hfl. specialize (Hfl eq_refl). subst fl.
  apply spawn_loop_exit in Hsp.
  destruct Hsp as (_ & evs & msg & (Hlog & Hwt & Hch & Hnw & Hin) & Hmsg & Hlt).
  exists st', evs, msg.
  rewrite waited_app in Hwt. apply app_eq_nil in Hwt. destruct Hwt as [Hwt _].
  rewrite forked_app in Hch. change (forked [EPerror msg]) with (@nil nat) in Hch.
  rewrite app_nil_r in Hch.
  split; [reflexivity|].
  split. { rewrite Hlog. cbn [log st0 set_stdin emit]. rewrite <- app_assoc. reflexivity. }
  repeat split; assumption.
Qed.

Lemma resource_error_exits_shell_witness :
  exists st' evs msg,
    main_loop (fork_fails_at 1) 3
      (initial_state (lit "ls | wc" ++ [LF] ++ lit "echo done" ++ [LF]))
    = Some (ExitCall 1, st') /\
    log st' = EPrintf "cmpsh> " :: evs ++ [EPerror msg] /\
    waited evs = [] /\
    children st' = forked evs /\
    stdin st' = lit "echo done" ++ [LF].
Proof.
  destruct (resource_error_exits_shell (fork_fails_at 1) 2
              (initial_state (lit "ls | wc" ++ [LF] ++ lit "echo done" ++ [LF]))
              (lit "ls | wc" ++ [LF]) (lit "echo done" ++ [LF]))
    as (st' & evs & msg & Hm & Hlog & _ & Hwt & _ & Hch & _ & Hin).
  - reflexivity.
  - vm_compute. discriminate.
  - reflexivity.
  - exists st', evs, msg. repeat split; assumption.
Defined.

(** C3 as the specification states it fails: with the second [fork]
    failing on the line "ls | wc", the shell itself ends with status 1,
    the worker already forked is left unreaped, nothing is waited for, and
    the next line is never read. *)
Lemma resource_error_is_fatal :
  (exists st,
     main (fork_fails_at 1) (lit "ls | wc" ++ [LF] ++ lit "echo done" ++ [LF])
     = Some (ExitCall 1, st) /\
     children st = [1%nat] /\ waited (log st) = [] /\
     reported (log st) = ["fork"%string] /\
     stdin st = lit "echo done" ++ [LF]) /\
  (exists st,
     main (pipe_fails_at 0) (lit "ls | wc" ++ [LF] ++ lit "echo done" ++ [LF])
     = Some (ExitCall 1, st) /\
     forked (log st) = [] /\ reported (log st) = ["pipe"%string] /\
     stdin st = lit "echo done" ++ [LF]).
Proof.
  split; eexists; (split; [vm_compute; reflexivity|]); repeat split; reflexivity.
Qed.

(** C10. At the end of the input [fgets] returns NULL and the loop stops
    as it does for the exit directive: in both cases [main] returns 0 having
    only printed the prompt, with no process made; and on any finite input
    [main] does end. *)
Theorem end_of_input_stops_shell w fuel st :
  (stdin st = [] ->
   main_loop w (S fuel) st = Some (Return 0, emit (EPrintf "cmpsh> ") st)) /\
  (forall buf rest,
     fgets MAX_LINE (stdin st) = Some (buf, rest) ->
     strncmp (c_str buf) (lit "exit") 4 = 0 ->
     main_loop w (S fuel) st =
     Some (Return 0, set_stdin rest (emit (EPrintf "cmpsh> ") st))) /\
  (forall input, exists r, main w input = Some r) /\
  (forall input v st', main w input = Some (Return v, st') -> v = 0).
Proof.
  split; [|split; [|split]].
  - apply main_loop_eof.
  - intros buf rest. apply main_loop_exit_line.
  - intros input. unfold main. apply main_loop_total. cbn [stdin initial_state]. lia.
  - intros input v st'. unfold main. generalize (initial_state input).
    induction (S (length input)) as [|n IH]; intros s H; [discriminate|].
    destruct (fgets MAX_LINE (stdin s)) as [[buf rest]|] eqn:Hg.
    + destruct (Z.eq_dec (strncmp (c_str buf) (lit "exit") 4) 0) as [He|He].
      * rewrite (main_loop_exit_line _ _ _ _ _ Hg He) in H. congruence.
      * rewrite (main_loop_line _ _ _ _ _ Hg He) in H.
        destruct (run_line w (c_str buf) (set_stdin rest (emit (EPrintf "cmpsh> ") s)))
          as [[|status] s']; [exact (IH _ H) | discriminate].
    + apply fgets_none in Hg. rewrite main_loop_eof in H by exact Hg. congruence.
Qed.

Lemma end_of_input_stops_shell_witness :
  main calm [] = Some (Return 0, emit (EPrintf "cmpsh> ") (initial_state [])) /\
  main calm (lit "exit" ++ [LF]) =
    Some (Return 0, emit (EPrintf "cmpsh> ") (initial_state [])).
Proof.
  destruct (end_of_input_stops_shell calm 0 (initial_state [])) as (Heof & _).
  destruct (end_of_input_stops_shell calm 5 (initial_state (lit "exit" ++ [LF])))
    as (_ & Hexit & _).
  split.
  - exact (Heof eq_refl).
  - exact (Hexit (lit "exit" ++ [LF]) [] eq_refl eq_refl).
Defined.

(** C2, what the code does at the inputs the claim names. The line "exit"
    ends the shell with no process made, as claimed; the line "exitfoo"
    ends it too, in the same way, where the claim has it run as a command:
    the test compares the first four characters only. More generally any
    line that starts with these four characters ends the shell. *)
Theorem exit_prefix_ends_shell w :
  main w (lit "exit" ++ [LF]) =
    Some (Return 0, emit (EPrintf "cmpsh> ") (initial_state [])) /\
  main w (lit "exitfoo" ++ [LF]) =
    Some (Return 0, emit (EPrintf "cmpsh> ") (initial_state [])) /\
  (forall tail, strncmp (lit "exit" ++ tail) (lit "exit") 4 = 0).
Proof. repeat split. Qed.

Section Blank.








Lemma reported_waits reaped :
  reported (map (fun pid => EWait (Z.of_nat pid)) reaped) = [].
Proof. induction reaped as [|pid reaped IH]; [reflexivity | exact IH]. Qed.

End Blank.




(** C4, as the code has it. The split keeps the first [MAX_CMDS] segments
    of the line and [parse_args] the first [MAX_ARGS - 1] tokens of a
    command; what is beyond is dropped without any report, and the shell
    runs the pipeline of the segments kept. *)
Theorem capacity_truncates_silently w input st :
  split_pipes input = map trim (take MAX_CMDS (tokens input (lit "|"))) /\
  (forall cmd, parse_args cmd = take (MAX_ARGS - 1) (tokens cmd (lit " "))) /\
  (children st = [] ->
   trouble w (n_pipes st) (n_forks st) (length (split_pipes input)) = false ->
   exists st' evs,
     run_line w input st = (Next, st') /\
     log st' = log st ++ evs /\ reported evs = [] /\
     n_forks st' = (n_forks st + length (tokens input (lit "|")) `min` MAX_CMDS)%nat).
Proof.
  split; [apply split_pipes_tokens|]. split; [apply parse_args_tokens|].
  intros Hnone Hcalm.
  destruct (run_line w input st) as [fl st'] eqn:Hr.
  pose proof (run_line_flow w input st) as Hfl.
  rewrite Hr, Hcalm in Hfl. cbn [fst] in Hfl. subst fl.
  destruct (run_line_next w input st st' Hnone Hr)
    as (evs & reaped & Hlog & _ & _ & _ & _ & Hnf & _ & _ & _ & Hrep & _).
  exists st', (evs ++ map (fun pid => EWait (Z.of_nat pid)) reaped).
  rewrite reported_app, Hrep, reported_waits, Hnf, split_pipes_length.
  repeat split; assumption || reflexivity.
Qed.

Lemma capacity_truncates_silently_witness :
  exists st' evs,
    run_line calm (lit "a|b|c|d|e|f|g|h|i|j|k|l" ++ [LF]) (initial_state []) = (Next, st') /\
    log st' = evs /\ reported evs = [] /\ n_forks st' = 10%nat.
Proof.
  destruct (capacity_truncates_silently calm (lit "a|b|c|d|e|f|g|h|i|j|k|l" ++ [LF])
              (initial_state [])) as (_ & _ & H).
  destruct (H eq_refl eq_refl) as (st' & evs & Hr & Hlog & Hrep & Hnf).
  exists st', evs. repeat split; assumption.
Defined.

(** C4 as the specification states it fails: a line of twelve segments
    is run as a pipeline of ten workers with no error reported, and a
    command of twenty-five words gets nineteen arguments. *)
Lemma overlong_line_is_run :
  length (tokens (lit "a|b|c|d|e|f|g|h|i|j|k|l" ++ [LF]) (lit "|")) = 12%nat /\
  (exists st,
     main calm (lit "a|b|c|d|e|f|g|h|i|j|k|l" ++ [LF]) = Some (Return 0, st) /\
     map w_args (workers st) =
       [[lit "a"]; [lit "b"]; [lit "c"]; [lit "d"]; [lit "e"];
        [lit "f"]; [lit "g"]; [lit "h"]; [lit "i"]; [lit "j"]] /\
     reported (log st) = []) /\
  length (tokens (lit "a 1 2 3 4 5 6 7 8 9 0 1 2 3 4 5 6 7 8 9 0 1 2 3 4") (lit " ")) = 25%nat /\
  length (parse_args (lit "a 1 2 3 4 5 6 7 8 9 0 1 2 3 4 5 6 7 8 9 0 1 2 3 4")) = 19%nat.
Proof.
  split; [reflexivity|]. split; [|split; reflexivity].
  eexists. split; [vm_compute; reflexivity|]. split; reflexivity.
Qed.



(** ** Further properties of the code *)

(** *** How [strtok] cuts a string *)

Section Cutting.

Variable delim : cstring.

Lemma strspn_run s : Forall (delimiter delim) (take (strspn s delim) s).
Proof.
  induction s as [|c s IH]; cbn [strspn]; [constructor|].
  destruct (strchr_in delim c) eqn:Hc; cbn [take]; constructor; assumption.
Qed.

Lemma strcspn_run s : Forall (plain delim) (take (strcspn s delim) s).
Proof.
  induction s as [|c s IH]; cbn [strcspn]; [constructor|].
  destruct (strchr_in delim c) eqn:Hc; cbn [take]; constructor; assumption.
Qed.

Lemma strcspn_stop s c rest :
  drop (strcspn s delim) s = c :: rest -> delimiter delim c.
Proof.
  induction s as [|a s IH]; cbn [strcspn]; [discriminate|].
  destruct (strchr_in delim a) eqn:Ha; cbn [drop].
  - intros [= <- _]. exact Ha.
  - exact IH.
Qed.

Lemma strspn_app_plain lead c s :
  Forall (delimiter delim) lead -> plain delim c ->
  strspn (lead ++ c :: s) delim = length lead.
Proof.
  intros Hlead Hc. induction Hlead as [|a lead Ha _ IH]; cbn [strspn app length].
  - rewrite Hc. reflexivity.
  - rewrite Ha, IH. reflexivity.
Qed.

Lemma strspn_app_run lead s :
  Forall (delimiter delim) lead ->
  strspn (lead ++ s) delim = (length lead + strspn s delim)%nat.
Proof.
  intros Hlead. induction Hlead as [|a lead Ha _ IH]; cbn [strspn app length];
    [reflexivity|]. rewrite Ha, IH. reflexivity.
Qed.

Lemma strcspn_app_stop tok rest :
  Forall (plain delim) tok ->
  (rest = [] \/ exists c save, rest = c :: save /\ delimiter delim c) ->
  strcspn (tok ++ rest) delim = length tok.
Proof.
  intros Htok Hrest. induction Htok as [|a tok Ha _ IH]; cbn [strcspn app length].
  - destruct Hrest as [-> | (c & save & -> & Hc)]; [reflexivity|].
    cbn [strcspn]. rewrite Hc. reflexivity.
  - rewrite Ha, IH. reflexivity.
Qed.

(** What a call of [strtok] that returns a token has seen: a run of
    delimiters, the token, and then the end of the string or one delimiter,
    after which the next call starts. *)
Lemma strtok_some_inv s tok save :
  strtok s delim = (Some tok, save) ->
  exists lead,
    Forall (delimiter delim) lead /\ word_of delim tok /\
    (s = lead ++ tok /\ save = [] \/
     exists c, delimiter delim c /\ s = lead ++ tok ++ c :: save).
Proof.
  unfold strtok. intros H.
  pose proof (strspn_run s) as Hlead.
  pose proof (take_drop (strspn s delim) s) as Hs.
  destruct (drop (strspn s delim) s) as [|x s1] eqn:E; [discriminate|].
  pose proof (strspn_drop _ _ _ _ E) as Hx.
  pose proof (strcspn_run (x :: s1)) as Htok.
  pose proof (take_drop (strcspn (x :: s1) delim) (x :: s1)) as Hs1.
  assert (0 < strcspn (x :: s1) delim)%nat as Hpos.
  { cbn [strcspn]. rewrite Hx. lia. }
  cbv zeta in H. remember (strcspn (x :: s1) delim) as n eqn:Hn.
  assert (tok = take n (x :: s1)) as -> by congruence.
  assert (save = drop (S n) (x :: s1)) as -> by congruence.
  exists (take (strspn s delim) s). split; [exact Hlead|]. split.
  { split; [|exact Htok]. destruct n; [lia | discriminate]. }
  destruct (drop n (x :: s1)) as [|c rest] eqn:E1.
  - left. rewrite app_nil_r in Hs1. rewrite Hs1. split; [symmetry; exact Hs|].
    apply drop_ge. apply (f_equal length) in E1. rewrite length_drop in E1.
    cbn [length] in *. lia.
  - right. exists c. split; [rewrite Hn in E1; exact (strcspn_stop _ _ _ E1)|].
    assert (drop (S n) (x :: s1) = rest) as ->.
    { change (S n) with (1 + n)%nat.
      rewrite Nat.add_comm, <- drop_drop, E1. reflexivity. }
    rewrite Hs1. symmetry. exact Hs.
Qed.

Lemma strtok_word lead tok :
  Forall (delimiter delim) lead -> word_of delim tok ->
  strtok (lead ++ tok) delim = (Some tok, []).
Proof.
  intros Hlead [Hne Htok]. destruct tok as [|x tok]; [contradiction|].
  unfold strtok. inversion Htok as [|? ? Hx Htok']; subst.
  rewrite (strspn_app_plain lead x tok Hlead Hx), drop_app_length.
  pose proof (strcspn_app_stop (x :: tok) [] Htok (or_introl eq_refl)) as Hn.
  rewrite app_nil_r in Hn. rewrite Hn, firstn_all, drop_ge by (simpl; lia).
  reflexivity.
Qed.

Lemma strtok_word_delim lead tok c save :
  Forall (delimiter delim) lead -> word_of delim tok -> delimiter delim c ->
  strtok (lead ++ tok ++ c :: save) delim = (Some tok, save).
Proof.
  intros Hlead [Hne Htok] Hc. destruct tok as [|x tok]; [contradiction|].
  unfold strtok. inversion Htok as [|? ? Hx Htok']; subst.
  cbn [app]. rewrite (strspn_app_plain lead x _ Hlead Hx), drop_app_length.
  change (x :: tok ++ c :: save) with ((x :: tok) ++ c :: save).
  rewrite (strcspn_app_stop (x :: tok) (c :: save) Htok) by (right; eauto).
  rewrite take_app_length.
  replace (S (length (x :: tok))) with (length ((x :: tok) ++ [c]))
    by (rewrite length_app; simpl; lia).
  replace ((x :: tok) ++ c :: save) with (((x :: tok) ++ [c]) ++ save)
    by (rewrite <- app_assoc; reflexivity).
  rewrite drop_app_length. reflexivity.
Qed.

Lemma strtok_run lead s :
  Forall (delimiter delim) lead -> strtok (lead ++ s) delim = strtok s delim.
Proof.
  intros Hlead. unfold strtok.
  rewrite (strspn_app_run lead s Hlead), <- drop_drop, drop_app_length.
  reflexivity.
Qed.

Lemma tokens_run lead s :
  Forall (delimiter delim) lead -> tokens (lead ++ s) delim = tokens s delim.
Proof.
  intros Hlead. rewrite (tokens_unfold (lead ++ s)), (tokens_unfold s),
    (strtok_run lead s Hlead). reflexivity.
Qed.

Lemma tokens_nil : tokens [] delim = [].
Proof. reflexivity. Qed.

Lemma tokens_word tok : word_of delim tok -> tokens tok delim = [tok].
Proof.
  intros Htok. rewrite tokens_unfold.
  pose proof (strtok_word [] tok (List.Forall_nil _) Htok) as H.
  cbn [app] in H. rewrite H. reflexivity.
Qed.

(** Cutting at a delimiter: the tokens of a string are those of what is
    before any one delimiter followed by those of what is after it. *)
Lemma tokens_app_delim : forall a c b,
  delimiter delim c ->
  tokens (a ++ c :: b) delim = tokens a delim ++ tokens b delim.
Proof.
  intros a. remember (length a) as n eqn:Hn. revert a Hn.
  induction n as [n IH] using lt_wf_ind. intros a Hn c b Hc.
  rewrite (tokens_unfold a).
  destruct (strtok a delim) as [[tok|] save] eqn:E.
  - pose proof (strtok_shorter _ _ _ _ E) as Hlt.
    apply strtok_some_inv in E.
    destruct E as (lead & Hlead & Htok & [[-> ->] | (x & Hx & ->)]).
    + rewrite <- app_assoc, tokens_unfold, (strtok_word_delim lead tok c b Hlead Htok Hc).
      reflexivity.
    + rewrite <- !app_assoc. cbn [app].
      rewrite tokens_unfold.
      rewrite (strtok_word_delim lead tok x (save ++ c :: b) Hlead Htok Hx).
      cbn [app]. f_equal. apply (IH (length save)); [lia | reflexivity | exact Hc].
  - assert (Forall (delimiter delim) a) as Ha.
    { apply strtok_none. rewrite E. reflexivity. }
    replace (a ++ c :: b) with ((a ++ [c]) ++ b) by (rewrite <- app_assoc; reflexivity).
    apply tokens_run. apply Forall_app. split; [exact Ha | repeat constructor; exact Hc].
Qed.

End Cutting.

(** *** What [trim] removes *)

Section Trimming.

Lemma skip_spaces_split str :
  exists lead, str = lead ++ skip_spaces str /\ Forall (fun c => c = SP) lead.
Proof.
  induction str as [|c str (lead & Hs & Hlead)]; [exists []; split; [reflexivity | constructor]|].
  cbn [skip_spaces]. destruct (Ascii.eqb_spec c SP) as [->|Hc].
  - exists (SP :: lead). split; [cbn [app]; f_equal; exact Hs | constructor; auto].
  - exists []. split; [reflexivity | constructor].
Qed.

Lemma skip_spaces_head str c rest : skip_spaces str = c :: rest -> c <> SP.
Proof.
  induction str as [|a str IH]; cbn [skip_spaces]; [discriminate|].
  destruct (Ascii.eqb_spec a SP) as [->|Ha]; [exact IH|].
  intros [= <- _]. exact Ha.
Qed.

Lemma skip_spaces_id c rest : c <> SP -> skip_spaces (c :: rest) = c :: rest.
Proof.
  intros Hc. cbn [skip_spaces]. destruct (Ascii.eqb_spec c SP); [contradiction | reflexivity].
Qed.

Lemma skip_spaces_lead lead s :
  Forall (fun c => c = SP) lead -> skip_spaces (lead ++ s) = skip_spaces s.
Proof. induction 1 as [|c lead -> _ IH]; [reflexivity | exact IH]. Qed.

(** The loop at the end of [trim] on a string with one more character:
    a space or newline in last place is cut and the loop goes on, anything
    else stops it. *)
Lemma trim_end_snoc c s x :
  trim_end (c :: s ++ [x]) (length (s ++ [x])) =
  if is_ws x then trim_end (c :: s) (length s) else c :: s ++ [x].
Proof.
  rewrite length_app, Nat.add_comm. cbn [length Nat.add trim_end].
  replace (nth (S (length s)) (c :: s ++ [x]) NUL) with x.
  2:{ cbn [nth]. rewrite app_nth2, Nat.sub_diag by lia. reflexivity. }
  unfold is_ws. destruct (Ascii.eqb x SP || Ascii.eqb x LF); [|reflexivity].
  f_equal. cbn [take]. f_equal. apply take_app_length.
Qed.

Lemma trim_end_tail c : forall tail s,
  Forall (fun x => is_ws x = true) tail ->
  trim_end (c :: s ++ tail) (length (s ++ tail)) = trim_end (c :: s) (length s).
Proof.
  induction tail as [|x tail IH] using rev_ind; intros s Htail.
  - rewrite app_nil_r. reflexivity.
  - apply Forall_app in Htail. destruct Htail as [Htail Hx].
    inversion Hx as [|? ? Hx' _]; subst.
    rewrite app_assoc, trim_end_snoc, Hx'. apply IH. exact Htail.
Qed.

(** What is left after the loop: the first character always, and after
    it nothing or something that does not end in a space or newline. *)
Lemma trim_end_shape c : forall s,
  exists kept tail,
    trim_end (c :: s) (length s) = c :: kept /\ s = kept ++ tail /\
    Forall (fun x => is_ws x = true) tail /\
    (kept = [] \/ exists k x, kept = k ++ [x] /\ is_ws x = false).
Proof.
  induction s as [|x s IH] using rev_ind.
  - exists [], []. repeat split; [constructor | left; reflexivity].
  - rewrite trim_end_snoc. destruct (is_ws x) eqn:Hx.
    + destruct IH as (kept & tail & Ht & Hs & Htail & Hkept).
      exists kept, (tail ++ [x]). rewrite Ht, Hs, <- app_assoc.
      repeat split; [|exact Hkept].
      apply Forall_app. split; [exact Htail | repeat constructor; exact Hx].
    + exists (s ++ [x]), []. rewrite app_nil_r.
      repeat split; [constructor | right; eauto].
Qed.

Lemma trim_end_stable c k x :
  is_ws x = false -> trim_end (c :: k ++ [x]) (length (k ++ [x])) = c :: k ++ [x].
Proof. intros Hx. rewrite trim_end_snoc, Hx. reflexivity. Qed.

End Trimming.

(** X1. [trim] returns a part of its argument: what it leaves out is a run
    of spaces before it and a run of spaces and newlines after it. *)
Theorem trim_removes_only_blanks str :
  exists lead tail,
    str = lead ++ trim str ++ tail /\
    Forall (fun c => c = SP) lead /\ Forall (fun c => is_ws c = true) tail.
Proof.
  destruct (skip_spaces_split str) as (lead & Hs & Hlead).
  unfold trim. destruct (skip_spaces str) as [|c s] eqn:E.
  - exists lead, []. rewrite app_nil_r in Hs. rewrite !app_nil_r.
    repeat split; [exact Hs | exact Hlead | constructor].
  - cbn [length]. rewrite Nat.sub_succ, Nat.sub_0_r.
    destruct (trim_end_shape c s) as (kept & tail & Ht & Hk & Htail & _).
    exists lead, tail. rewrite Ht. cbn [app]. rewrite <- Hk.
    repeat split; assumption.
Qed.

(** X2. The result of [trim] is empty exactly for a string of spaces;
    otherwise it starts with a character that is not a space and, when it
    has more than one character, does not end in a space or newline. The
    first character left after the leading spaces is never removed. *)
Theorem trim_result_shape str :
  (trim str = [] <-> Forall (fun c => c = SP) str) /\
  (forall c rest, trim str = c :: rest ->
     c <> SP /\ (rest = [] \/ exists k x, rest = k ++ [x] /\ is_ws x = false)).
Proof.
  unfold trim. destruct (skip_spaces str) as [|c s] eqn:E.
  - split; [|discriminate]. split; [|intros _; reflexivity]. intros _.
    destruct (skip_spaces_split str) as (lead & Hs & Hlead).
    rewrite E, app_nil_r in Hs. rewrite Hs. exact Hlead.
  - cbn [length]. rewrite Nat.sub_succ, Nat.sub_0_r.
    destruct (trim_end_shape c s) as (kept & tail & Ht & _ & _ & Hkept).
    rewrite Ht. split.
    + split; [discriminate|]. intros Hall.
      rewrite (skip_spaces_all _ Hall) in E. discriminate.
    + intros c' rest [= <- <-]. split; [exact (skip_spaces_head _ _ _ E) | exact Hkept].
Qed.

(** X3. Trimming twice is trimming once. *)
Theorem trim_idempotent str : trim (trim str) = trim str.
Proof.
  destruct (trim_result_shape str) as [_ Hshape].
  destruct (trim str) as [|c rest] eqn:E; [reflexivity|].
  destruct (Hshape c rest eq_refl) as [Hc Hrest].
  unfold trim. rewrite (skip_spaces_id c rest Hc). cbn [length].
  rewrite Nat.sub_succ, Nat.sub_0_r.
  destruct Hrest as [-> | (k & x & -> & Hx)]; [reflexivity|].
  exact (trim_end_stable c k x Hx).
Qed.

(** X4. [trim] gives back exactly the text between the blanks: for a text
    that starts with a character other than a space and is one character
    long or ends in neither space nor newline, with spaces before it and
    spaces and newlines after it. *)
Theorem trim_exact lead c body tail :
  Forall (fun a => a = SP) lead -> c <> SP ->
  (body = [] \/ exists k x, body = k ++ [x] /\ is_ws x = false) ->
  Forall (fun a => is_ws a = true) tail ->
  trim (lead ++ c :: body ++ tail) = c :: body.
Proof.
  intros Hlead Hc Hbody Htail. unfold trim.
  rewrite (skip_spaces_lead lead _ Hlead), (skip_spaces_id c _ Hc). cbn [length].
  rewrite Nat.sub_succ, Nat.sub_0_r, (trim_end_tail c tail body Htail).
  destruct Hbody as [-> | (k & x & -> & Hx)]; [reflexivity|].
  exact (trim_end_stable c k x Hx).
Qed.

Lemma trim_exact_witness :
  trim (lit "   ls -l" ++ [SP; LF]) = lit "ls -l".
Proof.
  exact (trim_exact (lit "   ") "l"%char (lit "s -l") [SP; LF]
           ltac:(repeat constructor) ltac:(discriminate)
           (or_intror (ex_intro _ (lit "s -") (ex_intro _ "l"%char (conj eq_refl eq_refl))))
           ltac:(repeat constructor)).
Defined.

(** *** The words [parse_args] and the split on pipes return *)

Section Words.

Lemma tokens_words delim : forall s, Forall (word_of delim) (tokens s delim).
Proof.
  intros s. remember (length s) as n eqn:Hn. revert s Hn.
  induction n as [n IH] using lt_wf_ind. intros s Hn.
  rewrite tokens_unfold. destruct (strtok s delim) as [[tok|] save] eqn:E;
    [|constructor].
  pose proof (strtok_shorter _ _ _ _ E) as Hlt.
  apply strtok_some_inv in E. destruct E as (lead & _ & Htok & _).
  constructor; [exact Htok|]. apply (IH (length save)); [lia | reflexivity].
Qed.

Lemma keep_plain_run delim l : Forall (delimiter delim) l -> keep_plain delim l = [].
Proof.
  induction 1 as [|c l Hc _ IH]; [reflexivity|].
  unfold keep_plain in *. cbn [List.filter]. unfold delimiter in Hc.
  rewrite Hc. exact IH.
Qed.

Lemma keep_plain_word delim l : Forall (plain delim) l -> keep_plain delim l = l.
Proof.
  induction 1 as [|c l Hc _ IH]; [reflexivity|].
  unfold keep_plain in *. cbn [List.filter]. unfold plain in Hc.
  rewrite Hc. cbn [negb]. f_equal. exact IH.
Qed.

Lemma keep_plain_app delim a b :
  keep_plain delim (a ++ b) = keep_plain delim a ++ keep_plain delim b.
Proof. apply List.filter_app. Qed.

Lemma tokens_concat delim : forall s, concat (tokens s delim) = keep_plain delim s.
Proof.
  intros s. remember (length s) as n eqn:Hn. revert s Hn.
  induction n as [n IH] using lt_wf_ind. intros s Hn.
  rewrite tokens_unfold. destruct (strtok s delim) as [[tok|] save] eqn:E.
  - pose proof (strtok_shorter _ _ _ _ E) as Hlt.
    apply strtok_some_inv in E.
    destruct E as (lead & Hlead & [_ Htok] & [[-> ->] | (x & Hx & ->)]).
    + rewrite keep_plain_app, (keep_plain_run _ _ Hlead), (keep_plain_word _ _ Htok).
      cbn. rewrite app_nil_r. reflexivity.
    + cbn [concat]. rewrite (IH (length save)) by (lia || reflexivity).
      rewrite !keep_plain_app, (keep_plain_run _ _ Hlead), (keep_plain_word _ _ Htok).
      change (x :: save) with ([x] ++ save).
      rewrite keep_plain_app, (keep_plain_run _ [x]) by (repeat constructor; exact Hx).
      reflexivity.
  - assert (Forall (delimiter delim) s) as Hs.
    { apply strtok_none. rewrite E. reflexivity. }
    rewrite (keep_plain_run _ _ Hs). reflexivity.
Qed.

Lemma tokens_join delim sep : forall words,
  sep <> [] -> Forall (delimiter delim) sep -> Forall (word_of delim) words ->
  tokens (join sep words) delim = words.
Proof.
  intros words Hne Hsep. induction 1 as [|w words Hw Hwords IH]; [reflexivity|].
  destruct words as [|w2 words]; [exact (tokens_word delim w Hw)|].
  change (join sep (w :: w2 :: words)) with (w ++ sep ++ join sep (w2 :: words)).
  destruct sep as [|c sep]; [contradiction|].
  inversion Hsep as [|? ? Hc Hsep']; subst.
  cbn [app]. rewrite (tokens_app_delim delim w c _ Hc), (tokens_word delim w Hw).
  rewrite (tokens_run delim sep _ Hsep'), IH. reflexivity.
Qed.

Lemma tokens_trail delim s trail :
  Forall (delimiter delim) trail -> tokens (s ++ trail) delim = tokens s delim.
Proof.
  intros Htrail. destruct Htrail as [|c trail Hc Htrail].
  - rewrite app_nil_r. reflexivity.
  - rewrite (tokens_app_delim delim s c trail Hc).
    pose proof (tokens_run delim trail [] Htrail) as H. rewrite app_nil_r in H.
    rewrite H, tokens_nil, app_nil_r. reflexivity.
Qed.

Lemma space_delimiter c : delimiter (lit " ") c <-> c = SP.
Proof.
  unfold delimiter, strchr_in, lit. cbn [list_ascii_of_string existsb].
  rewrite orb_false_r. apply Ascii.eqb_eq.
Qed.

Lemma bar_delimiter c : delimiter (lit "|") c <-> c = BAR.
Proof.
  unfold delimiter, strchr_in, lit. cbn [list_ascii_of_string existsb].
  rewrite orb_false_r. apply Ascii.eqb_eq.
Qed.

Lemma spaces_run l : Forall (fun c => c = SP) l -> Forall (delimiter (lit " ")) l.
Proof. intros H. eapply Forall_impl; [exact H|]. intros c. apply space_delimiter. Qed.

End Words.

(** X5. [parse_args] stores at most [MAX_ARGS - 1] arguments, so that the
    NULL after them is still inside [args[MAX_ARGS]]; every argument is a
    non-empty string without a space. *)
Theorem parse_args_words cmd :
  (length (parse_args cmd) < MAX_ARGS)%nat /\
  Forall (word_of (lit " ")) (parse_args cmd).
Proof.
  rewrite parse_args_tokens. split.
  - rewrite length_take. unfold MAX_ARGS. lia.
  - apply Forall_take. apply tokens_words.
Qed.

(** X6. The arguments, put end to end, are a beginning of the command
    without its spaces, and all of it when fewer than [MAX_ARGS - 1]
    arguments were found: only spaces are dropped unless the array is
    full. *)
Theorem parse_args_keeps_text cmd :
  concat (parse_args cmd) `prefix_of` keep_plain (lit " ") cmd /\
  ((length (parse_args cmd) < MAX_ARGS - 1)%nat ->
   concat (parse_args cmd) = keep_plain (lit " ") cmd).
Proof.
  rewrite parse_args_tokens, <- tokens_concat. split.
  - exists (concat (drop (MAX_ARGS - 1) (tokens cmd (lit " ")))).
    rewrite <- concat_app, take_drop. reflexivity.
  - rewrite length_take. intros Hlt. rewrite take_ge by lia. reflexivity.
Qed.

Lemma parse_args_keeps_text_witness :
  concat (parse_args (lit " tr  a-z A-Z ")) = lit "tra-zA-Z".
Proof.
  exact (proj2 (parse_args_keeps_text (lit " tr  a-z A-Z "))
           ltac:(vm_compute; lia)).
Defined.

(** X7. Spaces only separate: a space before the command or after it, or
    a second space where there is one, changes nothing in the arguments. *)
Theorem parse_args_ignores_spaces :
  (forall cmd, parse_args (SP :: cmd) = parse_args cmd) /\
  (forall cmd, parse_args (cmd ++ [SP]) = parse_args cmd) /\
  (forall a b, parse_args (a ++ SP :: SP :: b) = parse_args (a ++ SP :: b)).
Proof.
  assert (delimiter (lit " ") SP) as Hsp by (apply space_delimiter; reflexivity).
  split; [|split]; intros; rewrite !parse_args_tokens; f_equal.
  - exact (tokens_run (lit " ") [SP] cmd ltac:(repeat constructor; exact Hsp)).
  - apply tokens_trail. repeat constructor.
  - rewrite (tokens_app_delim (lit " ") a SP (SP :: b) Hsp),
      (tokens_app_delim (lit " ") a SP b Hsp). f_equal.
    exact (tokens_run (lit " ") [SP] b ltac:(repeat constructor; exact Hsp)).
Qed.

(** X8. Typing words and parsing them gives the words back: at most
    [MAX_ARGS - 1] words, each non-empty and without a space, with one or
    more spaces between them and any number of spaces before and after. *)
Theorem parse_args_join lead sep trail words :
  Forall (word_of (lit " ")) words -> (length words <= MAX_ARGS - 1)%nat ->
  sep <> [] -> Forall (fun c => c = SP) sep ->
  Forall (fun c => c = SP) lead -> Forall (fun c => c = SP) trail ->
  parse_args (lead ++ join sep words ++ trail) = words.
Proof.
  intros Hwords Hlen Hne Hsep Hlead Htrail.
  rewrite parse_args_tokens, (tokens_run _ _ _ (spaces_run _ Hlead)),
    (tokens_trail _ _ _ (spaces_run _ Htrail)),
    (tokens_join _ _ _ Hne (spaces_run _ Hsep) Hwords).
  apply take_ge. exact Hlen.
Qed.

Lemma parse_args_join_witness :
  parse_args (lit "  " ++ join (lit "  ") [lit "tr"; lit "a-z"; lit "A-Z"] ++ lit " ")
  = [lit "tr"; lit "a-z"; lit "A-Z"].
Proof.
  apply parse_args_join.
  - repeat constructor; discriminate.
  - vm_compute. lia.
  - discriminate.
  - repeat constructor.
  - repeat constructor.
  - repeat constructor.
Defined.

Section Lines.

Lemma bar_plain c : plain (lit "|") c <-> c <> BAR.
Proof.
  unfold plain, strchr_in, lit. cbn [list_ascii_of_string existsb].
  rewrite orb_false_r. fold BAR.
  destruct (Ascii.eqb_spec c BAR); split; congruence.
Qed.

Lemma typed_char c :
  plain (lit " |" ++ [LF]) c ->
  c <> SP /\ is_ws c = false /\ plain (lit " ") c /\ plain (lit "|") c.
Proof.
  unfold plain, strchr_in, lit, is_ws. cbn [list_ascii_of_string existsb app].
  fold SP BAR.
  destruct (Ascii.eqb_spec c SP) as [->|Hsp]; [discriminate|].
  destruct (Ascii.eqb c BAR); [discriminate|].
  destruct (Ascii.eqb c LF); [discriminate|].
  intros _. repeat split; assumption || reflexivity.
Qed.

Lemma typed_word_space w : typed_word w -> word_of (lit " ") w.
Proof.
  intros [Hne Hw]. split; [exact Hne|].
  eapply Forall_impl; [exact Hw|]. intros c Hc. apply (typed_char c Hc).
Qed.

(** A trimmed text stays as it is between blanks. *)
Lemma trim_tidy lead s tail :
  (exists c r, s = c :: r /\ c <> SP) ->
  (exists k x, s = k ++ [x] /\ is_ws x = false) ->
  Forall (fun a => a = SP) lead -> Forall (fun a => is_ws a = true) tail ->
  trim (lead ++ s ++ tail) = s.
Proof.
  intros (c & r & -> & Hc) (k & x & Hk & Hx) Hlead Htail.
  cbn [app]. apply trim_exact; try assumption.
  destruct k as [|c' k']; cbn [app] in Hk.
  - injection Hk as _ ->. left. reflexivity.
  - injection Hk as _ ->. right. eauto.
Qed.

(** The words of a stage, joined by single spaces, are a trimmed text
    without a pipe character. *)
Lemma join_tidy : forall words,
  words <> [] -> Forall typed_word words ->
  (exists c r, join (lit " ") words = c :: r /\ c <> SP) /\
  (exists k x, join (lit " ") words = k ++ [x] /\ is_ws x = false) /\
  Forall (plain (lit "|")) (join (lit " ") words).
Proof.
  intros words Hne Hwords. induction Hwords as [|w words [Hw Hplain] Hwords IH];
    [contradiction|].
  assert (exists c r, w = c :: r /\ c <> SP) as (c & r & Hcr & Hc).
  { destruct w as [|c r]; [contradiction|]. exists c, r. split; [reflexivity|].
    inversion Hplain; subst. apply (typed_char c). assumption. }
  assert (Forall (plain (lit "|")) w) as Hbar.
  { eapply Forall_impl; [exact Hplain|]. intros a Ha. apply (typed_char a Ha). }
  destruct words as [|w2 words].
  - cbn [join]. split; [eauto|]. split; [|exact Hbar].
    destruct (exists_last Hw) as (k & x & Hk).
    exists k, x. split; [exact Hk|].
    rewrite Hk in Hplain. apply Forall_app in Hplain. destruct Hplain as [_ Hx].
    inversion Hx; subst. apply (typed_char x). assumption.
  - change (join (lit " ") (w :: w2 :: words))
      with (w ++ [SP] ++ join (lit " ") (w2 :: words)).
    destruct (IH ltac:(discriminate)) as (_ & (k & x & Hk & Hx) & Hbar2).
    split; [rewrite Hcr; cbn [app]; eauto|]. split.
    + exists (w ++ [SP] ++ k), x. rewrite Hk, <- !app_assoc. split; [reflexivity | exact Hx].
    + apply Forall_app. split; [exact Hbar|]. apply Forall_app. split; [|exact Hbar2].
      repeat constructor.
Qed.

Lemma blank_plain_bar l : Forall (fun a => is_ws a = true) l -> Forall (plain (lit "|")) l.
Proof.
  intros H. eapply Forall_impl; [exact H|]. intros a Ha. apply bar_plain.
  intros ->. discriminate.
Qed.

(** The split of a typed line, before the capacity is applied. *)
Lemma split_typed : forall segs pre,
  segs <> [] ->
  Forall (fun s => (exists c r, s = c :: r /\ c <> SP) /\
                   (exists k x, s = k ++ [x] /\ is_ws x = false) /\
                   Forall (plain (lit "|")) s) segs ->
  Forall (fun a => a = SP) pre ->
  map trim (tokens (pre ++ join (lit " | ") segs ++ [LF]) (lit "|")) = segs.
Proof.
  intros segs pre Hne Hsegs. revert pre.
  induction Hsegs as [|s segs (Hhd & Hlast & Hbar) Hsegs IH]; [contradiction|].
  intros pre Hpre.
  assert (Forall (plain (lit "|")) pre) as Hprebar.
  { apply blank_plain_bar. eapply Forall_impl; [exact Hpre|]. intros a ->. reflexivity. }
  destruct segs as [|s2 segs].
  - cbn [join]. rewrite tokens_word.
    + cbn [map]. f_equal. apply trim_tidy; try assumption. repeat constructor.
    + split.
      * destruct Hhd as (c & r & -> & _). destruct pre; discriminate.
      * apply Forall_app. split; [exact Hprebar|]. apply Forall_app.
        split; [exact Hbar | repeat constructor].
  - change (join (lit " | ") (s :: s2 :: segs))
      with (s ++ [SP] ++ BAR :: [SP] ++ join (lit " | ") (s2 :: segs)).
    replace (pre ++ (s ++ [SP] ++ BAR :: [SP] ++ join (lit " | ") (s2 :: segs)) ++ [LF])
      with ((pre ++ s ++ [SP]) ++ BAR :: ([SP] ++ join (lit " | ") (s2 :: segs) ++ [LF]))
      by (rewrite <- !app_assoc; reflexivity).
    rewrite tokens_app_delim by (apply bar_delimiter; reflexivity).
    rewrite tokens_word.
    + cbn [map app]. f_equal.
      * apply trim_tidy; try assumption. repeat constructor.
      * apply (IH ltac:(discriminate) [SP]). repeat constructor.
    + split.
      * destruct Hhd as (c & r & -> & _). destruct pre; discriminate.
      * apply Forall_app. split; [exact Hprebar|]. apply Forall_app.
        split; [exact Hbar | repeat constructor].
Qed.

End Lines.

(** X9. The split on pipes stores at most [MAX_CMDS] commands, so that
    [cmds[MAX_CMDS]] is never overrun; no command contains a pipe
    character, and each is trimmed: it does not start with a space and,
    when longer than one character, does not end in a space or newline. *)
Theorem split_pipes_commands input :
  (length (split_pipes input) <= MAX_CMDS)%nat /\
  Forall (fun cmd =>
            Forall (fun c => c <> BAR) cmd /\
            forall c rest, cmd = c :: rest ->
              c <> SP /\ (rest = [] \/ exists k x, rest = k ++ [x] /\ is_ws x = false))
         (split_pipes input).
Proof.
  split; [rewrite split_pipes_length; lia|].
  rewrite split_pipes_tokens. apply Forall_map. apply Forall_take.
  eapply Forall_impl; [apply tokens_words|]. intros tok [_ Htok]. cbn beta. split.
  - destruct (trim_removes_only_blanks tok) as (lead & tail & Hsplit & _).
    rewrite Hsplit in Htok. apply Forall_app in Htok. destruct Htok as [_ Htok].
    apply Forall_app in Htok. destruct Htok as [Htok _].
    eapply Forall_impl; [exact Htok|]. intros c. apply bar_plain.
  - apply trim_result_shape.
Qed.


(** X11. A typed pipeline is parsed back to itself: for at most [MAX_CMDS]
    stages, each of one to [MAX_ARGS - 1] words without space, pipe
    character or newline, the split of the line gives the stages' texts and
    [parse_args] on them gives the words of each stage. *)
Theorem command_line_round_trip stages :
  stages <> [] -> (length stages <= MAX_CMDS)%nat ->
  Forall (fun words => words <> [] /\ (length words <= MAX_ARGS - 1)%nat /\
                       Forall typed_word words) stages ->
  split_pipes (command_line stages) = map (join (lit " ")) stages /\
  map parse_args (split_pipes (command_line stages)) = stages.
Proof.
  intros Hne Hlen Hstages.
  assert (split_pipes (command_line stages) = map (join (lit " ")) stages) as Hsplit.
  { rewrite split_pipes_tokens. unfold command_line.
    pose proof (split_typed (map (join (lit " ")) stages) []) as H.
    cbn [app] in H.
    assert (length (tokens (join (lit " | ") (map (join (lit " ")) stages) ++ [LF]) (lit "|"))
            = length stages) as Hl.
    { rewrite <- (length_map trim), H, length_map; [reflexivity | | | constructor].
      - destruct stages; [contradiction | discriminate].
      - apply Forall_map. eapply Forall_impl; [exact Hstages|].
        intros words (Hw & _ & Htyped). apply join_tidy; assumption. }
    rewrite take_ge by lia. apply H; [| |constructor].
    - destruct stages; [contradiction | discriminate].
    - apply Forall_map. eapply Forall_impl; [exact Hstages|].
      intros words (Hw & _ & Htyped). apply join_tidy; assumption. }
  split; [exact Hsplit|]. rewrite Hsplit, map_map.
  clear Hsplit Hne Hlen. induction Hstages as [|words stages (_ & Hl & Hw) _ IH];
    [reflexivity|].
  cbn [map]. f_equal; [|exact IH].
  pose proof (parse_args_join [] (lit " ") [] words) as H.
  cbn [app] in H. rewrite app_nil_r in H. apply H.
  - eapply Forall_impl; [exact Hw|]. exact typed_word_space.
  - exact Hl.
  - discriminate.
  - repeat constructor.
  - constructor.
  - constructor.
Qed.

Lemma command_line_round_trip_witness :
  map parse_args
    (split_pipes (command_line [[lit "echo"; lit "hello"]; [lit "tr"; lit "a-z"; lit "A-Z"]]))
  = [[lit "echo"; lit "hello"]; [lit "tr"; lit "a-z"; lit "A-Z"]].
Proof.
  apply command_line_round_trip.
  - discriminate.
  - vm_compute. lia.
  - repeat constructor; try discriminate; vm_compute; lia.
Defined.

(** *** Reading a line and testing it for the exit directive *)

Section Reading.

Lemma fgets_chars_spec n : forall stream buf rest,
  fgets_chars n stream = (buf, rest) ->
  buf ++ rest = stream /\ (length buf <= n)%nat /\
  exists body,
    Forall (fun c => c <> LF) body /\
    (buf = body ++ [LF] \/ buf = body /\ (rest = [] \/ length buf = n)).
Proof.
  induction n as [|n IH]; intros [|c stream] buf rest; cbn [fgets_chars].
  - intros [= <- <-]. split; [reflexivity|]. split; [simpl; lia|].
    exists []. split; [constructor|]. right. auto.
  - intros [= <- <-]. split; [reflexivity|]. split; [simpl; lia|].
    exists []. split; [constructor|]. right. auto.
  - intros [= <- <-]. split; [reflexivity|]. split; [simpl; lia|].
    exists []. split; [constructor|]. right. auto.
  - destruct (Ascii.eqb_spec c LF) as [->|Hc].
    + intros [= <- <-]. split; [reflexivity|]. split; [simpl; lia|].
      exists []. split; [constructor|]. left. reflexivity.
    + destruct (fgets_chars n stream) as [l r] eqn:E. intros [= <- <-].
      destruct (IH _ _ _ E) as (Happ & Hlen & body & Hbody & Hcases).
      split; [cbn [app]; f_equal; exact Happ|]. split; [simpl; lia|].
      exists (c :: body). split; [constructor; assumption|].
      destruct Hcases as [-> | [-> Hcut]]; [left; reflexivity|].
      right. split; [reflexivity|]. destruct Hcut as [-> | Hfull]; [left; reflexivity|].
      right. simpl. lia.
Qed.

Lemma uchar_inj c1 c2 : uchar c1 - uchar c2 = 0 -> c1 = c2.
Proof.
  unfold uchar. intros H.
  rewrite <- (ascii_nat_embedding c1), <- (ascii_nat_embedding c2).
  f_equal. lia.
Qed.

Lemma strncmp_zero_iff : forall n s t,
  Forall (fun c => c <> NUL) t -> (n <= length t)%nat ->
  strncmp s t n = 0 <-> take n s = take n t.
Proof.
  induction n as [|n IH]; intros s t Ht Hn; [split; reflexivity|].
  destruct t as [|c2 t]; [simpl in Hn; lia|].
  inversion Ht as [|? ? Hc2 Ht']; subst. cbn [length] in Hn.
  cbn [strncmp firstn]. destruct s as [|c1 s]; cbn [deref hd tl firstn].
  - destruct (Ascii.eqb_spec NUL c2) as [<-|Hne]; [contradiction|]. cbn [negb].
    split; [|discriminate]. intros H. apply uchar_inj in H. contradiction.
  - destruct (Ascii.eqb_spec c1 c2) as [->|Hne]; cbn [negb].
    + destruct (Ascii.eqb_spec c2 NUL) as [->|_]; [contradiction|].
      destruct (IH s t Ht' ltac:(lia)) as [H1 H2].
      split; [intros H; f_equal; exact (H1 H) | intros [= H]; exact (H2 H)].
    + split; [intros H; apply uchar_inj in H; contradiction | intros [= H _]; contradiction].
Qed.

Lemma fgets_spec size stream buf rest :
  fgets size stream = Some (buf, rest) ->
  buf ++ rest = stream /\ (length buf <= size - 1)%nat /\
  exists body,
    Forall (fun c => c <> LF) body /\
    (buf = body ++ [LF] \/ buf = body /\ (rest = [] \/ length buf = (size - 1)%nat)).
Proof.
  destruct stream as [|c stream]; [discriminate|]. unfold fgets.
  generalize (size - 1)%nat. intros n H.
  destruct (fgets_chars n (c :: stream)) as [l r] eqn:E.
  assert (l = buf /\ r = rest) as [<- <-] by (split; congruence).
  exact (fgets_chars_spec n _ _ _ E).
Qed.

End Reading.

(** X12. What [fgets] stores for a line: a beginning of the input, of one
    to [MAX_LINE - 1] characters, the rest being left for the next call; it
    has a newline in last place only, and when it has none the line was cut
    by the end of the input or by the size of the buffer, the rest of an
    overlong line being read as the next line. *)
Theorem fgets_line stream buf rest :
  fgets MAX_LINE stream = Some (buf, rest) ->
  buf ++ rest = stream /\ (1 <= length buf < MAX_LINE)%nat /\
  exists body,
    Forall (fun c => c <> LF) body /\
    (buf = body ++ [LF] \/
     buf = body /\ (rest = [] \/ length buf = (MAX_LINE - 1)%nat)).
Proof.
  intros H. pose proof (fgets_shorter _ _ _ H) as Hlt.
  apply fgets_spec in H.
  destruct H as (Happ & Hlen & Hbody). split; [exact Happ|]. split; [|exact Hbody].
  apply (f_equal length) in Happ. rewrite length_app in Happ.
  unfold MAX_LINE in *. lia.
Qed.

Lemma fgets_line_witness :
  exists buf rest,
    fgets MAX_LINE (lit "ls" ++ [LF] ++ lit "wc") = Some (buf, rest) /\
    buf ++ rest = lit "ls" ++ [LF] ++ lit "wc" /\ (1 <= length buf < MAX_LINE)%nat.
Proof.
  exists (lit "ls" ++ [LF]), (lit "wc").
  destruct (fgets_line (lit "ls" ++ [LF] ++ lit "wc") (lit "ls" ++ [LF]) (lit "wc") eq_refl)
    as (Happ & Hlen & _).
  split; [reflexivity|]. split; assumption.
Defined.

(** X13. The exit test of [main] holds exactly for the lines whose first
    four characters are e, x, i, t: nothing before them is skipped and
    nothing after them is looked at. *)
Theorem exit_test_is_prefix_test input :
  strncmp input (lit "exit") 4 = 0 <-> take 4 input = lit "exit".
Proof.
  apply (strncmp_zero_iff 4 input (lit "exit")).
  - repeat constructor; discriminate.
  - reflexivity.
Qed.

(** *** Whole runs of the shell *)

Section Runs.

Variable w : world.

Lemma stage_workers_maps T0 N : forall cmds i k pid ws,
  stage_workers w T0 N cmds i k pid ws ->
  map w_args ws = map parse_args cmds /\
  map w_pid ws = seq pid (length cmds) /\
  map w_stage ws = map (fun j => i + Z.of_nat j) (seq 0 (length cmds)).
Proof.
  induction cmds as [|cmd cmds IH]; intros i k pid [|wk ws] H; try contradiction.
  - repeat split.
  - destruct H as [(Hpid & Hst & Hargs & _ & _) Hrest].
    apply IH in Hrest. destruct Hrest as (Ha & Hp & Hs).
    cbn [map length seq]. rewrite Ha, Hp, Hs, Hpid, Hst, Hargs, Z.add_0_r.
    repeat split. f_equal.
    rewrite <- seq_shift, map_map. apply map_ext. intros j. lia.
Qed.

Lemma run_line_workers line st st' :
  run_line w line st = (Next, st') ->
  exists ws,
    workers st' = workers st ++ ws /\
    stage_workers w (fds st) (Z.of_nat (length (split_pipes line))) (split_pipes line) 0
      (n_pipes st) (S (n_forks st)) ws.
Proof.
  unfold run_line.
  destruct (spawn_loop w (split_pipes line) 0 (Z.of_nat (length (split_pipes line)))
              (-1) pipefd_unset st) as [[|status] st1] eqn:Hsp; [|discriminate].
  intros [= <-]. apply build_next in Hsp. destruct Hsp as (evs & ws & Hrest).
  do 11 destruct Hrest as [_ Hrest]. destruct Hrest as (Hwk & _ & Hws).
  exists ws. split; [|exact Hws].
  destruct (wait_loop_frame w (length (split_pipes line)) st1) as (_ & _ & _ & _ & ->).
  exact Hwk.
Qed.

Lemma standard_fds input fd :
  is_Some (fds (initial_state input) !! fd) <-> (fd < 3)%nat.
Proof.
  cbn [fds initial_state].
  rewrite !lookup_insert. repeat case_decide; subst;
    try (split; [lia | eauto]).
  rewrite lookup_singleton. case_decide; subst; split; try lia; eauto.
  intros [x Hx]. discriminate.
Qed.

Lemma stage_fds_standard input N i k fd :
  is_Some (stage_fds (fds (initial_state input)) N i k !! fd) <-> (fd < 3)%nat.
Proof.
  rewrite <- (standard_fds input fd). unfold stage_fds.
  destruct (0 <? i); destruct (i <? N - 1);
    rewrite ?lookup_insert; repeat case_decide; subst; try reflexivity;
    (split; [intros _; apply (standard_fds input); lia | eauto]).
Qed.

(** Every turn of the loop starts with the shell settled. *)
Lemma loop_head_settled input st : loop_head w input st -> settled st.
Proof.
  induction 1 as [|st buf rest st' Hhead (Hnone & Hnw & Hpids & Hdom) Hg He Hr].
  - repeat split. constructor.
  - pose proof (loop_head_idle w input st Hhead) as (_ & _ & Hfds).
    destruct (run_line_next w (c_str buf)
                (set_stdin rest (emit (EPrintf "cmpsh> ") st)) st' Hnone Hr)
      as (evs & reaped & _ & _ & _ & _ & Hch & Hnf & Hnw' & _).
    destruct (run_line_workers _ _ _ Hr) as (ws & Hwk & Hws).
    cbn [fds n_pipes n_forks n_waits workers set_stdin emit] in Hnf, Hnw', Hwk, Hws.
    pose proof (stage_workers_maps _ _ _ _ _ _ _ Hws) as (_ & Hp & _).
    apply stage_workers_lookup in Hws. destruct Hws as [Hlen Hws].
    split; [exact Hch|]. split; [lia|]. split.
    + rewrite Hwk, map_app, Hpids, Hp, Hnf, seq_app. reflexivity.
    + rewrite Hwk. apply Forall_app. split; [exact Hdom|].
      apply Forall_lookup. intros j wk Hj fd.
      destruct (Hws j wk Hj) as (cmd & _ & _ & _ & _ & Hfd & _).
      rewrite Hfds in Hfd. rewrite Hfd.
      * apply stage_fds_standard.
      * apply (standard_fds input). lia.
      * apply (standard_fds input). lia.
Qed.

(** When [main] returns, it does so from the head of the loop, having
    changed nothing but the log and the input read. *)
Lemma main_loop_return input : forall fuel st v st_end,
  loop_head w input st ->
  main_loop w fuel st = Some (Return v, st_end) ->
  v = 0 /\
  exists st_h,
    loop_head w input st_h /\
    children st_end = children st_h /\ fds st_end = fds st_h /\
    n_waits st_end = n_waits st_h /\ n_forks st_end = n_forks st_h /\
    workers st_end = workers st_h.
Proof.
  induction fuel as [|fuel IH]; intros st v st_end Hhead H; [discriminate|].
  destruct (fgets MAX_LINE (stdin st)) as [[buf rest]|] eqn:Hg.
  - destruct (Z.eq_dec (strncmp (c_str buf) (lit "exit") 4) 0) as [He|He].
    + rewrite (main_loop_exit_line _ _ _ _ _ Hg He) in H. injection H as <- <-.
      split; [reflexivity|]. exists st. repeat split. exact Hhead.
    + rewrite (main_loop_line _ _ _ _ _ Hg He) in H.
      destruct (run_line w (c_str buf) (set_stdin rest (emit (EPrintf "cmpsh> ") st)))
        as [[|status] st'] eqn:Hr; [|discriminate].
      apply (IH st' v st_end); [|exact H].
      exact (head_next w input st buf rest st' Hhead Hg He Hr).
  - apply fgets_none in Hg. rewrite main_loop_eof in H by exact Hg.
    injection H as <- <-. split; [reflexivity|]. exists st. repeat split. exact Hhead.
Qed.

(** How a run can end: by [return 0], or by [exit(1)] right after a
    [perror] for [pipe] or [fork]. *)
Lemma main_loop_ends : forall fuel st r st_end,
  main_loop w fuel st = Some (r, st_end) ->
  r = Return 0 \/
  (r = ExitCall 1 /\ exists evs msg,
     log st_end = evs ++ [EPerror msg] /\ (msg = "pipe"%string \/ msg = "fork"%string)).
Proof.
  induction fuel as [|fuel IH]; intros st r st_end H; [discriminate|].
  destruct (fgets MAX_LINE (stdin st)) as [[buf rest]|] eqn:Hg.
  - destruct (Z.eq_dec (strncmp (c_str buf) (lit "exit") 4) 0) as [He|He].
    + rewrite (main_loop_exit_line _ _ _ _ _ Hg He) in H. injection H as <- <-. left. reflexivity.
    + rewrite (main_loop_line _ _ _ _ _ Hg He) in H. unfold run_line in H.
      destruct (spawn_loop w (split_pipes (c_str buf)) 0
                  (Z.of_nat (length (split_pipes (c_str buf)))) (-1) pipefd_unset
                  (set_stdin rest (emit (EPrintf "cmpsh> ") st)))
        as [[|status] st'] eqn:Hsp.
      * exact (IH _ _ _ H).
      * injection H as <- <-. apply spawn_loop_exit in Hsp.
        destruct Hsp as (-> & evs & msg & (Hlog & _) & Hmsg & _).
        right. split; [reflexivity|].
        exists (log (set_stdin rest (emit (EPrintf "cmpsh> ") st)) ++ evs), msg.
        rewrite Hlog, <- app_assoc. split; [reflexivity | exact Hmsg].
  - apply fgets_none in Hg. rewrite main_loop_eof in H by exact Hg.
    injection H as <- <-. left. reflexivity.
Qed.



End Runs.

(** X14. Whenever [main] returns, on any input and whatever failed in the
    children, it returns 0 with the shell settled: no child is left
    unreaped, [wait] was called once per child forked, its descriptor table
    is the one it started with, and every worker of the run called
    [execvp] with exactly descriptors 0, 1 and 2 open. *)
Theorem main_returns_settled w input v st :
  main w input = Some (Return v, st) ->
  v = 0 /\ settled st /\ fds st = fds (initial_state input).
Proof.
  unfold main. intros H.
  destruct (main_loop_return w input _ _ _ _ (head_start w input) H)
    as (Hv & st_h & Hhead & Hch & Hfds & Hnw & Hnf & Hwk).
  pose proof (loop_head_settled w input st_h Hhead) as (Hs1 & Hs2 & Hs3 & Hs4).
  pose proof (loop_head_idle w input st_h Hhead) as (_ & _ & Hfds0).
  split; [exact Hv|]. split; [|congruence].
  unfold settled. rewrite Hch, Hnw, Hnf, Hwk. repeat split; assumption.
Qed.

Lemma main_returns_settled_witness :
  exists st,
    main (with_exec calm (exec_fails_for 2)) (lit "ls | nosuch | wc" ++ [LF] ++ lit "exit")
    = Some (Return 0, st) /\
    settled st /\ fds st = fds (initial_state []).
Proof.
  eexists. split; [vm_compute; reflexivity|].
  refine (proj2 (main_returns_settled (with_exec calm (exec_fails_for 2))
                   (lit "ls | nosuch | wc" ++ [LF] ++ lit "exit") 0 _ _)).
  vm_compute. reflexivity.
Defined.

(** X15. [main] ends in one of two ways only: it returns 0, or it calls
    [exit(1)], and then the last thing it did was to report a failed
    [pipe] or [fork] with [perror]. *)
Theorem main_exit_status w input r st :
  main w input = Some (r, st) ->
  r = Return 0 \/
  (r = ExitCall 1 /\ exists evs msg,
     log st = evs ++ [EPerror msg] /\ (msg = "pipe"%string \/ msg = "fork"%string)).
Proof. unfold main. apply main_loop_ends. Qed.

Lemma main_exit_status_witness :
  exists st evs msg,
    main (pipe_fails_at 1) (lit "a | b | c" ++ [LF]) = Some (ExitCall 1, st) /\
    log st = evs ++ [EPerror msg].
Proof.
  destruct (main (pipe_fails_at 1) (lit "a | b | c" ++ [LF])) as [[r st]|] eqn:E;
    [|vm_compute in E; discriminate].
  destruct (main_exit_status _ _ _ _ E) as [-> | (-> & evs & msg & Hlog & _)].
  - vm_compute in E. discriminate.
  - exists st, evs, msg. split; [reflexivity | exact Hlog].
Defined.



(** X17. Each worker of a line calls [execvp] with the arguments
    [parse_args] finds in its own segment of the line, the workers being
    forked in the order of the segments; for a typed pipeline, these are the
    words typed for each stage. *)
Theorem workers_get_their_words w line st :
  trouble w (n_pipes st) (n_forks st) (length (split_pipes line)) = false ->
  exists st' ws,
    run_line w line st = (Next, st') /\
    workers st' = workers st ++ ws /\
    map w_args ws = map parse_args (split_pipes line) /\
    map w_stage ws = map Z.of_nat (seq 0 (length (split_pipes line))) /\
    (forall stages,
       stages <> [] -> (length stages <= MAX_CMDS)%nat ->
       Forall (fun words => words <> [] /\ (length words <= MAX_ARGS - 1)%nat /\
                            Forall typed_word words) stages ->
       line = command_line stages -> map w_args ws = stages).
Proof.
  intros Hcalm.
  destruct (run_line w line st) as [fl st'] eqn:Hr.
  pose proof (run_line_flow w line st) as Hfl.
  rewrite Hr, Hcalm in Hfl. cbn [fst] in Hfl. subst fl.
  destruct (run_line_workers w _ _ _ Hr) as (ws & Hwk & Hws).
  apply stage_workers_maps in Hws. destruct Hws as (Hargs & _ & Hstage).
  exists st', ws. repeat split; try assumption.
  intros stages Hne Hlen Hst ->. rewrite Hargs.
  exact (proj2 (command_line_round_trip stages Hne Hlen Hst)).
Qed.

Lemma workers_get_their_words_witness :
  exists st' ws,
    run_line calm (command_line [[lit "echo"; lit "hello"]; [lit "tr"; lit "a-z"; lit "A-Z"]])
      (initial_state []) = (Next, st') /\
    workers st' = ws /\
    map w_args ws = [[lit "echo"; lit "hello"]; [lit "tr"; lit "a-z"; lit "A-Z"]].
Proof.
  destruct (workers_get_their_words calm
              (command_line [[lit "echo"; lit "hello"]; [lit "tr"; lit "a-z"; lit "A-Z"]])
              (initial_state []) eq_refl)
    as (st' & ws & Hr & Hwk & _ & _ & Hwords).
  exists st', ws. split; [exact Hr|]. split; [exact Hwk|].
  apply Hwords.
  - discriminate.
  - vm_compute. lia.
  - repeat constructor; try discriminate; vm_compute; lia.
  - reflexivity.
Defined.

(** *** What a child that fails leaves behind *)

Section Leaving.

Variable w : world.

Lemma shell_buffers_event st st' e :
  log st' = log st ++ [e] -> stdin st' = stdin st ->
  (forall s, e <> EPrintf s) ->
  shell_buffers w st' = shell_buffers w st.
Proof.
  intros Hlog Hin He. unfold shell_buffers, printed, prompts.
  rewrite Hlog, Hin, flat_map_app, omap_app.
  destruct e; try (exfalso; eapply He; reflexivity);
    cbn [flat_map omap]; rewrite !app_nil_r; reflexivity.
Qed.

Lemma shell_buffers_add_child ch st :
  shell_buffers w (add_child ch st) = shell_buffers w st.
Proof. apply (shell_buffers_event _ _ (EFork (w_pid ch))); try reflexivity. discriminate. Qed.

Lemma shell_buffers_do_close fd st :
  shell_buffers w (do_close fd st) = shell_buffers w st.
Proof. apply (shell_buffers_event _ _ (EClose fd)); try reflexivity. discriminate. Qed.

Lemma shell_buffers_perror msg st :
  shell_buffers w (emit (EPerror msg) st) = shell_buffers w st.
Proof. apply (shell_buffers_event _ _ (EPerror msg)); try reflexivity. discriminate. Qed.

Lemma shell_buffers_close_prev prev st :
  shell_buffers w (if negb (prev =? -1) then do_close prev st else st)
  = shell_buffers w st.
Proof. destruct (negb (prev =? -1)); [apply shell_buffers_do_close | reflexivity]. Qed.

Lemma workers_close_prev prev st :
  workers (if negb (prev =? -1) then do_close prev st else st) = workers st.
Proof. destruct (negb (prev =? -1)); reflexivity. Qed.

Lemma child_leaves pid i N prev pf t b cmd :
  leaves_with w b (child w pid i N prev pf t b cmd).
Proof.
  unfold leaves_with, child. cbn [w_end w_flush w_seek w_fds].
  destruct (verdict w pid (parse_args cmd)); split; reflexivity.
Qed.

(** The construction loop prints nothing and reads nothing: every
    worker of a line is forked with the same buffers. *)
Lemma spawn_loop_leaves N : forall cmds i prev pf st fl st',
  spawn_loop w cmds i N prev pf st = (fl, st') ->
  shell_buffers w st' = shell_buffers w st /\
  exists ws, workers st' = workers st ++ ws /\
             Forall (leaves_with w (shell_buffers w st)) ws.
Proof.
  induction cmds as [|cmd cmds' IH]; intros i prev pf st fl st' H.
  - injection H as _ <-. split; [reflexivity|]. exists [].
    rewrite app_nil_r. split; [reflexivity | constructor].
  - rewrite spawn_loop_cons in H.
    assert (forall pfd st1,
              shell_buffers w st1 = shell_buffers w st -> workers st1 = workers st ->
              (if fork_fails w (n_forks st1)
               then (Exit 1, emit (EPerror "fork") st1)
               else
                 let pid := S (n_forks st1) in
                 let st2 :=
                   add_child (child w pid i N prev pfd (fds st1)
                                (shell_buffers w st1) cmd) st1 in
                 let st2 := if negb (prev =? -1) then do_close prev st2 else st2 in
                 if i <? N - 1
                 then spawn_loop w cmds' (i + 1) N (fst pfd) pfd
                        (do_close (snd pfd) st2)
                 else spawn_loop w cmds' (i + 1) N prev pfd st2) = (fl, st') ->
              shell_buffers w st' = shell_buffers w st /\
              exists ws, workers st' = workers st ++ ws /\
                         Forall (leaves_with w (shell_buffers w st)) ws) as Hfork.
    { intros pfd st1 Hb Hw Hrun.
      destruct (fork_fails w (n_forks st1)).
      - injection Hrun as _ <-. rewrite shell_buffers_perror.
        split; [exact Hb|]. exists []. rewrite app_nil_r.
        split; [exact Hw | constructor].
      - cbv zeta in Hrun.
        set (ch := child w (S (n_forks st1)) i N prev pfd (fds st1)
                     (shell_buffers w st1) cmd) in *.
        destruct (i <? N - 1); apply IH in Hrun;
          destruct Hrun as (Hb' & ws & Hws & Hall);
          rewrite ?shell_buffers_do_close, shell_buffers_close_prev,
            shell_buffers_add_child in Hb', Hall;
          cbn [do_close emit set_fds workers] in Hws;
          rewrite workers_close_prev in Hws; cbn [add_child emit workers] in Hws;
          (split; [congruence|]); exists (ch :: ws);
          (split; [rewrite Hws, Hw, <- app_assoc; reflexivity|]);
          rewrite Hb in Hall; (constructor; [|exact Hall]);
          rewrite <- Hb; apply child_leaves. }
    destruct (i <? N - 1) eqn:Hi.
    + destruct (do_pipe w st) as [[fresh|] st1] eqn:Hp.
      * apply do_pipe_some in Hp.
        destruct Hp as (rd & wr & -> & _ & _ & _ & _ & _ & _ & _ & Hin & _ & Hw & Hlog & _).
        apply (Hfork (Z.of_nat rd, Z.of_nat wr) st1); [| exact Hw |].
        -- apply (shell_buffers_event _ _ _ Hlog Hin). discriminate.
        -- exact H.
      * apply do_pipe_none in Hp. destruct Hp as [-> _].
        injection H as _ <-. rewrite shell_buffers_perror.
        split; [reflexivity|]. exists []. rewrite app_nil_r.
        split; [reflexivity | constructor].
    + apply (Hfork pf st); [reflexivity | reflexivity |].
      exact H.
Qed.

End Leaving.

(** X27. What the [exit] of a child whose [execvp] failed does, on a line
    built without a failure of [pipe] or [fork] by a shell with
    descriptors 0 and 1 open. All children of the line start with the
    buffers the shell has at the start of the line. A child that does not
    reach [exit] writes nothing and moves nothing. A child that does
    writes what is held for [stdout], if anything: a stage that is not the
    last writes it into its pipe, which is what the next stage has on
    descriptor 0; the last stage writes it where the shell writes. Only
    the first stage can move the offset of the shell's input, and only
    when input was read ahead. *)
Theorem failed_stage_leaves_its_buffers w cmds pf st :
  trouble w (n_pipes st) (n_forks st) (length cmds) = false ->
  is_Some (fds st !! (0%nat)) -> is_Some (fds st !! (1%nat)) ->
  exists st' ws,
    spawn_loop w cmds 0 (Z.of_nat (length cmds)) (-1) pf st = (Next, st') /\
    workers st' = workers st ++ ws /\
    forall (j : nat) wk, ws !! j = Some wk ->
      (w_end wk <> ChildExit "execvp" 1 -> w_flush wk = None /\ w_seek wk = None) /\
      (w_end wk = ChildExit "execvp" 1 ->
       (out_held (shell_buffers w st) = [] -> w_flush wk = None) /\
       (out_held (shell_buffers w st) <> [] ->
        if decide (S j = length cmds)
        then w_flush wk =
             option_map (fun f => (f, out_held (shell_buffers w st)))
               (fds st !! (1%nat))
        else w_flush wk =
             Some (PipeWrite (n_pipes st + j), out_held (shell_buffers w st)) /\
             exists nxt, ws !! S j = Some nxt /\
                         w_fds nxt !! (0%nat) = Some (PipeRead (n_pipes st + j))) /\
       (j <> 0%nat -> w_seek wk = None) /\
       (in_ahead (shell_buffers w st) = 0%nat -> w_seek wk = None)).
Proof.
  intros Hcalm Hs0 Hs1.
  destruct (spawn_loop w cmds 0 (Z.of_nat (length cmds)) (-1) pf st) as [fl st'] eqn:H.
  pose proof (spawn_loop_flow w (Z.of_nat (length cmds)) cmds 0 (-1) pf st) as Hfl.
  rewrite H, Hcalm in Hfl. cbn [fst] in Hfl. specialize (Hfl eq_refl). subst fl.
  pose proof (spawn_loop_leaves w _ _ _ _ _ _ _ _ H) as (_ & ws' & Hwk' & Hall).
  pose proof (build_next w _ _ _ _ H) as (evs & ws & Hrest).
  do 11 destruct Hrest as [_ Hrest]. destruct Hrest as (Hwk & Hlen & Hws).
  assert (ws' = ws) as -> by (rewrite Hwk in Hwk'; exact (eq_sym (app_inv_head _ _ _ Hwk'))).
  exists st', ws. split; [reflexivity|]. split; [exact Hwk|].
  apply stage_workers_lookup in Hws. destruct Hws as [_ Hws].
  intros j wk Hj.
  assert (j < length cmds)%nat as Hjlt.
  { rewrite <- Hlen. apply lookup_lt_is_Some. eauto. }
  destruct (Hws j wk Hj) as (cmd & _ & _ & _ & _ & Hfds & Hend).
  specialize (Hfds Hs0 Hs1).
  pose proof (proj1 (Forall_lookup _ _) Hall j wk Hj) as Hleave.
  unfold leaves_with in Hleave.
  split.
  { intros Hne. destruct (w_end wk) as [|err status|] eqn:Hwe; try exact Hleave.
    exfalso. apply Hne. unfold verdict in Hend.
    destruct (parse_args cmd); [discriminate Hend|].
    destruct (exec_fails w (S (n_forks st) + j) _); [exact Hend | discriminate Hend]. }
  intros Hwe. rewrite Hwe in Hleave. destruct Hleave as [Hfl Hsk].
  set (b := shell_buffers w st) in *.
  assert (w_fds wk !! (1%nat) =
          if decide (S j = length cmds) then fds st !! (1%nat)
          else Some (PipeWrite (n_pipes st + j))) as H1.
  { rewrite Hfds. unfold stage_fds.
    destruct (Z.ltb_spec 0 (0 + Z.of_nat j));
      destruct (Z.ltb_spec (0 + Z.of_nat j) (Z.of_nat (length cmds) - 1));
      destruct (decide (S j = length cmds)); try lia;
      rewrite ?lookup_insert_eq, ?lookup_insert_ne by lia; reflexivity. }
  assert (j <> 0%nat -> w_fds wk !! (0%nat) = Some (PipeRead (n_pipes st + j - 1))) as H0.
  { intros Hj0. rewrite Hfds. unfold stage_fds.
    destruct (Z.ltb_spec 0 (0 + Z.of_nat j)); [|lia].
    destruct (Z.ltb_spec (0 + Z.of_nat j) (Z.of_nat (length cmds) - 1));
      rewrite ?lookup_insert_ne by lia; rewrite lookup_insert_eq; reflexivity. }
  split; [|split; [|split]].
  - intros Hnone. rewrite Hfl. unfold exit_flush. rewrite Hnone. reflexivity.
  - intros Hheld. rewrite Hfl. unfold exit_flush. rewrite H1.
    destruct (out_held b) as [|c held] eqn:Hb; [contradiction|].
    destruct (decide (S j = length cmds)) as [Hlast|Hmid].
    + destruct (fds st !! (1%nat)); reflexivity.
    + split; [reflexivity|].
      assert (S j < length ws)%nat as Hnext by lia.
      destruct (lookup_lt_is_Some_2 ws (S j) Hnext) as [nxt Hnxt].
      exists nxt. split; [exact Hnxt|].
      destruct (Hws (S j) nxt Hnxt) as (cmd' & _ & _ & _ & _ & Hfds' & _).
      rewrite (Hfds' Hs0 Hs1). unfold stage_fds.
      destruct (Z.ltb_spec 0 (0 + Z.of_nat (S j))); [|lia].
      destruct (Z.ltb_spec (0 + Z.of_nat (S j)) (Z.of_nat (length cmds) - 1));
        rewrite ?lookup_insert_ne by lia; rewrite lookup_insert_eq;
        do 2 f_equal; lia.
  - intros Hj0. rewrite Hsk. unfold exit_seek. rewrite (H0 Hj0). reflexivity.
  - intros Hnone. rewrite Hsk. unfold exit_seek. rewrite Hnone.
    destruct (w_fds wk !! (0%nat)) as [[fd| |]|]; try reflexivity.
    rewrite andb_false_r. reflexivity.
Qed.

Lemma failed_stage_leaves_its_buffers_witness :
  exists st' wk nxt,
    spawn_loop (with_exec script (exec_fails_for 1))
      (split_pipes (lit "nosuch | cat" ++ [LF])) 0 2 (-1) pipefd_unset
      (emit (EPrintf "cmpsh> ") (initial_state [])) = (Next, st') /\
    workers st' = [wk; nxt] /\
    w_flush wk = Some (PipeWrite 0, lit "cmpsh> ") /\
    w_fds nxt !! (0%nat) = Some (PipeRead 0).
Proof.
  destruct (failed_stage_leaves_its_buffers (with_exec script (exec_fails_for 1))
              (split_pipes (lit "nosuch | cat" ++ [LF])) pipefd_unset
              (emit (EPrintf "cmpsh> ") (initial_state [])))
    as (st' & ws & Hrun & Hwk & Hws).
  - reflexivity.
  - eexists. reflexivity.
  - eexists. reflexivity.
  - pose proof (f_equal snd Hrun) as Hst. cbn [snd] in Hst. subst st'.
    vm_compute in Hwk.
    destruct ws as [|wk [|nxt [|more ws]]]; try discriminate Hwk.
    injection Hwk as Hw1 Hw2.
    eexists. exists wk, nxt. split; [exact Hrun|].
    split; [rewrite <- Hw1, <- Hw2; vm_compute; reflexivity|].
    destruct (Hws 0%nat wk eq_refl) as (_ & Hexit).
    assert (w_end wk = ChildExit "execvp" 1) as Hend by (rewrite <- Hw1; reflexivity).
    destruct (Hexit Hend) as (_ & Hflush & _).
    destruct (Hflush ltac:(discriminate)) as (Hfl & nxt' & Hn & Hfd).
    injection Hn as <-. split; [exact Hfl | exact Hfd].
Defined.

(** * Properties of src/examples/semaphores.c *)

Module SemaphoresRun.
Import Semaphores.

Lemma run_invariant (w : world) (P : state -> Prop) :
  (forall s p s', P s -> step w p s = Some s' -> P s') ->
  forall sched s, P s -> P (run w sched s).
Proof.
  intros Hstep. induction sched as [|p sched IH]; intros s Hs; [exact Hs|].
  cbn [run]. apply IH. destruct (step w p s) as [s'|] eqn:E; [|exact Hs].
  exact (Hstep s p s' Hs E).
Qed.

Lemma snoc_split {A} (l : list A) x pre y post :
  l ++ [x] = pre ++ y :: post ->
  (post = [] /\ pre = l /\ y = x) \/
  (exists post', post = post' ++ [x] /\ l = pre ++ y :: post').
Proof.
  intros H. destruct post as [|z post' _] using rev_ind.
  - left. apply app_inj_tail in H. destruct H as [-> ->]. repeat split.
  - right. exists post'.
    change (pre ++ y :: post' ++ [z]) with (pre ++ (y :: post') ++ [z]) in H.
    rewrite app_assoc in H. apply app_inj_tail in H. destruct H as [-> ->].
    split; reflexivity.
Qed.

Lemma coupled_forked w : coupled w forked.
Proof.
  split; cbn; try congruence.
  - intros [H|[H|H]]; discriminate.
  - intros pre post H. destruct pre; discriminate.
  - intros v [= <-]. lia.
Qed.

Lemma C_after_A_snoc s e :
  e <> Printf Parent text_C ->
  (forall pre post, out s = pre ++ Printf Parent text_C :: post ->
     In (Printf Child text_A) pre) ->
  forall pre post, out s ++ [e] = pre ++ Printf Parent text_C :: post ->
     In (Printf Child text_A) pre.
Proof.
  intros Hne Hd pre post H. apply snoc_split in H.
  destruct H as [(_ & _ & H) | (post' & _ & H)]; [congruence|].
  exact (Hd _ _ H).
Qed.

Lemma coupled_parent_step w s s' :
  coupled w s -> parent_step w s = Some s' -> coupled w s'.
Proof.
  intros [Ha Hb Hc Hd He Hf Hh] Hstep.
  unfold parent_step in Hstep. destruct (parent s) eqn:Hp; try discriminate.
  - unfold down, semop in Hstep. destruct (sem s) as [v|] eqn:Hs.
    2:{ specialize (He eq_refl). congruence. }
    destruct (semop_fails w Parent).
    { injection Hstep as <-. split; cbn; rewrite ?Hs; try assumption.
      - intros Hne. apply in_or_app. left. exact (Ha Hne).
      - intros [H|[H|H]]; discriminate.
      - apply C_after_A_snoc; [discriminate|assumption].
      - discriminate. }
    destruct v as [|v]; [discriminate|].
    specialize (Hf _ eq_refl). assert (v = O) as -> by lia.
    cbn in Hstep. injection Hstep as <-. split; cbn; try assumption.
    + intros v [= H].
    + intros _. exact (Hb O eq_refl).
    + discriminate.
    + intros v [= <-]. lia.
  - injection Hstep as <-. split; cbn; try assumption.
    + intros Hne. apply in_or_app. left. exact (Ha Hne).
    + intros _. apply Hc. left. reflexivity.
    + intros pre post H. apply snoc_split in H.
      destruct H as [(_ & -> & _) | (post' & _ & H)]; [|exact (Hd _ _ H)].
      apply Ha. destruct (Hc (or_introl eq_refl)) as [H | H]; rewrite H; discriminate.
    + intros Hs. specialize (He Hs). congruence.
  - destruct (sem s) as [v|] eqn:Hs; [|specialize (He eq_refl); congruence].
    destruct (rmid_fails w); injection Hstep as <-; split; cbn; rewrite ?Hs;
      try assumption.
    + intros Hne. apply in_or_app. left. exact (Ha Hne).
    + intros [H|[H|H]]; discriminate.
    + apply C_after_A_snoc; [discriminate|assumption].
    + discriminate.
    + discriminate.
    + intros _. apply Hc. right. left. reflexivity.
    + reflexivity.
    + discriminate.
Qed.

Lemma coupled_child_step w s s' :
  coupled w s -> child_step w s = Some s' -> coupled w s'.
Proof.
  intros [Ha Hb Hc Hd He Hf Hh] Hstep.
  unfold child_step in Hstep. destruct (child s) eqn:Hch; try discriminate.
  - injection Hstep as <-.
    assert (sem s <> None /\ forall v, sem s <> Some (S v)) as [Hs1 Hs2].
    { split.
      - intros Hs. specialize (He Hs).
        destruct (Hc (or_intror (or_intror He))); discriminate.
      - intros v Hs. destruct (Hb v Hs); discriminate. }
    split; cbn; try assumption.
    + intros _. apply in_or_app. right. left. reflexivity.
    + intros v Hs. destruct (Hs2 v Hs).
    + intros H. destruct (Hc H); discriminate.
    + apply C_after_A_snoc; [discriminate|assumption].
    + discriminate.
  - assert (parent s = AtDown \/ parent s = ParentExited) as Hpar.
    { destruct (parent s) eqn:Hp; auto;
        destruct (Hc ltac:(auto)); discriminate. }
    unfold up, semop in Hstep. destruct (sem s) as [v|] eqn:Hs.
    2:{ specialize (He eq_refl). destruct Hpar as [Hp|Hp]; congruence. }
    assert (v = O) as ->.
    { destruct v as [|v]; [reflexivity|]. destruct (Hb v eq_refl); discriminate. }
    destruct (semop_fails w Child) eqn:Hfail.
    { injection Hstep as <-. split; cbn; rewrite ?Hs; try assumption.
      - intros _. apply in_or_app. left. apply Ha. discriminate.
      - discriminate.
      - intros H. destruct Hpar as [Hp|Hp]; rewrite Hp in H;
          destruct H as [H|[H|H]]; discriminate.
      - apply C_after_A_snoc; [discriminate|assumption].
      - rewrite Hfail. discriminate. }
    cbn in Hstep. injection Hstep as <-. split; cbn; try assumption.
    + intros _. apply Ha. discriminate.
    + auto.
    + auto.
    + discriminate.
    + intros v [= <-]. lia.
    + discriminate.
  - injection Hstep as <-. split; cbn; try assumption.
    + intros _. apply in_or_app. left. apply Ha. discriminate.
    + auto.
    + auto.
    + apply C_after_A_snoc; [discriminate|assumption].
    + discriminate.
Qed.

Lemma coupled_run w sched : coupled w (run w sched forked).
Proof.
  apply (run_invariant w (coupled w)); [|apply coupled_forked].
  intros s [] s'; [apply coupled_parent_step|apply coupled_child_step].
Qed.

Lemma step_sound w p s : sound w -> step w p s = step quiet p s.
Proof.
  intros (Hp & Hc & Hr).
  destruct p; cbn [step]; unfold parent_step, child_step, down, up.
  - rewrite Hp, Hr. reflexivity.
  - rewrite Hc. reflexivity.
Qed.

Lemma run_sound w sched s : sound w -> run w sched s = run quiet sched s.
Proof.
  intros Hw. revert s. induction sched as [|p sched IH]; intros s; [reflexivity|].
  cbn [run]. rewrite (step_sound w p s Hw). apply IH.
Qed.

Ltac pick_state := repeat first [left; reflexivity | right].

Lemma sound_states_step s p s' :
  In s sound_states -> step quiet p s = Some s' -> In s' sound_states.
Proof.
  intros Hin Hstep. cbn [In sound_states] in Hin.
  repeat (destruct Hin as [<-|Hin]); try contradiction;
    destruct p; vm_compute in Hstep; try discriminate;
    injection Hstep as <-; cbn [In sound_states]; pick_state.
Qed.

Lemma sound_states_run w sched :
  sound w -> In (run w sched forked) sound_states.
Proof.
  intros Hw. rewrite (run_sound w sched forked Hw).
  apply (run_invariant quiet (fun s => In s sound_states)).
  - intros s p s'. apply sound_states_step.
  - left. reflexivity.
Qed.

Lemma run_app w a b s : run w (a ++ b) s = run w b (run w a s).
Proof.
  revert s. induction a as [|p a IH]; intros s; [reflexivity|].
  cbn [run app]. apply IH.
Qed.

Lemma main_ran w sched s : main w sched = Ran s -> s = run w sched forked.
Proof.
  unfold main. destruct (semget_fails w), (setval_fails w), (fork_fails w);
    intros H; try discriminate. injection H as <-. reflexivity.
Qed.

Lemma waiting_step w s p s' :
  semop_fails w Child = true -> semop_fails w Parent = false ->
  waiting s -> step w p s = Some s' -> waiting s'.
Proof.
  intros Hc Hp (Hpar & Hsem & Hout & Hch) Hstep. destruct p; cbn [step] in Hstep.
  - unfold parent_step, down, semop in Hstep. rewrite Hpar, Hsem, Hp in Hstep.
    cbn in Hstep. discriminate.
  - unfold child_step, up, semop in Hstep. rewrite Hsem, Hc in Hstep.
    destruct Hch as [H|[H|H]]; rewrite H in Hstep; try discriminate;
      injection Hstep as <-; (split; [|split; [|split]]); cbn; auto.
    + intros Hin. apply in_app_or in Hin. destruct Hin as [Hin|[Hin|[]]];
        [exact (Hout Hin)|discriminate].
    + intros Hin. apply in_app_or in Hin. destruct Hin as [Hin|[Hin|[]]];
        [exact (Hout Hin)|discriminate].
Qed.

(** X18. However the two processes are interleaved and whatever fails,
    the parent's [printf("Parent: C\n")] comes after the child's
    [printf("Child: A\n")]: the parent cannot pass [down] before the child
    has called [up]. *)
Theorem parent_prints_after_child w sched s pre post :
  main w sched = Ran s ->
  out s = pre ++ ev_C :: post ->
  In ev_A pre.
Proof.
  intros Hm Hout. apply main_ran in Hm. subst s.
  exact (C_after_A _ _ (coupled_run w sched) pre post Hout).
Qed.

Lemma parent_prints_after_child_witness :
  main quiet [Child; Child; Parent; Parent; Child]
    = Ran (at_ (Some 0%nat) AtRemove ChildReturned [ev_A; ev_C; ev_B]) /\
  In ev_A [ev_A].
Proof.
  split; [reflexivity|].
  apply (parent_prints_after_child quiet [Child; Child; Parent; Parent; Child]
           (run quiet [Child; Child; Parent; Parent; Child] forked)
           [ev_A] [ev_B]); reflexivity.
Defined.

(** X19. The child's [up] fails only for a reason outside the program:
    the set is never removed before the child has called [up] and the
    value never leaves 0 and 1, so that, unless [semop] itself is made to
    fail, the child never prints "up failed" and never calls [exit(1)]. *)
Theorem up_fails_only_from_outside w sched s :
  semop_fails w Child = false ->
  main w sched = Ran s ->
  child s <> ChildExited /\
  (forall v, sem s = Some v -> (v <= 1)%nat) /\
  (sem s = None -> parent s = ParentReturned).
Proof.
  intros Hc Hm. apply main_ran in Hm. subst s.
  pose proof (coupled_run w sched) as H.
  split; [exact (up_works _ _ H Hc)|].
  split; [exact (binary _ _ H)|exact (removed _ _ H)].
Qed.

Lemma up_fails_only_from_outside_witness :
  child (run quiet child_then_parent forked) <> ChildExited.
Proof.
  refine (proj1 (up_fails_only_from_outside quiet child_then_parent
                   (run quiet child_then_parent forked) _ _));
    reflexivity.
Defined.

(** X20. When no call fails for a reason outside the program, no process
    calls [exit(1)], what has been printed so far is the beginning of
    "A B C" or of "A C B", and when both processes have returned the set
    has been removed and one of the two has been printed in full. *)
Theorem sound_run_prints_in_order w sched s :
  sound w ->
  main w sched = Ran s ->
  parent s <> ParentExited /\ child s <> ChildExited /\
  (out s `prefix_of` [ev_A; ev_B; ev_C] \/ out s `prefix_of` [ev_A; ev_C; ev_B]) /\
  (finished s ->
   sem s = None /\ (out s = [ev_A; ev_B; ev_C] \/ out s = [ev_A; ev_C; ev_B])).
Proof.
  intros Hw Hm. apply main_ran in Hm. subst s.
  pose proof (sound_states_run w sched Hw) as Hin.
  cbn [In sound_states] in Hin. unfold finished.
  repeat (destruct Hin as [<-|Hin]); try contradiction; cbn;
    (split; [discriminate|]); (split; [discriminate|]);
    (split; [|intros [Hp Hc]; try discriminate; split; auto]).
  all: first [ left; eexists; reflexivity | right; eexists; reflexivity ].
Qed.

Lemma sound_run_prints_in_order_witness :
  sound quiet /\
  out (run quiet [Child; Child; Parent; Parent; Child; Parent] forked)
    = [ev_A; ev_C; ev_B].
Proof.
  split; [repeat split|].
  destruct (sound_run_prints_in_order quiet
              [Child; Child; Parent; Parent; Child; Parent]
              (run quiet [Child; Child; Parent; Parent; Child; Parent] forked)
              ltac:(repeat split) eq_refl) as (_ & _ & _ & H).
  destruct (H ltac:(split; reflexivity)) as [_ [H1 | H1]];
    [vm_compute in H1; discriminate | exact H1].
Defined.

(** X21. When no call fails for a reason outside the program the two
    processes cannot get stuck: whatever has happened so far, letting the
    child run and then the parent makes both return, with the set
    removed. *)
Theorem sound_run_can_finish w sched s :
  sound w ->
  main w (sched ++ child_then_parent) = Ran s ->
  finished s /\ sem s = None.
Proof.
  intros Hw Hm. apply main_ran in Hm. subst s.
  rewrite run_app, (run_sound w child_then_parent _ Hw).
  pose proof (sound_states_run w sched Hw) as Hin.
  cbn [In sound_states] in Hin.
  repeat (destruct Hin as [<-|Hin]); try contradiction;
    vm_compute; repeat split.
Qed.

Lemma sound_run_can_finish_witness :
  finished (run quiet ([Parent; Child; Parent] ++ child_then_parent) forked).
Proof.
  refine (proj1 (sound_run_can_finish quiet [Parent; Child; Parent]
                   (run quiet ([Parent; Child; Parent] ++ child_then_parent) forked)
                   _ _)).
  - repeat split.
  - reflexivity.
Defined.

(** X22. When the child's [semop] fails, the child leaves with [exit(1)]
    without having raised the semaphore: the parent stays in [down] for
    ever, never prints, and the set is never removed. *)
Theorem failed_up_leaves_parent_waiting w sched s :
  semop_fails w Child = true ->
  semop_fails w Parent = false ->
  main w sched = Ran s ->
  parent s = AtDown /\ sem s = Some 0%nat /\ ~ In ev_C (out s) /\
  child s <> AtPrintB /\ child s <> ChildReturned.
Proof.
  intros Hc Hp Hm. apply main_ran in Hm. subst s.
  assert (waiting (run w sched forked)) as (H1 & H2 & H3 & H4).
  { apply (run_invariant w waiting).
    - intros s p s'. apply waiting_step; assumption.
    - unfold waiting, forked. cbn. repeat split; auto. }
  split; [exact H1|]. split; [exact H2|]. split; [exact H3|].
  destruct H4 as [H|[H|H]]; rewrite H; split; discriminate.
Qed.

Lemma failed_up_leaves_parent_waiting_witness :
  parent (run up_fails child_then_parent forked) = AtDown.
Proof.
  refine (proj1 (failed_up_leaves_parent_waiting up_fails child_then_parent
                   (run up_fails child_then_parent forked) _ _ _)); reflexivity.
Defined.

End SemaphoresRun.

(** * Properties of src/examples/message_queus.c *)

Module MessageQueueRun.
Import MessageQueue.

Lemma mq_run_invariant (w : world) (P : state -> Prop) :
  (forall s p s', P s -> step w p s = Some s' -> P s') ->
  forall sched s, P s -> P (run w sched s).
Proof.
  intros Hstep. induction sched as [|p sched IH]; intros s Hs; [exact Hs|].
  cbn [run]. apply IH. destruct (step w p s) as [s'|] eqn:E; [|exact Hs].
  exact (Hstep s p s' Hs E).
Qed.

Lemma mq_run_app w a b s : run w (a ++ b) s = run w b (run w a s).
Proof.
  revert s. induction a as [|p a IH]; intros s; [reflexivity|].
  cbn [run app]. apply IH.
Qed.

Lemma mq_main_ran w sched s : main w sched = Ran s -> s = run w sched (forked w).
Proof.
  unfold main. destruct (ftok_fails w), (msgget_fails w), (fork_fails w);
    intros H; try discriminate. injection H as <-. reflexivity.
Qed.

Lemma first_of_type_app t q q2 m r :
  first_of_type t q = Some (m, r) ->
  first_of_type t (q ++ q2) = Some (m, r ++ q2).
Proof.
  revert m r. induction q as [|x q IH]; intros m r H; [discriminate|].
  cbn [first_of_type app] in *. destruct (mtype x =? t).
  - injection H as <- <-. reflexivity.
  - destruct (first_of_type t q) as [[m' q'']|]; [|discriminate].
    injection H as <- <-. rewrite (IH m' q'' eq_refl). reflexivity.
Qed.

Lemma first_of_type_none_app t q x :
  first_of_type t q = None -> mtype x = t ->
  first_of_type t (q ++ [x]) = Some (x, q).
Proof.
  intros H Hx. induction q as [|y q IH]; cbn [first_of_type app] in *.
  - rewrite (proj2 (Z.eqb_eq _ _) Hx). reflexivity.
  - destruct (mtype y =? t); [discriminate|].
    destruct (first_of_type t q) as [[m' q'']|]; [discriminate|].
    rewrite (IH eq_refl). reflexivity.
Qed.

Lemma first_of_type_fresh q :
  Forall (fun m => mtype m <> 1) q -> first_of_type 1 q = None.
Proof.
  induction 1 as [|m q Hm _ IH]; [reflexivity|].
  cbn [first_of_type]. rewrite (proj2 (Z.eqb_neq _ _) Hm), IH. reflexivity.
Qed.

Lemma first_message_stale w m r :
  first_of_type 1 (queue0 w) = Some (m, r) -> first_message w = m.
Proof.
  intros H. unfold first_message.
  rewrite (first_of_type_app _ _ [child_message w] _ _ H). reflexivity.
Qed.

Lemma first_message_fresh w : fresh w -> first_message w = child_message w.
Proof.
  intros H. unfold first_message.
  rewrite (first_of_type_none_app 1 (queue0 w) (child_message w)
             (first_of_type_fresh _ H) eq_refl).
  reflexivity.
Qed.

Lemma first_message_sent w m r :
  first_of_type 1 (queue0 w ++ [child_message w]) = Some (m, r) ->
  first_message w = m.
Proof. intros H. unfold first_message. rewrite H. reflexivity. Qed.

Lemma child_text_terminated w : terminated (child_text w) = true.
Proof. reflexivity. Qed.

Lemma child_text_c_str w : c_str (child_text w) = lit "Hello from child!".
Proof. reflexivity. Qed.

Lemma child_message_terminated w array :
  terminated (stored (mtext (child_message w)) array) = true.
Proof. reflexivity. Qed.

Lemma child_message_c_str w array :
  c_str (stored (mtext (child_message w)) array) = lit "Hello from child!".
Proof. reflexivity. Qed.

Lemma child_message_fits w : (MTEXT <? length (mtext (child_message w)))%nat = false.
Proof.
  apply Nat.ltb_ge. unfold child_message. cbn [mtext].
  rewrite length_take. lia.
Qed.

Lemma printf_child w : printf_s Child "Child sent: " (child_text w) = Some sent_line.
Proof. reflexivity. Qed.

Lemma printf_parent w array :
  printf_s Parent "Parent received: " (stored (mtext (child_message w)) array)
  = Some hello_line.
Proof. reflexivity. Qed.

Lemma mq_coupled_forked w : coupled w (forked w).
Proof.
  split; cbn; try discriminate; auto.
  intros t [].
Qed.

Lemma in_snoc_printf (o : list event) e p t :
  In (Printf p t) (o ++ [e]) -> In (Printf p t) o \/ e = Printf p t.
Proof.
  intros H. apply in_app_or in H. destruct H as [H|[H|[]]]; auto.
Qed.

Lemma mq_coupled_parent_step w s s' :
  coupled w s -> parent_step w s = Some s' -> coupled w s'.
Proof.
  intros [Hrec Huns Hhold Hpr Hrem Hlost Hch] Hstep.
  unfold parent_step in Hstep. destruct (parent s) as [|array| | | |] eqn:Hp;
    try discriminate.
  - destruct (queue s) as [q|] eqn:Hq; [|specialize (Hrem eq_refl); congruence].
    unfold msgrcv in Hstep.
    assert (forall m q', first_of_type 1 q = Some (m, q') -> first_message w = m)
      as Hfirst.
    { intros m q' Hm. destruct (Hrec eq_refl) as [[= ->] | [= ->]].
      - exact (first_message_stale w m q' Hm).
      - exact (first_message_sent w m q' Hm). }
    assert (coupled w {| queue := Some q; parent := ParentExited; child := child s;
                         out := out s ++ [Perror Parent "msgrcv failed"] |}) as Hexit.
    { split; cbn; try discriminate; try assumption.
      intros t Ht. apply in_snoc_printf in Ht.
      destruct Ht as [Ht|Ht]; [exact (Hpr t Ht)|discriminate]. }
    destruct (msgrcv_fails w); [injection Hstep as <-; exact Hexit|].
    destruct (first_of_type 1 q) as [[m q']|] eqn:Hm; [|discriminate].
    destruct (MTEXT <? length (mtext m))%nat; [injection Hstep as <-; exact Hexit|].
    injection Hstep as <-. rewrite <- (Hfirst m q' eq_refl).
    split; cbn; try discriminate; try assumption.
    intros array [= <-]. reflexivity.
  - specialize (Hhold array eq_refl). subst array.
    unfold printf_s in Hstep.
    destruct (terminated (stored (mtext (first_message w)) (parent_stack w))) eqn:Ht;
      injection Hstep as <-; split; cbn; try discriminate; try assumption; auto;
      try (intros Hq; specialize (Hrem Hq); congruence).
    intros t Hin. apply in_snoc_printf in Hin.
    destruct Hin as [Hin|[= <-]]; [exact (Hpr t Hin)|reflexivity].
  - destruct (queue s) as [q|] eqn:Hq; [|specialize (Hrem eq_refl); congruence].
    destruct (rmid_fails w); injection Hstep as <-;
      split; cbn; try discriminate; try assumption; auto.
    intros t Hin. apply in_snoc_printf in Hin.
    destruct Hin as [Hin|Hin]; [exact (Hpr t Hin)|discriminate].
Qed.

Lemma mq_coupled_child_step w s s' :
  coupled w s -> child_step w s = Some s' -> coupled w s'.
Proof.
  intros [Hrec Huns Hhold Hpr Hrem Hlost Hch] Hstep.
  unfold child_step in Hstep. destruct (child s) eqn:Hc; try discriminate.
  - unfold msgsnd in Hstep.
    assert (coupled w {| queue := queue s; parent := parent s; child := ChildExited;
                         out := out s ++ [Perror Child "msgsnd failed"] |}) as Hexit.
    { split; cbn; try discriminate; try assumption; auto.
      intros t Ht. apply in_snoc_printf in Ht.
      destruct Ht as [Ht|Ht]; [exact (Hpr t Ht)|discriminate]. }
    destruct (queue s) as [q|] eqn:Hq; [|injection Hstep as <-; exact Hexit].
    destruct (msgsnd_fails w); [injection Hstep as <-; exact Hexit|].
    destruct (full w q); [discriminate|].
    injection Hstep as <-. split; cbn; try discriminate; try assumption.
    + intros Hp. right. specialize (Huns Hp (or_introl eq_refl)).
      injection Huns as ->. reflexivity.
    + intros _ [H|H]; discriminate.
  - rewrite printf_child in Hstep. injection Hstep as <-.
    split; cbn; try discriminate; try assumption.
    + intros Hp [H|H]; discriminate.
    + intros t Hin. apply in_snoc_printf in Hin.
      destruct Hin as [Hin|Hin]; [exact (Hpr t Hin)|discriminate].
Qed.

Lemma mq_coupled_run w sched : coupled w (run w sched (forked w)).
Proof.
  apply (mq_run_invariant w (coupled w)); [|apply mq_coupled_forked].
  intros s [] s'; [apply mq_coupled_parent_step|apply mq_coupled_child_step].
Qed.

Lemma silent_step w s p s' :
  fresh w -> silent w s -> step w p s = Some s' -> silent w s'.
Proof.
  intros Hw Hs Hstep. unfold silent in *. destruct p; cbn [step] in Hstep.
  - unfold parent_step in Hstep.
    destruct (parent s) as [|array| | | |] eqn:Hp.
    + assert (child s' = child s) as Hc.
      { destruct (msgrcv w (queue s) MTEXT 1); try discriminate;
          injection Hstep as <-; reflexivity. }
      rewrite Hc. intros Hch. destruct (Hs Hch) as (_ & Hq & Hout).
      unfold msgrcv in Hstep. rewrite Hq, (first_of_type_fresh _ Hw) in Hstep.
      destruct (msgrcv_fails w); [|discriminate].
      injection Hstep as <-. cbn. split; [auto|]. split; [reflexivity|].
      intros t Hin. apply in_snoc_printf in Hin.
      destruct Hin as [Hin|Hin]; [exact (Hout t Hin)|discriminate].
    + assert (child s' = child s) as Hc.
      { destruct (printf_s Parent "Parent received: " array);
          injection Hstep as <-; reflexivity. }
      rewrite Hc. intros Hch. destruct (Hs Hch) as ([H|H] & _); discriminate.
    + assert (child s' = child s) as Hc.
      { destruct (queue s); [destruct (rmid_fails w)|];
          injection Hstep as <-; reflexivity. }
      rewrite Hc. intros Hch. destruct (Hs Hch) as ([H|H] & _); discriminate.
    + discriminate.
    + discriminate.
    + discriminate.
  - unfold child_step in Hstep. destruct (child s) eqn:Hc; try discriminate.
    + destruct (msgsnd w (queue s) 1 (child_text w) MTEXT); try discriminate;
        injection Hstep as <-; cbn.
      * intros [H|H]; discriminate.
      * intros _. destruct (Hs (or_introl eq_refl)) as (Hp & Hq & Hout).
        split; [exact Hp|]. split; [exact Hq|].
        intros t Hin. apply in_snoc_printf in Hin.
        destruct Hin as [Hin|Hin]; [exact (Hout t Hin)|discriminate].
    + rewrite printf_child in Hstep. injection Hstep as <-. cbn.
      intros [H|H]; discriminate.
Qed.

Lemma silent_run w sched : fresh w -> silent w (run w sched (forked w)).
Proof.
  intros Hw. apply (mq_run_invariant w (silent w)).
  - intros s p s'. apply silent_step. exact Hw.
  - intros _. cbn. split; [auto|]. split; [reflexivity|]. intros t [].
Qed.

Section Sound.
Variable w : world.
Hypothesis Hsound : sound w.
Hypothesis Hfresh : fresh w.

Lemma msgsnd_sound :
  msgsnd w (Some (queue0 w)) 1 (child_text w) MTEXT
  = Sent (queue0 w ++ [child_message w]).
Proof.
  destruct Hsound as (Hs & _ & _ & Hfull).
  unfold msgsnd. rewrite Hs, Hfull. reflexivity.
Qed.

Lemma msgrcv_waits : msgrcv w (Some (queue0 w)) MTEXT 1 = RcvBlocks.
Proof.
  destruct Hsound as (_ & Hr & _).
  unfold msgrcv. rewrite Hr, (first_of_type_fresh _ Hfresh). reflexivity.
Qed.

Lemma msgrcv_sound :
  msgrcv w (Some (queue0 w ++ [child_message w])) MTEXT 1
  = Received (mtext (child_message w)) (queue0 w).
Proof.
  destruct Hsound as (_ & Hr & _).
  unfold msgrcv. rewrite Hr.
  rewrite (first_of_type_none_app 1 (queue0 w) (child_message w)
             (first_of_type_fresh _ Hfresh) eq_refl).
  rewrite child_message_fits. reflexivity.
Qed.

Lemma rmid_sound : rmid_fails w = false.
Proof. exact (proj1 (proj2 (proj2 Hsound))). Qed.

Lemma mq_run_cons p sched s :
  run w (p :: sched) s
  = run w sched (match step w p s with Some s' => s' | None => s end).
Proof. reflexivity. Qed.

Ltac mq_step :=
  rewrite mq_run_cons;
  match goal with
  | |- context [step w ?p ?st] =>
      let E := fresh "E" in
      eassert (step w p st = _) as E by
        (unfold step, parent_step, child_step, at_;
         cbn [parent child queue out];
         rewrite ?msgsnd_sound, ?msgrcv_waits, ?msgrcv_sound,
           ?printf_child, ?printf_parent, ?rmid_sound;
         reflexivity);
      rewrite E; clear E; cbv beta iota
  end.

Ltac mq_pick :=
  unfold sound_states, at_; cbn [In]; repeat first [left; reflexivity | right].

Lemma mq_sound_states_step s p s' :
  In s (sound_states w) -> step w p s = Some s' -> In s' (sound_states w).
Proof.
  intros Hin Hstep. unfold sound_states in Hin. cbn [In] in Hin.
  repeat (destruct Hin as [<-|Hin]); try contradiction; destruct p;
    unfold step, parent_step, child_step, at_ in Hstep;
    cbn [parent child queue out] in Hstep;
    rewrite ?msgsnd_sound, ?msgrcv_waits, ?msgrcv_sound,
      ?printf_child, ?printf_parent, ?rmid_sound in Hstep;
    try discriminate; injection Hstep as <-; mq_pick.
Qed.

Lemma mq_sound_states_run sched : In (run w sched (forked w)) (sound_states w).
Proof.
  apply (mq_run_invariant w (fun s => In s (sound_states w))).
  - intros s p s'. apply mq_sound_states_step.
  - left. reflexivity.
Qed.

Lemma mq_sound_states_finish s :
  In s (sound_states w) ->
  finished (run w child_then_parent s) /\ queue (run w child_then_parent s) = None.
Proof.
  intros Hin. unfold sound_states in Hin. cbn [In] in Hin. unfold child_then_parent.
  repeat (destruct Hin as [<-|Hin]); try contradiction;
    do 5 mq_step; cbn [run]; repeat split.
Qed.

End Sound.

(** X23. On a queue that held no message of type 1 (a new queue holds
    none), however the two processes are interleaved and whatever fails:
    the only line the parent prints is the child's greeting, it prints it
    only after the child's [msgsnd] has succeeded, and no [printf] reads
    past [msg.mtext], whatever the arrays held before. *)
Theorem parent_receives_childs_message w sched s :
  fresh w ->
  main w sched = Ran s ->
  (forall t, In (Printf Parent t) (out s) -> Printf Parent t = hello_line) /\
  (In hello_line (out s) -> child s <> AtSend /\ child s <> ChildExited) /\
  parent s <> ParentLost /\ child s <> ChildLost.
Proof.
  intros Hw Hm. apply mq_main_ran in Hm. subst s.
  pose proof (mq_coupled_run w sched) as [_ _ _ Hpr _ Hlost Hch].
  pose proof (silent_run w sched Hw) as Hs.
  unfold received_line in Hpr. rewrite (first_message_fresh w Hw) in Hpr, Hlost.
  split; [|split; [|split]].
  - intros t Hin. rewrite (Hpr t Hin), child_message_c_str. reflexivity.
  - intros Hin. split; intros Hc.
    + destruct (Hs (or_introl Hc)) as (_ & _ & Hout). destruct (Hout _ Hin).
    + destruct (Hs (or_intror Hc)) as (_ & _ & Hout). destruct (Hout _ Hin).
  - intros Hp. specialize (Hlost Hp).
    rewrite child_message_terminated in Hlost. discriminate.
  - exact Hch.
Qed.

Lemma parent_receives_childs_message_witness :
  fresh quiet /\
  out (run quiet [Child; Parent; Parent] (forked quiet)) = [hello_line] /\
  child (run quiet [Child; Parent; Parent] (forked quiet)) <> AtSend.
Proof.
  split; [constructor|]. split; [reflexivity|].
  refine (proj1 (proj1 (proj2 (parent_receives_childs_message quiet
                   [Child; Parent; Parent]
                   (run quiet [Child; Parent; Parent] (forked quiet)) _ _)) _)).
  - constructor.
  - reflexivity.
  - left. reflexivity.
Defined.

(** X24. [msgget] is called with [IPC_CREAT] but without [IPC_EXCL]: when
    the queue of the key already holds a message of type 1, the parent is
    given the first such message, not the child's. Whatever the
    interleaving, the only line the parent prints is made from that
    message, and its [printf] reads past [msg.mtext] only if the message
    and what the array held after it have no NUL. *)
Theorem stale_message_is_received w sched s m rest :
  first_of_type 1 (queue0 w) = Some (m, rest) ->
  main w sched = Ran s ->
  (forall t, In (Printf Parent t) (out s) ->
     t = lit "Parent received: " ++ c_str (stored (mtext m) (parent_stack w)) ++ [LF]) /\
  (parent s = ParentLost -> terminated (stored (mtext m) (parent_stack w)) = false).
Proof.
  intros Hq Hm. apply mq_main_ran in Hm. subst s.
  pose proof (mq_coupled_run w sched) as [_ _ _ Hpr _ Hlost _].
  unfold received_line in Hpr. rewrite (first_message_stale w m rest Hq) in Hpr, Hlost.
  split; assumption.
Qed.

Lemma stale_message_is_received_witness :
  first_of_type 1 (queue0 leftover)
    = Some ({| mtype := 1; mtext := lit "old" ++ [NUL] |},
            [ {| mtype := 2; mtext := lit "other" |} ]) /\
  out (run leftover [Child; Parent; Parent; Parent; Child] (forked leftover))
    = [Printf Parent (lit "Parent received: old" ++ [LF]); sent_line] /\
  forall t,
    In (Printf Parent t)
       (out (run leftover [Child; Parent; Parent; Parent; Child] (forked leftover))) ->
    t = lit "Parent received: old" ++ [LF].
Proof.
  split; [reflexivity|]. split; [reflexivity|].
  exact (proj1 (stale_message_is_received leftover
                  [Child; Parent; Parent; Parent; Child]
                  (run leftover [Child; Parent; Parent; Parent; Child]
                     (forked leftover))
                  {| mtype := 1; mtext := lit "old" ++ [NUL] |}
                  [ {| mtype := 2; mtext := lit "other" |} ]
                  eq_refl eq_refl)).
Defined.

(** X25. When no call fails for a reason outside the program, on a queue
    with room that held no message of type 1: under every interleaving no
    process calls [exit(1)], the lines printed so far are a beginning of
    "sent, received" or of "received, sent", and the messages the queue held
    are still in it, in their order, until the parent removes it. *)
Theorem mq_sound_run_prints_in_order w sched s :
  sound w -> fresh w ->
  main w sched = Ran s ->
  parent s <> ParentExited /\ child s <> ChildExited /\
  (out s `prefix_of` [sent_line; hello_line] \/
   out s `prefix_of` [hello_line; sent_line]) /\
  (queue s = None \/ queue s = Some (queue0 w) \/
   queue s = Some (queue0 w ++ [child_message w])).
Proof.
  intros Hs Hf Hm. apply mq_main_ran in Hm. subst s.
  pose proof (mq_sound_states_run w Hs Hf sched) as Hin.
  unfold sound_states in Hin. cbn [In] in Hin.
  repeat (destruct Hin as [<-|Hin]); try contradiction; unfold at_;
    cbn [parent child queue out];
    (split; [discriminate|]); (split; [discriminate|]); (split; [|auto]).
  all: first [ left; eexists; reflexivity | right; eexists; reflexivity ].
Qed.

Lemma mq_sound_run_prints_in_order_witness :
  sound quiet /\ fresh quiet /\
  parent (run quiet [Parent; Child; Parent] (forked quiet)) <> ParentExited.
Proof.
  split; [repeat split|]. split; [constructor|].
  refine (proj1 (mq_sound_run_prints_in_order quiet [Parent; Child; Parent]
                   (run quiet [Parent; Child; Parent] (forked quiet)) _ _ _)).
  - repeat split.
  - constructor.
  - reflexivity.
Defined.

(** X26. Under the same conditions the two processes cannot get stuck:
    whatever has happened so far, letting the child run and then the
    parent makes both return from [main], the queue being removed and both
    lines printed, in one order or the other. *)
Theorem mq_sound_run_can_finish w sched s :
  sound w -> fresh w ->
  main w (sched ++ child_then_parent) = Ran s ->
  finished s /\ queue s = None /\
  (out s = [sent_line; hello_line] \/ out s = [hello_line; sent_line]).
Proof.
  intros Hs Hf Hm. apply mq_main_ran in Hm. subst s.
  pose proof (mq_sound_states_run w Hs Hf (sched ++ child_then_parent)) as Hin.
  rewrite mq_run_app in *.
  destruct (mq_sound_states_finish w Hs Hf _ (mq_sound_states_run w Hs Hf sched))
    as ([Hp Hc] & Hq).
  split; [split; assumption|]. split; [exact Hq|].
  unfold sound_states in Hin. cbn [In] in Hin.
  repeat (destruct Hin as [Hin|Hin]); try contradiction;
    rewrite <- Hin in Hp, Hc |- *; try discriminate; cbn [out at_]; auto.
Qed.

Lemma mq_sound_run_can_finish_witness :
  finished (run quiet ([Parent; Child; Parent] ++ child_then_parent) (forked quiet)).
Proof.
  refine (proj1 (mq_sound_run_can_finish quiet [Parent; Child; Parent]
                   (run quiet ([Parent; Child; Parent] ++ child_then_parent)
                      (forked quiet)) _ _ _)).
  - repeat split.
  - constructor.
  - reflexivity.
Defined.

End MessageQueueRun.
